(** * rag-system: the document-to-vector ingestion pipeline

    A shallow embedding of the ingestion core of the repository
    (chunking engine, metadata title heuristic, embedding client,
    disk cache, batching helper and upload-record construction) together
    with the properties stated about it.

    Python values are modelled as follows.
    - [int] is [Z];
    - [str] is [list ascii], one [ascii] per character (code points
      below 256);
    - a list is a [list];
    - an embedding vector is a [list float];
    - a function that can raise returns a sum [exn + A];
    - the cache directory is a finite map from file names to contents;
    - a keyword score and its threshold are [float]s, compared as
      floats;
    - the remote embedding endpoint, the clock and [time.sleep] live in
      an explicit [world] that is threaded through the client;
    - the vector store is a service that takes or refuses each request
      and keeps a vector in the form that its distance prescribes. *)

From Stdlib Require Import Floats.PrimFloat.
From Stdlib Require Import ZArith QArith Ascii String Lia Lqa.
From Stdlib Require DecimalString Uint63.
From stdpp Require Import base list gmap strings.

Local Open Scope Z_scope.

(** ** Python primitives used by the sources *)

Module Py.

Abbreviation str := (list ascii).

(** A string literal. *)
Definition lit (s : string) : str := list_ascii_of_string s.

(** [len(x)] *)
Definition len {A} (l : list A) : Z := Z.of_nat (length l).

(** Position denoted by the slice bound [i] in a sequence of length
    [n]: a negative bound counts from the end, and the result is
    clamped to [0 .. n]. *)
Definition bound (n : nat) (i : Z) : nat :=
  Z.to_nat (Z.max 0 (Z.min (Z.of_nat n) (if i <? 0 then i + Z.of_nat n else i))).

(** [l[i:j]] *)
Definition slice {A} (l : list A) (i j : Z) : list A :=
  let a := bound (length l) i in
  let b := bound (length l) j in
  take (b - a) (drop a l).

(** [l[:j]] *)
Definition slice_to {A} (l : list A) (j : Z) : list A :=
  take (bound (length l) j) l.

(** [l[i:]] *)
Definition slice_from {A} (l : list A) (i : Z) : list A :=
  drop (bound (length l) i) l.

(** [range(start, stop, step)]; [None] is the [ValueError] raised for
    a zero step.  The number of elements is computed as CPython does. *)
Definition range (start stop step : Z) : option (list Z) :=
  if step =? 0 then None
  else
    let n := if 0 <? step
             then (stop - start + step - 1) / step
             else (start - stop - step - 1) / (- step) in
    Some (map (fun k => start + Z.of_nat k * step) (seq 0 (Z.to_nat n))).

Definition code (c : ascii) : Z := Z.of_nat (nat_of_ascii c).

(** [c.isspace()] on code points below 256. *)
Definition isspace (c : ascii) : bool :=
  let n := code c in
  ((9 <=? n) && (n <=? 13)) || ((28 <=? n) && (n <=? 32))
  || (n =? 133) || (n =? 160).

(** [c.isdigit()] on code points below 256: the ASCII digits and the
    superscripts two, three and one. *)
Definition isdigit (c : ascii) : bool :=
  let n := code c in
  ((48 <=? n) && (n <=? 57)) || (n =? 178) || (n =? 179) || (n =? 185).

Fixpoint lstrip (s : str) : str :=
  match s with
  | c :: s' => if isspace c then lstrip s' else s
  | [] => []
  end.

Definition rstrip (s : str) : str := reverse (lstrip (reverse s)).

(** [s.strip()] *)
Definition strip (s : str) : str := rstrip (lstrip s).

(** [sep.join(parts)] *)
Fixpoint join (sep : str) (parts : list str) : str :=
  match parts with
  | [] => []
  | [p] => p
  | p :: ps => p ++ sep ++ join sep ps
  end.

(** [s.split(sep)] for a one-character separator: every occurrence
    splits, empty pieces are kept. *)
Fixpoint split_on (sep : ascii) (s : str) : list str :=
  match s with
  | [] => [[]]
  | c :: s' =>
      match split_on sep s' with
      | p :: ps => if Ascii.eqb c sep then [] :: p :: ps else (c :: p) :: ps
      | [] => [[c]]
      end
  end.

(** [s.split()]: pieces between runs of white space, none empty.
    [cur] is the piece being read, in reverse. *)
Fixpoint split_ws_go (cur : str) (s : str) : list str :=
  match s with
  | [] => match cur with [] => [] | _ => [reverse cur] end
  | c :: s' =>
      if isspace c
      then match cur with
           | [] => split_ws_go [] s'
           | _ => reverse cur :: split_ws_go [] s'
           end
      else split_ws_go (c :: cur) s'
  end.

Definition split_ws (s : str) : list str := split_ws_go [] s.

(** [c.lower()] on code points below 256. *)
Definition lower_char (c : ascii) : ascii :=
  let n := code c in
  if ((65 <=? n) && (n <=? 90))
     || ((192 <=? n) && (n <=? 222) && negb (n =? 215))
  then ascii_of_nat (Z.to_nat (n + 32))
  else c.

(** [s.lower()] *)
Definition lower (s : str) : str := map lower_char s.

Fixpoint startswith (p s : str) : bool :=
  match p, s with
  | [], _ => true
  | a :: p', b :: s' => Ascii.eqb a b && startswith p' s'
  | _ :: _, [] => false
  end.

(** [needle in hay] *)
Fixpoint contains (needle hay : str) : bool :=
  startswith needle hay
  || match hay with
     | [] => false
     | _ :: hay' => contains needle hay'
     end.

(** [str(n)] for an index [n >= 0]. *)
Definition str_of_nat (n : nat) : str :=
  list_ascii_of_string (DecimalString.NilZero.string_of_uint (Nat.to_uint n)).

End Py.

Import Py.

(** ** src/utils/helpers.py *)

(** *** batch_iterator *)

Module Helpers.

(** [batch_iterator(items, batch_size)], the batches it yields in
    order.  [None]: [range] raised [ValueError] (zero batch size). *)
Definition batch_iterator {T} (items : list T) (batch_size : Z)
  : option (list (list T)) :=
  match range 0 (len items) batch_size with
  | None => None
  | Some starts => Some (map (fun i => slice items i (i + batch_size)) starts)
  end.

(** The [m] first windows of width [b] of a list: what the batches
    are expected to be. *)
Definition windows {T} (items : list T) (b m : nat) : list (list T) :=
  map (fun k => take b (drop (k * b) items)) (seq 0 m).

End Helpers.

(** *** DiskCache *)

Module DiskCache.

(** The files of the cache directory: name to contents. *)
Abbreviation files := (gmap str (list Byte.byte)).

(** What the operating system does with one read or write.  A failed
    write may leave [written] in the file, which [open(.., 'wb')] has
    truncated before. *)
Inductive read_outcome := ReadOk | ReadFails.
Inductive write_outcome := WriteOk | OpenFails | WriteFails (written : list Byte.byte).

Section Cache.

(** Library functions: [hashlib.md5(text.encode('utf-8')).hexdigest()],
    [pickle.dump] and [pickle.load] ([None] when it raises). *)
Context {V : Type}.
Variable md5_hexdigest : str -> str.
Variable pickle_dump : V -> list Byte.byte.
Variable pickle_load : list Byte.byte -> option V.

(** [self._get_key(text)] *)
Definition _get_key (text : str) : str := md5_hexdigest text.

(** [self.cache_dir / f"{key}.pkl"] *)
Definition cache_file (cache_dir : str) (text : str) : str :=
  cache_dir ++ lit "/" ++ _get_key text ++ lit ".pkl".

(** [get(text)]: [None] is a miss; an unreadable or corrupt file is a
    miss as well. *)
Definition get (cache_dir : str) (io : read_outcome) (fs : files)
    (text : str) : option V :=
  match fs !! cache_file cache_dir text with
  | Some content =>
      match io with
      | ReadOk => pickle_load content
      | ReadFails => None
      end
  | None => None
  end.

(** [set(text, value)]: a failure is printed and swallowed. *)
Definition set (cache_dir : str) (io : write_outcome) (fs : files)
    (text : str) (value : V) : files :=
  match io with
  | WriteOk => <[cache_file cache_dir text := pickle_dump value]> fs
  | OpenFails => fs
  | WriteFails written => <[cache_file cache_dir text := written]> fs
  end.

End Cache.

End DiskCache.

(** ** config/document_cleaner_enhanced.py *)

Module Cleaner.

(** *** Metadata *)

(** The dictionary built by [extract_metadata_enhanced].  A key that
    the code may leave out is an [option].  Entities and keywords come
    from the optional spaCy pipeline and are kept abstract in [E]. *)
Record metadata (E : Type) := {
  source : str;
  word_count : Z;
  char_count : Z;
  title : option str;
  summary : str;
  enrichment : option E
}.
Arguments source {E}. Arguments word_count {E}. Arguments char_count {E}.
Arguments title {E}. Arguments summary {E}. Arguments enrichment {E}.

(** The title loop: the first stripped line that passes both tests
    ends the loop. *)
Fixpoint title_loop (lines : list str) : option str :=
  match lines with
  | [] => None
  | line :: rest =>
      let line := strip line in
      if (10 <? len line) && (len line <? 200)
      then match line with
           | c :: _ => if negb (isdigit c) then Some line else title_loop rest
           | [] => title_loop rest
           end
      else title_loop rest
  end.

(** [extract_metadata_enhanced(text, source_path)].  [spacy] is the
    outcome of the enrichment block: [None] when spaCy is not in use,
    no pipeline is loaded or the block raised (the exception is only
    printed). *)
Definition extract_metadata_enhanced {E} (spacy : str -> option E)
    (text : str) (source_path : str) : metadata E :=
  let lines := slice_to (split_on "010"%char text) 10 in
  let clean_text := join (lit " ") (split_ws text) in
  {| source := source_path;
     word_count := len (split_ws text);
     char_count := len text;
     title := title_loop lines;
     summary := if 200 <? len clean_text
                then slice_to clean_text 200 ++ lit "..."
                else clean_text;
     enrichment := spacy text |}.

(** A line that the title loop accepts. *)
Definition title_candidate (line : str) : Prop :=
  10 < len line < 200 /\ forall c, head line = Some c -> isdigit c = false.

(** The title guess as the specification words it: the first line among
    the first ten that has 10 to 200 characters and does not start with
    a digit. *)
Fixpoint spec_title_loop (lines : list str) : option str :=
  match lines with
  | [] => None
  | line :: rest =>
      let line := strip line in
      if (10 <=? len line) && (len line <=? 200)
         && match line with c :: _ => negb (isdigit c) | [] => false end
      then Some line
      else spec_title_loop rest
  end.

Definition spec_title_guess (text : str) : option str :=
  spec_title_loop (slice_to (split_on "010"%char text) 10).

(** *** Chunking *)

(** A chunk that meets the minimum size. *)
Definition long_enough (min_size : Z) (chunk : str) : Prop :=
  min_size <= len chunk.

(** Loop state of [_build_chunks_from_sentences]. *)
Record build_state := {
  chunks : list str;
  current_chunk : list str;
  current_size : Z
}.

Definition is_empty {A} (l : list A) : bool :=
  match l with [] => true | _ => false end.

(** One iteration of the [for sentence in sentences] loop. *)
Definition build_step (chunk_size overlap min_size : Z)
    (st : build_state) (sentence : str) : build_state :=
  let sentence := strip sentence in
  if is_empty sentence then st
  else
    let sentence_len := len sentence in
    if (chunk_size <? current_size st + sentence_len)
       && negb (is_empty (current_chunk st))
    then
      let chunk_text := join (lit " ") (current_chunk st) in
      let chunks' := if min_size <=? len chunk_text
                     then chunks st ++ [chunk_text] else chunks st in
      if 0 <? overlap
      then
        let overlap_text := if overlap <? len chunk_text
                            then slice_from chunk_text (- overlap)
                            else chunk_text in
        {| chunks := chunks';
           current_chunk := [overlap_text; sentence];
           current_size := len overlap_text + sentence_len |}
      else
        {| chunks := chunks';
           current_chunk := [sentence];
           current_size := sentence_len |}
    else
      {| chunks := chunks st;
         current_chunk := current_chunk st ++ [sentence];
         current_size := current_size st + sentence_len |}.

(** The flush after the loop. *)
Definition build_flush (min_size : Z) (st : build_state) : list str :=
  if is_empty (current_chunk st) then chunks st
  else
    let chunk_text := join (lit " ") (current_chunk st) in
    if min_size <=? len chunk_text
    then chunks st ++ [chunk_text] else chunks st.

Definition build_init : build_state :=
  {| chunks := []; current_chunk := []; current_size := 0 |}.

(** [_build_chunks_from_sentences(sentences, chunk_size, overlap, min_size)] *)
Definition _build_chunks_from_sentences (sentences : list str)
    (chunk_size overlap min_size : Z) : list str :=
  build_flush min_size
    (fold_left (build_step chunk_size overlap min_size) sentences build_init).

(** The [while start < text_len] loop of [_chunk_by_chars].  The loop
    has no bound in the source; [fuel] counts the iterations allowed
    and [None] says that they did not suffice. *)
Fixpoint chunk_by_chars_loop (fuel : nat) (text : str)
    (chunk_size overlap min_size : Z) (start : Z) (chunks : list str)
    : option (list str) :=
  match fuel with
  | O => None
  | S fuel' =>
      if start <? len text
      then
        let end_ := Z.min (start + chunk_size) (len text) in
        let chunk := strip (slice text start end_) in
        let chunks' := if min_size <=? len chunk
                       then chunks ++ [chunk] else chunks in
        let start' := end_ - overlap in
        if start' <=? 0 then Some chunks'
        else chunk_by_chars_loop fuel' text chunk_size overlap min_size
               start' chunks'
      else Some chunks
  end.

(** [_chunk_by_chars(text, chunk_size, overlap, min_size)] *)
Definition _chunk_by_chars (fuel : nat) (text : str)
    (chunk_size overlap min_size : Z) : option (list str) :=
  chunk_by_chars_loop fuel text chunk_size overlap min_size 0 [].

(** The optional analyzers and the regular-expression calls, which
    belong to libraries.  A sentence splitter returns [None] when it
    raises. *)
Record analyzers := {
  HAS_SPACY : bool;
  nlp_zh : option (str -> option (list str));
  nlp_en : option (str -> option (list str));
  HAS_NLTK : bool;
  sent_tokenize : str -> option (list str);
  (** [len(re.findall(r'[\u4e00-\u9fff]', s))] *)
  count_cjk : str -> Z;
  (** [re.split] of [s] on a terminal punctuation mark followed by
      white space, separators kept *)
  split_terminators : str -> list str
}.

(** The pairing loop of [_chunk_by_sentences_regex]: a piece is glued
    to the separator that follows it. *)
Fixpoint full_sentences (pieces : list str) : list str :=
  match pieces with
  | piece :: sep :: rest => (piece ++ sep) :: full_sentences rest
  | [piece] => [piece]
  | [] => []
  end.

(** [_chunk_by_sentences_regex] *)
Definition _chunk_by_sentences_regex (an : analyzers) (text : str)
    (chunk_size overlap min_size : Z) : list str :=
  _build_chunks_from_sentences (full_sentences (split_terminators an text))
    chunk_size overlap min_size.

(** [_chunk_by_nltk]: an exception of the tokenizer falls back to the
    regular expression. *)
Definition _chunk_by_nltk (an : analyzers) (text : str)
    (chunk_size overlap min_size : Z) : list str :=
  match sent_tokenize an text with
  | Some sentences =>
      _build_chunks_from_sentences sentences chunk_size overlap min_size
  | None => _chunk_by_sentences_regex an text chunk_size overlap min_size
  end.

(** [_chunk_by_spacy]: the text goes through the pipeline in batches
    of 100000 characters; [None] when the pipeline raises. *)
Definition _chunk_by_spacy (text : str) (chunk_size overlap min_size : Z)
    (nlp : str -> option (list str)) : option (list str) :=
  match range 0 (len text) 100000 with
  | None => None
  | Some starts =>
      match mapM (fun i => nlp (slice text i (i + 100000))) starts with
      | None => None
      | Some sents =>
          Some (_build_chunks_from_sentences (concat sents)
                  chunk_size overlap min_size)
      end
  end.

(** The [if HAS_SPACY: try: ...] block of [smart_chunk_text_enhanced];
    [None] when the block does not return. *)
Definition try_spacy (an : analyzers) (text : str)
    (chunk_size overlap min_chunk_size : Z) (language : str)
    : option (list str) :=
  if HAS_SPACY an then
    let nlp :=
      if decide (language = lit "auto")
      then if 50 <? count_cjk an (slice_to text 1000)
           then nlp_zh an else nlp_en an
      else if decide (language = lit "zh") then nlp_zh an else nlp_en an in
    match nlp with
    | Some f => _chunk_by_spacy text chunk_size overlap min_chunk_size f
    | None => None
    end
  else None.

(** [smart_chunk_text_enhanced]; [None] only when the character loop
    runs out of [fuel]. *)
Definition smart_chunk_text_enhanced (fuel : nat) (an : analyzers)
    (text : str) (chunk_size overlap min_chunk_size : Z)
    (respect_sentence : bool) (language : str) : option (list str) :=
  if is_empty text || (len (strip text) <? min_chunk_size) then Some []
  else if negb respect_sentence
  then _chunk_by_chars fuel text chunk_size overlap min_chunk_size
  else
    match try_spacy an text chunk_size overlap min_chunk_size language with
    | Some result => Some result
    | None =>
        if HAS_NLTK an
        then Some (_chunk_by_nltk an text chunk_size overlap min_chunk_size)
        else Some (_chunk_by_sentences_regex an text chunk_size overlap
                     min_chunk_size)
    end.

End Cleaner.

(** ** src/azure_embedding.py *)

Module Embedding.

Abbreviation vector := (list float).

(** The value of the [Retry-After] header as [int(headers.get(...))]
    sees it: missing, an integer, or a text on which [int] raises
    [ValueError] with the message [msg]. *)
Inductive retry_after_header :=
| Absent
| Seconds (n : Z)
| Unparsable (msg : str).

(** What [response.json()] and the extraction of
    [item['embedding'] for item in data['data']] give: the embeddings, or
    an exception with message [msg]. *)
Inductive body :=
| BadBody (msg : str)
| Data (embeddings : list vector).

(** An HTTP response.  [error_text] is the text of the [HTTPError] that
    [raise_for_status] raises for this response. *)
Record response := {
  status_code : Z;
  retry_after : retry_after_header;
  error_text : str;
  json : body
}.

(** Exceptions.  An [HTTPError] comes from [raise_for_status] and
    remembers its response, which is also the local variable [response]
    that the handler reads. *)
Inductive exn :=
| HTTPError (r : response)
| OtherError (msg : str).

(** [str(e)] *)
Definition exn_str (e : exn) : str :=
  match e with
  | HTTPError r => error_text r
  | OtherError msg => msg
  end.

(** Outcome of one [requests.post]: it raises (connection error, time
    out: not an [HTTPError]) or returns a response, after [latency]
    seconds. *)
Inductive post_outcome :=
| PostRaised (latency : Q) (msg : str)
| PostReturned (latency : Q) (r : response).

(** The remote endpoint: the outcome of the [k]-th request of the run,
    given its payload. *)
Definition remote := nat -> list str -> post_outcome.

(** The part of the outside world that the client acts on: the number
    of requests sent, the clock, and the calls to [time.sleep] in
    order. *)
Record world := {
  calls : nat;
  now : Q;
  sleeps : list Q
}.

(** Computations that act on the world and may raise. *)
Definition M (A : Type) : Type := world -> world * (exn + A).

#[global] Instance M_ret : MRet M := fun A a w => (w, inr a).
#[global] Instance M_bind : MBind M := fun A B k m w =>
  match m w with
  | (w', inl e) => (w', inl e)
  | (w', inr a) => k a w'
  end.

Definition raise {A} (e : exn) : M A := fun w => (w, inl e).

(** [try: m except e: h e] *)
Definition try_except {A} (m : M A) (h : exn -> M A) : M A := fun w =>
  match m w with
  | (w', inl e) => h e w'
  | (w', inr a) => (w', inr a)
  end.

Definition Qlt_bool (a b : Q) : bool := negb (Qle_bool b a).

(** [time.time()] *)
Definition time_time : M Q := fun w => (w, inr (now w)).

(** [time.sleep(d)] *)
Definition time_sleep (d : Q) : M unit := fun w =>
  if Qlt_bool d 0
  then (w, inl (OtherError (lit "sleep length must be non-negative")))
  else ({| calls := calls w; now := (now w + d)%Q; sleeps := sleeps w ++ [d] |},
        inr tt).

(** [requests.post(url, headers, json=payload, timeout)] *)
Definition post (srv : remote) (payload : list str) : M response := fun w =>
  match srv (calls w) payload with
  | PostRaised latency msg =>
      ({| calls := S (calls w); now := (now w + latency)%Q; sleeps := sleeps w |},
       inl (OtherError msg))
  | PostReturned latency r =>
      ({| calls := S (calls w); now := (now w + latency)%Q; sleeps := sleeps w |},
       inr r)
  end.

(** [int(response.headers.get('Retry-After', 10))] *)
Definition int_retry_after (r : response) : M Z :=
  match retry_after r with
  | Absent => mret 10
  | Seconds n => mret n
  | Unparsable msg => raise (OtherError msg)
  end.

(** [response.raise_for_status()] *)
Definition raise_for_status (r : response) : M unit :=
  if (400 <=? status_code r) && (status_code r <? 600)
  then raise (HTTPError r) else mret tt.

Definition json_embeddings (r : response) : M (list vector) :=
  match json r with
  | BadBody msg => raise (OtherError msg)
  | Data embeddings => mret embeddings
  end.

(** The client object: the attributes that the methods read. *)
Record client := {
  max_retries : Z;
  default_batch_size : Z
}.

Definition is_control (c : ascii) : bool :=
  let n := code c in
  ((0 <=? n) && (n <=? 8)) || ((11 <=? n) && (n <=? 12))
  || ((14 <=? n) && (n <=? 31)) || (n =? 127).

(** [validate_and_clean_text(text)] *)
Definition validate_and_clean_text (text : str) : str :=
  if Cleaner.is_empty text || Cleaner.is_empty (strip text) then lit "empty"
  else
    let text := filter (fun c => is_control c = false) text in
    let max_chars := 30000 in
    let text := if max_chars <? len text then slice_to text max_chars else text in
    let text := strip text in
    if Cleaner.is_empty text then lit "empty" else text.

(** The [try] block of one attempt.  [None] stands for [continue],
    [Some result] for [return result].  [pick] is the last line,
    [embeddings[0] if is_single else embeddings]. *)
Definition attempt_try {A} (srv : remote) (payload : list str)
    (pick : list vector -> M A) : M (option A) :=
  response ← post srv payload;
  if status_code response =? 429 then
    retry_after ← int_retry_after response;
    time_sleep (inject_Z retry_after);;
    mret None
  else
    raise_for_status response;;
    embeddings ← json_embeddings response;
    result ← pick embeddings;
    mret (Some result).

(** The two [except] clauses of one attempt.  [None]: the loop goes on
    with the next attempt. *)
Definition attempt_except {A} (c : client) (attempt : Z) (e : exn)
    : M (option A) :=
  match e with
  | HTTPError response =>
      let log_and_maybe_raise : M (option A) :=
        if attempt =? max_retries c - 1 then raise e else mret None in
      if status_code response =? 429 then
        retry_after ← int_retry_after response;
        time_sleep (inject_Z retry_after);;
        if attempt <? max_retries c - 1 then mret None
        else log_and_maybe_raise
      else log_and_maybe_raise
  | OtherError _ =>
      if attempt <? max_retries c - 1 then
        let wait := 2 ^ attempt in
        time_sleep (inject_Z wait);;
        mret None
      else raise e
  end.

(** [for attempt in range(self.max_retries): ...], then
    [raise Exception("Max retries exceeded")]. *)
Fixpoint embed_attempts {A} (c : client) (srv : remote) (payload : list str)
    (pick : list vector -> M A) (attempts : list Z) : M A :=
  match attempts with
  | [] => raise (OtherError (lit "Max retries exceeded"))
  | attempt :: rest =>
      r ← try_except (attempt_try srv payload pick) (attempt_except c attempt);
      match r with
      | Some result => mret result
      | None => embed_attempts c srv payload pick rest
      end
  end.

Definition attempts_of (c : client) : list Z :=
  default [] (range 0 (max_retries c) 1).

(** [embed(text)] for a list of texts ([is_single] false). *)
Definition embed (c : client) (srv : remote) (texts : list str)
    : M (list vector) :=
  embed_attempts c srv (map validate_and_clean_text texts) mret (attempts_of c).

(** [embed(text)] for one text ([is_single] true): the first embedding
    of the answer; [embeddings[0]] raises [IndexError] inside the [try]
    block when there is none. *)
Definition embed_single (c : client) (srv : remote) (text : str) : M vector :=
  embed_attempts c srv [validate_and_clean_text text]
    (fun embeddings =>
       match embeddings with
       | e :: _ => mret e
       | [] => raise (OtherError (lit "list index out of range"))
       end)
    (attempts_of c).

(** [[0.0] * 3072] *)
Definition zero_vector : vector := replicate 3072 0%float.

(** Local variables of the loop of [embed_batch]. *)
Record batch_state := {
  all_embeddings : list vector;
  request_count : Z;
  start_minute : Q;
  failed_count : Z
}.

(** The rate guard at the head of each iteration. *)
Definition rate_guard (st : batch_state) : M batch_state :=
  if 50 <=? request_count st then
    t ← time_time;
    let elapsed := (t - start_minute st)%Q in
    if Qlt_bool elapsed 60 then
      let wait := (60 - elapsed + 5)%Q in
      time_sleep wait;;
      t' ← time_time;
      mret {| all_embeddings := all_embeddings st; request_count := 0;
              start_minute := t'; failed_count := failed_count st |}
    else mret st
  else mret st.

(** The second branch of the handler: every text of the batch on its
    own, a zero vector for each one that fails. *)
Fixpoint embed_each (c : client) (srv : remote) (batch : list str)
    (st : batch_state) : M batch_state :=
  match batch with
  | [] => mret st
  | text :: rest =>
      st' ← try_except
              (emb ← embed_single c srv text;
               time_sleep 1;;
               mret {| all_embeddings := all_embeddings st ++ [emb];
                       request_count := request_count st;
                       start_minute := start_minute st;
                       failed_count := failed_count st |})
              (fun _ =>
                 mret {| all_embeddings := all_embeddings st ++ [zero_vector];
                         request_count := request_count st;
                         start_minute := start_minute st;
                         failed_count := failed_count st + 1 |});
      embed_each c srv rest st'
  end.

(** The [except Exception as e] clause of [embed_batch]. *)
Definition batch_except (c : client) (srv : remote) (batch : list str)
    (st : batch_state) (e : exn) : M batch_state :=
  let error_msg := lower (exn_str e) in
  if contains (lit "rate limit") error_msg || contains (lit "429") error_msg
  then
    time_sleep 30;;
    try_except
      (embeddings ← embed c srv batch;
       mret {| all_embeddings := all_embeddings st ++ embeddings;
               request_count := request_count st;
               start_minute := start_minute st;
               failed_count := failed_count st |})
      (fun _ =>
         mret {| all_embeddings :=
                   all_embeddings st ++ map (fun _ => zero_vector) batch;
                 request_count := request_count st;
                 start_minute := start_minute st;
                 failed_count := failed_count st + 1 |})
  else if contains (lit "400") error_msg
          || contains (lit "model_error") error_msg
  then embed_each c srv batch st
  else raise e.

(** One iteration of [for i, batch in enumerate(iterator)]. *)
Definition batch_iteration (c : client) (srv : remote) (batch : list str)
    (st : batch_state) : M batch_state :=
  st ← rate_guard st;
  try_except
    (embeddings ← embed c srv batch;
     time_sleep 2;;
     mret {| all_embeddings := all_embeddings st ++ embeddings;
             request_count := request_count st + 1;
             start_minute := start_minute st;
             failed_count := failed_count st |})
    (batch_except c srv batch st).

Fixpoint batch_loop (c : client) (srv : remote) (batches : list (list str))
    (st : batch_state) : M batch_state :=
  match batches with
  | [] => mret st
  | batch :: rest =>
      st' ← batch_iteration c srv batch st;
      batch_loop c srv rest st'
  end.

(** [embed_batch(texts, batch_size)]; [batch_size] is [None] when the
    caller leaves it out. *)
Definition embed_batch (c : client) (srv : remote) (texts : list str)
    (batch_size : option Z) : M (list vector) :=
  let batch_size := default (default_batch_size c) batch_size in
  match Helpers.batch_iterator texts batch_size with
  | None => raise (OtherError (lit "range() arg 3 must not be zero"))
  | Some batches =>
      t ← time_time;
      st ← batch_loop c srv batches
             {| all_embeddings := []; request_count := 0;
                start_minute := t; failed_count := 0 |};
      mret (all_embeddings st)
  end.

(** *** Notions used to state the properties *)

(** [returns m P]: whenever [m] returns a value, without raising, the
    value satisfies [P]. *)
Definition returns {A} (m : M A) (P : A -> Prop) : Prop :=
  forall w w' a, m w = (w', inr a) -> P a.

(** The contract of the endpoint: an answer that the client accepts (no
    429, no error status, a well-formed body) holds one embedding per
    text of the request, in the order of the request.  [R text v] reads
    "[v] is an embedding of [text]". *)
Definition well_behaved (R : str -> vector -> Prop) (srv : remote) : Prop :=
  forall k payload latency r embeddings,
    srv k payload = PostReturned latency r ->
    status_code r <> 429 ->
    ~ (400 <= status_code r < 600) ->
    json r = Data embeddings ->
    Forall2 R payload embeddings.

(** What [embed_batch] gives for a text: an embedding of the cleaned
    text or the placeholder. *)
Definition embedding_or_placeholder (R : str -> vector -> Prop)
    (text : str) (v : vector) : Prop :=
  R (validate_and_clean_text text) v \/ v = zero_vector.

End Embedding.

(** ** src/ingest_qdrant_v2.py *)

Module Ingest.

Import Cleaner Embedding.

(** [name.rfind('.')] *)
Fixpoint rfind_dot (name : str) : option nat :=
  match name with
  | [] => None
  | c :: rest =>
      match rfind_dot rest with
      | Some i => Some (S i)
      | None => if Ascii.eqb c "."%char then Some O else None
      end
  end.

(** [file_path.suffix] and [file_path.stem], from [file_path.name], as
    [pathlib] computes them. *)
Definition path_suffix (name : str) : str :=
  match rfind_dot name with
  | Some i => if (0 <? Z.of_nat i) && (Z.of_nat i <? len name - 1)
              then drop i name else []
  | None => []
  end.

Definition path_stem (name : str) : str :=
  match rfind_dot name with
  | Some i => if (0 <? Z.of_nat i) && (Z.of_nat i <? len name - 1)
              then take i name else name
  | None => name
  end.

(** [s.lstrip('.')] *)
Fixpoint lstrip_dots (s : str) : str :=
  match s with
  | c :: s' => if Ascii.eqb c "."%char then lstrip_dots s' else s
  | [] => []
  end.

(** The settings that the ingestion reads. *)
Record settings := {
  chunk_size : Z;
  overlap : Z;
  min_chunk_size : Z;
  respect_sentence : bool;
  language : str;
  skip_errors : bool;
  embedding_batch_size : Z
}.

(** The [metadata] entry of a document block.  The document metadata
    is unpacked last, so its [source] is the one that stays. *)
Record chunk_metadata (E : Type) := {
  category : str;
  chunk_index : Z;
  total_chunks : Z;
  file_type : str;
  document_metadata : metadata E
}.
Arguments category {E}. Arguments chunk_index {E}. Arguments total_chunks {E}.
Arguments file_type {E}. Arguments document_metadata {E}.

(** A document block; the [vector] key is added by [embed_documents]. *)
Record document (E : Type) := {
  doc_id : str;
  doc_text : str;
  doc_metadata : chunk_metadata E;
  doc_vector : option vector
}.
Arguments doc_id {E}. Arguments doc_text {E}. Arguments doc_metadata {E}.
Arguments doc_vector {E}.

(** [PointStruct(id, vector, payload)] *)
Record point (E : Type) := {
  point_id : str;
  point_vector : vector;
  payload_text : str;
  payload_metadata : chunk_metadata E
}.
Arguments point_id {E}. Arguments point_vector {E}. Arguments payload_text {E}.
Arguments payload_metadata {E}.

Definition with_vector {E} (v : vector) (doc : document E) : document E :=
  {| doc_id := doc_id doc; doc_text := doc_text doc;
     doc_metadata := doc_metadata doc; doc_vector := Some v |}.

Section Ingester.

Context {E : Type}.

(** Collaborators: the cleaner's file loading and text cleaning, the
    spaCy enrichment, the sentence analyzers, the category detection of
    the settings, and the library functions of the cache and of
    [uuid]. *)
Variable clean_text : str -> str -> str.
Variable spacy : str -> option E.
Variable an : analyzers.
Variable auto_categorize : str -> str.
Variable md5_hexdigest : str -> str.
Variable pickle_dump : vector -> list Byte.byte.
Variable pickle_load : list Byte.byte -> option vector.
(** [str(uuid.uuid5(uuid.NAMESPACE_DNS, name))] *)
Variable uuid5_dns : str -> str.

Variable cfg : settings.

(** [process_document(file_path, category)].  [name] is
    [file_path.name], [full_path] is [str(file_path)], [loaded] is what
    [load_file_with_encoding] does: it raises or returns the content.
    The outer [None] says that the chunking ran out of [fuel]. *)
Definition process_document (fuel : nat) (name full_path : str)
    (loaded : exn + str) (category : option str)
    : option (exn + list (document E)) :=
  match loaded with
  | inl e => Some (if skip_errors cfg then inr [] else inl e)
  | inr content =>
      if is_empty content || (len content <? 10) then Some (inr [])
      else
        let extension := lstrip_dots (lower (path_suffix name)) in
        let cleaned := clean_text content extension in
        let metadata := extract_metadata_enhanced spacy cleaned full_path in
        let category :=
          match category with
          | Some (c :: cs) => c :: cs
          | _ => auto_categorize cleaned
          end in
        match smart_chunk_text_enhanced fuel an cleaned (chunk_size cfg)
                (overlap cfg) (min_chunk_size cfg) (respect_sentence cfg)
                (language cfg) with
        | None => None
        | Some chunks =>
            Some (inr (imap (fun i chunk =>
              {| doc_id := path_stem name ++ lit "_" ++ str_of_nat i;
                 doc_text := chunk;
                 doc_metadata :=
                   {| category := category;
                      chunk_index := Z.of_nat i;
                      total_chunks := len chunks;
                      file_type := extension;
                      document_metadata := metadata |};
                 doc_vector := None |}) chunks))
        end
  end.

(** The cache of the ingester: [None] when caching is disabled,
    otherwise its directory and what the file system does for the reads
    and writes of each text. *)
Record cache_handle := {
  cache_dir : str;
  reads : str -> DiskCache.read_outcome;
  writes : str -> DiskCache.write_outcome
}.

Definition cache_get (cache : option cache_handle) (fs : DiskCache.files)
    (text : str) : option vector :=
  match cache with
  | Some h =>
      DiskCache.get md5_hexdigest pickle_load (cache_dir h) (reads h text) fs text
  | None => None
  end.

Definition cache_set (cache : option cache_handle) (fs : DiskCache.files)
    (text : str) (emb : vector) : DiskCache.files :=
  match cache with
  | Some h =>
      DiskCache.set md5_hexdigest pickle_dump (cache_dir h) (writes h text) fs
        text emb
  | None => fs
  end.

(** First loop of [embed_documents], from index [i] on: cached vectors
    are attached, the other texts are collected with their index. *)
Fixpoint collect_texts (cache : option cache_handle) (fs : DiskCache.files)
    (i : nat) (documents : list (document E))
    : list (document E) * list (nat * str) :=
  match documents with
  | [] => ([], [])
  | doc :: rest =>
      let '(rest', texts_to_embed) := collect_texts cache fs (S i) rest in
      match cache_get cache fs (doc_text doc) with
      | Some cached_emb => (with_vector cached_emb doc :: rest', texts_to_embed)
      | None => (doc :: rest', (i, doc_text doc) :: texts_to_embed)
      end
  end.

(** Second loop: [for idx, emb in zip(indices, embeddings)]. *)
Fixpoint assign_embeddings (cache : option cache_handle)
    (pairs : list (nat * vector)) (documents : list (document E))
    (fs : DiskCache.files) : list (document E) * DiskCache.files :=
  match pairs with
  | [] => (documents, fs)
  | (idx, emb) :: rest =>
      let documents' := alter (with_vector emb) idx documents in
      let fs' :=
        match documents' !! idx with
        | Some doc => cache_set cache fs (doc_text doc) emb
        | None => fs
        end in
      assign_embeddings cache rest documents' fs'
  end.

(** [embed_documents(documents)] *)
Definition embed_documents (c : client) (srv : remote)
    (cache : option cache_handle) (documents : list (document E))
    (fs : DiskCache.files) : M (list (document E) * DiskCache.files) :=
  let '(documents, texts_to_embed) := collect_texts cache fs 0 documents in
  if is_empty texts_to_embed then mret (documents, fs)
  else
    let indices := texts_to_embed.*1 in
    let texts := texts_to_embed.*2 in
    embeddings ← embed_batch c srv texts (Some (embedding_batch_size cfg));
    mret (assign_embeddings cache (zip indices embeddings) documents fs).

(** The points that [upsert_to_qdrant] builds; a document without a
    vector raises [KeyError]. *)
Fixpoint build_points (documents : list (document E)) : exn + list (point E) :=
  match documents with
  | [] => inr []
  | doc :: rest =>
      match doc_vector doc with
      | None => inl (OtherError (lit "'vector'"))
      | Some v =>
          match build_points rest with
          | inl e => inl e
          | inr points =>
              inr ({| point_id := uuid5_dns (doc_id doc);
                      point_vector := v;
                      payload_text := doc_text doc;
                      payload_metadata := doc_metadata doc |} :: points)
          end
      end
  end.

(** The collection of the vector store: point identifier to point. *)
Abbreviation collection := (gmap str (point E)).

(** The vector store is a service of its own.  A request
    [qdrant.upsert(collection_name, points)] is taken, or it is refused
    and the client raises: a vector of the wrong dimension, a store
    that cannot be reached or that answers too late.  [qdrant_refuses]
    says which, from the moment, the collection and the points of the
    request; a refusal comes with the exception and with the collection
    that the request leaves.  A collection keeps of a vector what its
    distance prescribes: [stored_vector] is the normalisation of
    [Distance.COSINE], which [_ensure_collection] configures. *)
Variable qdrant_refuses :
  world -> collection -> list (point E) -> option (exn * collection).
Variable stored_vector : vector -> vector.

(** What the collection keeps of a point: its identifier, its payload
    and the stored form of its vector. *)
Definition stored (p : point E) : point E :=
  {| point_id := point_id p;
     point_vector := stored_vector (point_vector p);
     payload_text := payload_text p;
     payload_metadata := payload_metadata p |}.

(** The collection after a request that is taken: every point of the
    request is written under its identifier, a later point over an
    earlier one. *)
Definition written (store : collection) (points : list (point E))
    : collection :=
  foldl (fun m p => <[point_id p := stored p]> m) store points.

(** [self.qdrant.upsert(collection_name, points=batch)]: the collection
    that the request leaves and the exception raised, if any. *)
Definition qdrant_upsert (store : collection) (points : list (point E))
    : M (collection * option exn) := fun w =>
  match qdrant_refuses w store points with
  | Some (e, left_as) => (w, inr (left_as, Some e))
  | None => (w, inr (written store points, None))
  end.

(** The upload loop [for i in range(0, len(all_points), batch_size)].
    The result is the collection reached and the exception that ends
    the loop, if any: the requests taken before a refusal stay
    written. *)
Fixpoint upload_loop (all_points : list (point E)) (batch_size : Z)
    (starts : list Z) (store : collection) : M (collection * option exn) :=
  match starts with
  | [] => mret (store, None)
  | i :: rest =>
      let batch := slice all_points i (i + batch_size) in
      '(store', failed) ← qdrant_upsert store batch;
      match failed with
      | Some e => mret (store', Some e)
      | None =>
          (if i + batch_size <? len all_points then time_sleep 1 else mret tt);;
          upload_loop all_points batch_size rest store'
      end
  end.

(** [upsert_to_qdrant(documents)]: the collection reached and the
    exception that the method raises, if any.  The [KeyError] of a
    block without vector comes while the points are built, before the
    first request. *)
Definition upsert_to_qdrant (documents : list (document E))
    (store : collection) : M (collection * option exn) :=
  match build_points documents with
  | inl e => mret (store, Some e)
  | inr all_points =>
      let batch_size := 500 in
      upload_loop all_points batch_size
        (default [] (range 0 (len all_points) batch_size)) store
  end.

(** Embedding and upload of the document blocks of one file, the two
    steps that [ingest_directory] runs after [process_document]; the
    cache files and the collection when both return. *)
Definition embed_and_upsert (c : client) (srv : remote)
    (cache : option cache_handle) (documents : list (document E))
    (fs : DiskCache.files) (store : collection)
    : M (DiskCache.files * collection) :=
  '(documents, fs') ← embed_documents c srv cache documents fs;
  '(store', failed) ← upsert_to_qdrant documents store;
  match failed with
  | Some e => raise e
  | None => mret (fs', store')
  end.

(** A file that the directory search found: [file_path.name],
    [str(file_path)], and what [load_file_with_encoding] does with
    it. *)
Record source_file := {
  file_name : str;
  file_path : str;
  file_loaded : exn + str
}.

(** The loop [for file_path in batch] of [ingest_directory], which
    gathers the blocks of the files of one batch.  The outer [None]
    says that a chunking ran out of [fuel]. *)
Fixpoint process_files (fuel : nat) (batch : list source_file)
    (category : option str) : option (exn + list (document E)) :=
  match batch with
  | [] => Some (inr [])
  | file :: rest =>
      match process_document fuel (file_name file) (file_path file)
              (file_loaded file) category with
      | None => None
      | Some (inl e) => Some (inl e)
      | Some (inr docs) =>
          match process_files fuel rest category with
          | None => None
          | Some (inl e) => Some (inl e)
          | Some (inr all_documents) => Some (inr (docs ++ all_documents))
          end
      end
  end.

(** [try: m except Exception: if not skip_errors: raise; continue]
    around the embedding; [None] stands for the [continue]. *)
Definition or_continue {A} (m : M A) : M (option A) :=
  try_except (a ← m; mret (Some a))
    (fun e => if skip_errors cfg then mret None else raise e).

(** The loop over the file batches of [ingest_directory].  The state
    is the cache directory and the collection; the result is [None]
    when a chunking ran out of [fuel].  A batch whose embedding fails
    is skipped; an upload that fails leaves the collection that it
    reached. *)
Fixpoint ingest_batches (fuel : nat) (c : client) (srv : remote)
    (cache : option cache_handle) (file_batches : list (list source_file))
    (category : option str) (fs : DiskCache.files) (store : collection)
    : M (option (DiskCache.files * collection)) :=
  match file_batches with
  | [] => mret (Some (fs, store))
  | batch :: rest =>
      match process_files fuel batch category with
      | None => mret None
      | Some (inl e) => raise e
      | Some (inr all_documents) =>
          if is_empty all_documents
          then ingest_batches fuel c srv cache rest category fs store
          else
            embedded ← or_continue (embed_documents c srv cache all_documents fs);
            match embedded with
            | None => ingest_batches fuel c srv cache rest category fs store
            | Some (all_documents, fs') =>
                '(store', failed) ← upsert_to_qdrant all_documents store;
                match failed with
                | Some e =>
                    if skip_errors cfg
                    then ingest_batches fuel c srv cache rest category fs' store'
                    else raise e
                | None =>
                    ingest_batches fuel c srv cache rest category fs' store'
                end
            end
      end
  end.

(** [ingest_directory(directory, category, recursive)].  [found] is the
    list that the [rglob] or [glob] calls of [file_batch_iterator]
    collect, [batch_size] is [settings.processing.batch_size]; a zero
    batch size makes [range] raise while the batches are listed. *)
Definition ingest_directory (fuel : nat) (c : client) (srv : remote)
    (cache : option cache_handle) (found : list source_file)
    (batch_size : Z) (category : option str) (fs : DiskCache.files)
    (store : collection) : M (option (DiskCache.files * collection)) :=
  match Helpers.batch_iterator found batch_size with
  | None => raise (OtherError (lit "range() arg 3 must not be zero"))
  | Some file_batches =>
      let total_files := foldr Z.add 0 (map len file_batches) in
      if total_files =? 0 then mret (Some (fs, store))
      else ingest_batches fuel c srv cache file_batches category fs store
  end.

End Ingester.

End Ingest.

(** ** Further notions used to state properties of the client *)

Module Notions.

Import Embedding.

(** [raises m P]: whenever [m] raises, the exception satisfies [P]. *)
Definition raises {A} (m : M A) (P : exn -> Prop) : Prop :=
  forall w w' e, m w = (w', inl e) -> P e.

(** [requests m n]: [m] sends at most [n] requests, whatever its
    outcome. *)
Definition requests {A} (m : M A) (n : nat) : Prop :=
  forall w w' r, m w = (w', r) -> (calls w <= calls w' <= calls w + n)%nat.

(** The test of the handler of [embed_batch] on the text of an
    exception: one of the four marks that lead to a retry or to the
    text-by-text fallback. *)
Definition marked (e : exn) : bool :=
  let error_msg := lower (exn_str e) in
  contains (lit "rate limit") error_msg || contains (lit "429") error_msg
  || contains (lit "400") error_msg || contains (lit "model_error") error_msg.

End Notions.

(** ** src/utils/helpers.py: retry_on_failure *)

Module Retry.

(** What the wrapper can raise: an exception [e] of the wrapped
    function, the [TypeError] of [raise None], or the [ValueError] of
    [time.sleep] on a delay it refuses. *)
Inductive failure (X : Type) :=
| Raised (e : X)
| RaiseNone
| SleepRefused.
Arguments Raised {X}. Arguments RaiseNone {X}. Arguments SleepRefused {X}.

(** Calls made to the wrapped function and sleeps, in order.  [D] is the
    type of the delays. *)
Record trace (D : Type) := {
  calls : nat;
  sleeps : list D
}.
Arguments calls {D}. Arguments sleeps {D}.

Section Decorator.

Context {A X D : Type}.

(** The product of two delays, and the delays that [time.sleep]
    refuses (negative ones). *)
Variable mul : D -> D -> D.
Variable refused : D -> bool.

(** The decorator's arguments; [retried e] is
    [isinstance(e, exceptions)]. *)
Variable max_retries : Z.
Variable delay : D.
Variable backoff : D.
Variable retried : X -> bool.

(** The wrapped function: the outcome of its [k]-th call. *)
Variable func : nat -> X + A.

(** [for attempt in range(max_retries): ...] followed by
    [raise last_exception]. *)
Fixpoint wrapper_loop (attempts : list Z) (current_delay : D)
    (last_exception : option X) (t : trace D) : trace D * (failure X + A) :=
  match attempts with
  | [] =>
      (t, inl (match last_exception with
               | Some e => Raised e
               | None => RaiseNone
               end))
  | attempt :: rest =>
      let called := {| calls := S (calls t); sleeps := sleeps t |} in
      match func (calls t) with
      | inr result => (called, inr result)
      | inl e =>
          if retried e then
            if attempt <? max_retries - 1 then
              if refused current_delay then (called, inl SleepRefused)
              else
                wrapper_loop rest (mul current_delay backoff) (Some e)
                  {| calls := S (calls t);
                     sleeps := sleeps t ++ [current_delay] |}
            else (called, inl (Raised e))
          else (called, inl (Raised e))
      end
  end.

(** The wrapper that the decorator returns, for one call. *)
Definition wrapper (t : trace D) : trace D * (failure X + A) :=
  wrapper_loop (default [] (range 0 max_retries 1)) delay None t.

(** The first [n] delays: [delay], [delay * backoff], ... *)
Fixpoint delays (current_delay : D) (n : nat) : list D :=
  match n with
  | O => []
  | S n' => current_delay :: delays (mul current_delay backoff) n'
  end.

End Decorator.

End Retry.

(** ** src/utils/helpers.py: DiskCache.clear and DiskCache.count *)

Module CacheFiles.

(** [s.endswith(suffix)] *)
Definition endswith (suffix s : str) : bool :=
  startswith (reverse suffix) (reverse s).

(** The files that [self.cache_dir.glob("*.pkl")] lists: those directly
    in the directory whose name ends in [.pkl]. *)
Definition listed (cache_dir path : str) : bool :=
  startswith (cache_dir ++ lit "/") path
  && (let name := drop (length cache_dir + 1) path in
      negb (contains (lit "/") name) && endswith (lit ".pkl") name).

(** [clear()]: every listed file is unlinked. *)
Definition clear (cache_dir : str) (fs : DiskCache.files) : DiskCache.files :=
  filter (fun entry => listed cache_dir entry.1 = false) fs.

(** [count()] *)
Definition count (cache_dir : str) (fs : DiskCache.files) : nat :=
  size (filter (fun entry => listed cache_dir entry.1 = true) fs).

End CacheFiles.

(** ** src/utils/helpers.py: safe_filename *)

Module FileNames.

(** The characters of the class that the source replaces: the angle
    brackets, colon, double quote, slash, backslash, bar, question mark
    and star. *)
Definition unsafe (c : ascii) : bool :=
  existsb (Ascii.eqb c)
    ["<"%char; ">"%char; ":"%char; "034"%char; "/"%char; "\"%char;
     "|"%char; "?"%char; "*"%char].

(** [re.sub] of that class by an underscore. *)
Definition sanitize (filename : str) : str :=
  map (fun c => if unsafe c then "_"%char else c) filename.

(** [Path(filename).name] for a file name without separator: the name
    itself, but for the single dot. *)
Definition path_name (filename : str) : str :=
  if decide (filename = lit ".") then [] else filename.

(** [safe_filename(filename, max_length)] *)
Definition safe_filename (filename : str) (max_length : Z) : str :=
  let filename := sanitize filename in
  if max_length <? len filename then
    let name := Ingest.path_stem (path_name filename) in
    let ext := Ingest.path_suffix (path_name filename) in
    let max_name_length := max_length - len ext in
    slice_to name max_name_length ++ ext
  else filename.

End FileNames.

(** ** config/settings.py: categories *)

Module Settings.

(** The fields of [Category] that the scoring reads. *)
Record Category := {
  name : str;
  keywords : list str
}.

(** A Python integer as the float nearest to it; exact below [2^53],
    which the length of a list never reaches. *)
Definition float_of_int (n : Z) : float :=
  PrimFloat.of_uint63 (Uint63.of_Z n).

(** [match_score(text)].  The score is a Python float: [0.0] without
    keywords, otherwise the true division [matches / len(keywords)] of
    two integers, which is their binary64 quotient. *)
Definition match_score (cat : Category) (text : str) : float :=
  if Cleaner.is_empty (keywords cat) then 0%float
  else
    let text_lower := lower text in
    let matches :=
      len (filter (fun kw => contains (lower kw) text_lower = true)
             (keywords cat)) in
    PrimFloat.div (float_of_int matches) (float_of_int (len (keywords cat))).

(** [get_category_by_name(name)] *)
Fixpoint get_category_by_name (categories : list Category) (n : str)
    : option Category :=
  match categories with
  | [] => None
  | cat :: rest =>
      if decide (name cat = n) then Some cat
      else get_category_by_name rest n
  end.

(** One iteration of the loop of [auto_categorize] on the pair
    [(best_category, best_score)]; [score > best_score] is the
    comparison of two floats. *)
Definition best_step (text : str) (best : option Category * float)
    (category : Category) : option Category * float :=
  let score := match_score category text in
  if PrimFloat.ltb best.2 score then (Some category, score) else best.

(** [auto_categorize(text, threshold)], [threshold] a float; [None] is
    the [IndexError] of [self.categories[0]] on an empty list. *)
Definition auto_categorize (categories : list Category) (text : str)
    (threshold : float) : option Category :=
  let best := fold_left (best_step text) categories (None, 0%float) in
  if PrimFloat.ltb best.2 threshold then
    match get_category_by_name categories (lit "general") with
    | Some general => Some general
    | None => head categories
    end
  else
    match best.1 with
    | Some category => Some category
    | None => head categories
    end.

End Settings.

(** ** config/document_cleaner_enhanced.py: text cleaning *)

Module Normalizer.

Definition LF : ascii := "010"%char.
Definition CR : ascii := "013"%char.
Definition TAB : ascii := "009"%char.

Fixpoint drop_while (p : ascii -> bool) (s : str) : str :=
  match s with
  | c :: s' => if p c then drop_while p s' else s
  | [] => []
  end.

(** [p+] at the head of [s]: what follows the longest run, [None] when
    the run is empty. *)
Definition skip_some (p : ascii -> bool) (s : str) : option str :=
  match s with
  | c :: s' => if p c then Some (drop_while p s') else None
  | [] => None
  end.

(** A literal word at the head of [s], letter case ignored; what
    follows it. *)
Fixpoint skip_word (word s : str) : option str :=
  match word, s with
  | [], _ => Some s
  | a :: word', b :: s' =>
      if Ascii.eqb (lower_char a) (lower_char b) then skip_word word' s'
      else None
  | _ :: _, [] => None
  end.

(** [\d] on code points below 256. *)
Definition is_decimal (c : ascii) : bool := (48 <=? code c) && (code c <=? 57).

(** [[-\s]] *)
Definition is_dash_or_space (c : ascii) : bool :=
  Ascii.eqb c "-"%char || isspace c.

(** [re.match(r'^[-\s]*\d+[-\s]*$', line)] on a line (no line feed). *)
Definition is_page_number (line : str) : bool :=
  match skip_some is_decimal (drop_while is_dash_or_space line) with
  | Some rest => Cleaner.is_empty (drop_while is_dash_or_space rest)
  | None => false
  end.

(** [re.match(r'^Page\s+\d+\s+of\s+\d+$', line, re.IGNORECASE)] *)
Definition is_page_of (line : str) : bool :=
  match
    r1 ← skip_word (lit "page") line;
    r2 ← skip_some isspace r1;
    r3 ← skip_some is_decimal r2;
    r4 ← skip_some isspace r3;
    r5 ← skip_word (lit "of") r4;
    r6 ← skip_some isspace r5;
    skip_some is_decimal r6
  with
  | Some rest => Cleaner.is_empty rest
  | None => false
  end.

(** [re.match(r'^Copyright.*$', line, re.IGNORECASE)] on a line. *)
Definition is_copyright (line : str) : bool :=
  match skip_word (lit "copyright") line with
  | Some _ => true
  | None => false
  end.

(** The line starts with the copyright sign. *)
Definition is_copyright_sign (line : str) : bool :=
  match line with
  | c :: _ => code c =? 169
  | [] => false
  end.

(** The tests of the loop of [_clean_pdf] on a stripped line: [true]
    when the line is appended. *)
Definition keep_pdf_line (min_line_length : Z) (line : str) : bool :=
  negb (Cleaner.is_empty line)
  && negb (is_page_number line)
  && negb (is_page_of line)
  && negb (is_copyright line)
  && negb (is_copyright_sign line)
  && negb (contains (lit "All rights reserved") line)
  && negb (len line <? min_line_length).

(** [_clean_pdf(text)] *)
Definition _clean_pdf (min_line_length : Z) (text : str) : str :=
  join [LF]
    (List.filter (keep_pdf_line min_line_length)
       (map strip (split_on LF text))).

(** [text.replace('\r\n', '\n')] *)
Fixpoint replace_crlf (s : str) : str :=
  match s with
  | [] => []
  | c :: s' =>
      match s' with
      | d :: rest =>
          if Ascii.eqb c CR && Ascii.eqb d LF then LF :: replace_crlf rest
          else c :: replace_crlf s'
      | [] => [c]
      end
  end.

(** [text.replace('\r', '\n')] *)
Definition replace_cr (s : str) : str :=
  map (fun c => if Ascii.eqb c CR then LF else c) s.

Definition is_blank (c : ascii) : bool :=
  Ascii.eqb c " "%char || Ascii.eqb c TAB.

(** [re.sub(r'[ \t]+', ' ', text)]; [in_run] says that the character
    before was a blank of the run being replaced. *)
Fixpoint collapse_blanks (in_run : bool) (s : str) : str :=
  match s with
  | [] => []
  | c :: s' =>
      if is_blank c
      then if in_run then collapse_blanks true s'
           else " "%char :: collapse_blanks true s'
      else c :: collapse_blanks false s'
  end.

(** [re.sub(r'\n{3,}', '\n\n', text)]; [seen] counts the line feeds of
    the current run that were kept. *)
Fixpoint collapse_newlines (seen : nat) (s : str) : str :=
  match s with
  | [] => []
  | c :: s' =>
      if Ascii.eqb c LF
      then if (seen <? 2)%nat then LF :: collapse_newlines (S seen) s'
           else collapse_newlines seen s'
      else c :: collapse_newlines 0 s'
  end.

(** [_general_clean(text)].  Each element of [remove_patterns] is the
    function [re.sub(pattern, '', text, flags)] of one configured
    pattern. *)
Definition _general_clean (remove_patterns : list (str -> str)) (text : str)
    : str :=
  let text := replace_cr (replace_crlf text) in
  let text := collapse_blanks false text in
  let text := collapse_newlines 0 text in
  let text := fold_left (fun t remove => remove t) remove_patterns text in
  join [LF] (map strip (split_on LF text)).

(** [_clean_html(html_content)].  [visible_text] is what BeautifulSoup
    gives after the removal of the script, style, meta, link and
    noscript nodes; [None] when it raises. *)
Definition _clean_html (visible_text : str -> option str) (html_content : str)
    : str :=
  match visible_text html_content with
  | Some text =>
      join [LF]
        (List.filter (fun line => negb (Cleaner.is_empty line))
           (map strip (split_on LF text)))
  | None => html_content
  end.

(** [clean_text(text, source_type)] *)
Definition clean_text (remove_patterns : list (str -> str))
    (min_line_length : Z) (visible_text : str -> option str)
    (text : str) (source_type : str) : str :=
  if Cleaner.is_empty text || Cleaner.is_empty (strip text) then []
  else
    let text :=
      if bool_decide (source_type = lit "html")
         || bool_decide (source_type = lit "htm")
      then _clean_html visible_text text
      else if bool_decide (source_type = lit "pdf")
      then _clean_pdf min_line_length text
      else text in
    strip (_general_clean remove_patterns text).

End Normalizer.

(** ** Inputs used in the examples *)

Module Examples.

Import Cleaner.

(** The sentence scenario of the specification and the pieces that the
    regular expression of [_chunk_by_sentences_regex] cuts it into. *)
Definition smith : str :=
  lit "Dr. Smith works at OpenAI. He said hello. The end.".

Definition smith_pieces : list str :=
  [lit "Dr"; lit ". "; lit "Smith works at OpenAI"; lit ". ";
   lit "He said hello"; lit ". "; lit "The end."].

(** No spaCy, no NLTK: the regular expression splits the sentences. *)
Definition regex_only : analyzers :=
  {| HAS_SPACY := false; nlp_zh := None; nlp_en := None;
     HAS_NLTK := false; sent_tokenize := fun _ => None;
     count_cjk := fun _ => 0;
     split_terminators := fun _ => smith_pieces |}.

(** An assembly state with one sentence in the current chunk. *)
Definition one_sentence : build_state :=
  {| chunks := []; current_chunk := [lit "He said hello."];
     current_size := 14 |}.

(** Responses of the endpoint. *)
Definition endpoint : str :=
  lit "https://rag.openai.azure.com/openai/deployments/embed/embeddings".

Definition ok_response (embeddings : list Embedding.vector) : Embedding.response :=
  {| Embedding.status_code := 200;
     Embedding.retry_after := Embedding.Absent;
     Embedding.error_text := [];
     Embedding.json := Embedding.Data embeddings |}.

Definition rate_limited (h : Embedding.retry_after_header) : Embedding.response :=
  {| Embedding.status_code := 429;
     Embedding.retry_after := h;
     Embedding.error_text :=
       lit "429 Client Error: Too Many Requests for url: " ++ endpoint;
     Embedding.json := Embedding.BadBody (lit "Expecting value") |}.

Definition bad_request : Embedding.response :=
  {| Embedding.status_code := 400;
     Embedding.retry_after := Embedding.Absent;
     Embedding.error_text :=
       lit "400 Client Error: Bad Request for url: " ++ endpoint;
     Embedding.json := Embedding.BadBody (lit "Expecting value") |}.

(** A model of dimension [dim]: every text is embedded as the vector of
    [dim] ones. *)
Definition ones (dim : nat) : Embedding.vector := replicate dim 1%float.

(** The first request is rate limited with [Retry-After: 2], the later
    ones are answered. *)
Definition limited_once (dim : nat) : Embedding.remote := fun k payload =>
  match k with
  | O => Embedding.PostReturned (1 # 4) (rate_limited (Embedding.Seconds 2))
  | S _ => Embedding.PostReturned (1 # 4)
             (ok_response (map (fun _ => ones dim) payload))
  end.

(** A request that holds the text [bad] is rejected with status 400,
    any other is answered. *)
Definition rejects_bad (dim : nat) : Embedding.remote := fun _ payload =>
  if existsb (fun text => bool_decide (text = lit "bad")) payload
  then Embedding.PostReturned (1 # 4) bad_request
  else Embedding.PostReturned (1 # 4)
         (ok_response (map (fun _ => ones dim) payload)).

(** An endpoint that breaks its contract: two embeddings, whatever the
    request. *)
Definition answers_twice : Embedding.remote := fun _ payload =>
  Embedding.PostReturned (1 # 4) (ok_response [ones 3; ones 3]).

Definition startup : Embedding.world :=
  {| Embedding.calls := 0; Embedding.now := 0; Embedding.sleeps := [] |}.

(** A client with one attempt, and the client as the ingester builds
    it. *)
Definition single_try : Embedding.client :=
  {| Embedding.max_retries := 1; Embedding.default_batch_size := 20 |}.

Definition default_client : Embedding.client :=
  {| Embedding.max_retries := 3; Embedding.default_batch_size := 20 |}.

(** A small ingestion set-up: the text is kept as it is, the category
    detection answers [general], the cache codec stores nothing that
    can be read back, and [uuid5] is left symbolic by a prefix. *)
Definition keep_text (content extension : str) : str := content.

Definition general (cleaned : str) : str := lit "general".

Definition no_enrichment (text : str) : option unit := None.

Definition md5_stub (text : str) : str := text.

Definition dump_stub (v : Embedding.vector) : list Byte.byte := [].

Definition load_stub (content : list Byte.byte) : option Embedding.vector := None.

Definition uuid5_stub (name : str) : str := lit "uuid5:" ++ name.

Definition small_chunks : Ingest.settings :=
  {| Ingest.chunk_size := 20; Ingest.overlap := 5; Ingest.min_chunk_size := 5;
     Ingest.respect_sentence := true; Ingest.language := lit "auto";
     Ingest.skip_errors := true; Ingest.embedding_batch_size := 2 |}.

Definition cache_on : Ingest.cache_handle :=
  {| Ingest.cache_dir := lit "data/cache";
     Ingest.reads := fun _ => DiskCache.ReadOk;
     Ingest.writes := fun _ => DiskCache.WriteOk |}.

(** A store for vectors of dimension [dim]: it refuses a request that
    holds a vector of another dimension and writes nothing of it.  It
    keeps a vector at unit length, a zero vector as it is. *)
Definition checks_dimension (dim : nat) (w : Embedding.world)
    (store : gmap str (Ingest.point unit)) (points : list (Ingest.point unit))
    : option (Embedding.exn * gmap str (Ingest.point unit)) :=
  if forallb (fun p => Nat.eqb (length (Ingest.point_vector p)) dim) points
  then None
  else Some (Embedding.OtherError (lit "Wrong input: Vector dimension error"),
             store).

(** A store that takes every request. *)
Definition takes_all (w : Embedding.world)
    (store : gmap str (Ingest.point unit)) (points : list (Ingest.point unit))
    : option (Embedding.exn * gmap str (Ingest.point unit)) := None.

Definition unit_length (v : Embedding.vector) : Embedding.vector :=
  let norm :=
    PrimFloat.sqrt (foldr (fun x acc => PrimFloat.add (PrimFloat.mul x x) acc)
                      0%float v) in
  if PrimFloat.eqb norm 0%float then v
  else map (fun x => PrimFloat.div x norm) v.

(** Two ingestions of the file [smith.txt]: the first without cache
    and without category, the second with the cache, a category and a
    client of one attempt, into the collection that the first left. *)
Definition smith_documents (category : option str)
    : list (Ingest.document unit) :=
  match Ingest.process_document keep_text no_enrichment regex_only general
          small_chunks 0 (lit "smith.txt") (lit "docs/smith.txt") (inr smith)
          category with
  | Some (inr documents) => documents
  | _ => []
  end.

Definition first_run
    : Embedding.world
      * (Embedding.exn + DiskCache.files * gmap str (Ingest.point unit)) :=
  Ingest.embed_and_upsert md5_stub dump_stub load_stub uuid5_stub small_chunks
    (checks_dimension 3) unit_length
    default_client (rejects_bad 3) None (smith_documents None) ∅ ∅ startup.

Definition files_after {X} (r : Embedding.world * (Embedding.exn + DiskCache.files * X))
    : DiskCache.files :=
  match r.2 with inr p => p.1 | inl _ => ∅ end.

Definition collection_after
    (r : Embedding.world
         * (Embedding.exn + DiskCache.files * gmap str (Ingest.point unit)))
    : gmap str (Ingest.point unit) :=
  match r.2 with inr p => p.2 | inl _ => ∅ end.

Definition second_run
    : Embedding.world
      * (Embedding.exn + DiskCache.files * gmap str (Ingest.point unit)) :=
  Ingest.embed_and_upsert md5_stub dump_stub load_stub uuid5_stub small_chunks
    (checks_dimension 3) unit_length
    single_try (rejects_bad 3) (Some cache_on)
    (smith_documents (Some (lit "people"))) ∅ (collection_after first_run)
    startup.

(** An endpoint that cannot be reached: every request raises. *)
Definition unreachable : Embedding.remote := fun _ _ =>
  Embedding.PostRaised (1 # 4) (lit "Connection refused").

(** A function that fails twice with a retried exception and then
    returns. *)
Definition third_time_lucky (k : nat) : str + Z :=
  match k with
  | 0%nat | 1%nat => inl (lit "busy")
  | _ => inr 7
  end.

Definition always_busy (k : nat) : str + Z := inl (lit "busy").

Definition fresh_trace : Retry.trace Q :=
  {| Retry.calls := 0; Retry.sleeps := [] |}.

(** A stand-in for the MD5 digest, and a cache directory with one
    entry. *)
Definition digest_stub (text : str) : str := lit "900150983cd24fb0".

Definition one_entry : DiskCache.files :=
  DiskCache.set (V := list Byte.byte) digest_stub id (lit "data/cache")
    DiskCache.WriteOk ∅ (lit "abc") [Byte.x01].

(** Two categories, and a text about the first. *)
Definition tech : Settings.Category :=
  {| Settings.name := lit "tech";
     Settings.keywords := [lit "Kubernetes"; lit "docker"] |}.

Definition general_category : Settings.Category :=
  {| Settings.name := lit "general"; Settings.keywords := [] |}.

Definition cooking : Settings.Category :=
  {| Settings.name := lit "cooking";
     Settings.keywords := [lit "recipe"; lit "oven"; lit "flour"; lit "salt"] |}.

(** The default threshold [0.3] and the threshold [0.1], as the floats
    that Python reads; a category of ten keywords. *)
Definition threshold_03 : float := 0x1.3333333333333p-2%float.

Definition threshold_01 : float := 0x1.999999999999ap-4%float.

Definition tenth : Settings.Category :=
  {| Settings.name := lit "tenth";
     Settings.keywords :=
       [lit "one"; lit "two"; lit "three"; lit "four"; lit "five"; lit "six";
        lit "seven"; lit "eight"; lit "nine"; lit "ten"] |}.

(** The blocks of [smith.txt] with a vector each, and their upload
    into an empty collection. *)
Definition embedded_smith : list (Ingest.document unit) :=
  map (Ingest.with_vector (ones 3)) (smith_documents None).

Definition uploaded
    : Embedding.world
      * (Embedding.exn + gmap str (Ingest.point unit) * option Embedding.exn) :=
  Ingest.upsert_to_qdrant uuid5_stub (checks_dimension 3) unit_length
    embedded_smith ∅ startup.

Definition store_after
    (r : Embedding.world
         * (Embedding.exn + gmap str (Ingest.point unit) * option Embedding.exn))
    : gmap str (Ingest.point unit) :=
  match r.2 with inr reached => reached.1 | inl _ => ∅ end.

(** The embedding of the blocks of [smith.txt] without cache, and with
    a cache whose pickle loads every file as the vector of ones. *)
Definition load_ones (content : list Byte.byte) : option Embedding.vector :=
  Some (ones 3).

Definition embedded_without_cache
    : Embedding.world
      * (Embedding.exn + list (Ingest.document unit) * DiskCache.files) :=
  Ingest.embed_documents md5_stub dump_stub load_stub small_chunks
    default_client (rejects_bad 3) None (smith_documents None) ∅ startup.

Definition embedded_with_cache
    : Embedding.world
      * (Embedding.exn + list (Ingest.document unit) * DiskCache.files) :=
  Ingest.embed_documents md5_stub dump_stub load_ones small_chunks
    default_client (rejects_bad 3) (Some cache_on) (smith_documents None) ∅
    startup.

Definition documents_after {X}
    (r : Embedding.world * (Embedding.exn + list (Ingest.document unit) * X))
    : list (Ingest.document unit) :=
  match r.2 with inr p => p.1 | inl _ => [] end.

Definition cache_after {X}
    (r : Embedding.world * (Embedding.exn + X * DiskCache.files))
    : DiskCache.files :=
  match r.2 with inr p => p.2 | inl _ => ∅ end.

(** A second file with the stem of [smith.txt], in another directory
    and with another extension, ingested after the first. *)
Definition notes : str := lit "Notes on Dr. Smith. Nothing else is known.".

Definition notes_documents : list (Ingest.document unit) :=
  match Ingest.process_document keep_text no_enrichment regex_only general
          small_chunks 0 (lit "smith.md") (lit "notes/smith.md") (inr notes)
          None with
  | Some (inr documents) => documents
  | _ => []
  end.

(** What a directory search finds: [smith.txt] and a file that cannot
    be read. *)
Definition found_files : list Ingest.source_file :=
  [ {| Ingest.file_name := lit "smith.txt";
       Ingest.file_path := lit "docs/smith.txt";
       Ingest.file_loaded := inr smith |};
    {| Ingest.file_name := lit "broken.pdf";
       Ingest.file_path := lit "docs/broken.pdf";
       Ingest.file_loaded := inl (Embedding.OtherError (lit "cannot read")) |} ].

(** The first block of [smith.txt]. *)
Definition blank_block : Ingest.document unit :=
  {| Ingest.doc_id := []; Ingest.doc_text := [];
     Ingest.doc_metadata :=
       {| Ingest.category := []; Ingest.chunk_index := 0;
          Ingest.total_chunks := 0; Ingest.file_type := [];
          Ingest.document_metadata :=
            Cleaner.extract_metadata_enhanced no_enrichment [] [] |};
     Ingest.doc_vector := None |}.

Definition first_smith_block : Ingest.document unit :=
  default blank_block (smith_documents None !! 0%nat).

Definition notes_run
    : Embedding.world
      * (Embedding.exn + DiskCache.files * gmap str (Ingest.point unit)) :=
  Ingest.embed_and_upsert md5_stub dump_stub load_stub uuid5_stub small_chunks
    (checks_dimension 3) unit_length
    default_client (rejects_bad 3) None notes_documents ∅
    (collection_after first_run) startup.

End Examples.

(** * Properties *)

Section BatchIterator.

Context {T : Type}.
Implicit Types (items : list T) (b m k : nat).

Lemma bound_nat n (i : nat) : (i <= n)%nat -> bound n (Z.of_nat i) = i.
Proof. intros Hi. unfold bound. destruct (Z.ltb_spec (Z.of_nat i) 0); lia. Qed.

Lemma bound_ge n (i : Z) : Z.of_nat n <= i -> bound n i = n.
Proof. intros Hi. unfold bound. destruct (Z.ltb_spec i 0); lia. Qed.

Lemma slice_window items b k :
  (0 < b)%nat -> (k * b < length items)%nat ->
  slice items (Z.of_nat (k * b)) (Z.of_nat (k * b) + Z.of_nat b)
  = take b (drop (k * b) items).
Proof.
  intros Hb Hk. unfold slice.
  rewrite bound_nat by lia.
  destruct (decide (k * b + b <= length items)%nat) as [Hle|Hgt].
  - replace (Z.of_nat (k * b) + Z.of_nat b) with (Z.of_nat (k * b + b)) by lia.
    rewrite bound_nat by lia. f_equal. lia.
  - rewrite bound_ge by lia.
    rewrite !take_ge; [done | rewrite length_drop; lia | rewrite length_drop; lia].
Qed.

Lemma concat_windows items b m :
  concat (Helpers.windows items b m) = take (m * b) items.
Proof.
  unfold Helpers.windows. induction m as [|m IH].
  - done.
  - rewrite seq_S, map_app, concat_app, IH. simpl.
    rewrite app_nil_r, take_take_drop. f_equal. lia.
Qed.

Lemma batch_iterator_windows items (batch_size : Z) :
  0 < batch_size ->
  Helpers.batch_iterator items batch_size
  = Some (Helpers.windows items (Z.to_nat batch_size)
            (Z.to_nat ((len items + batch_size - 1) / batch_size))).
Proof.
  intros Hb. unfold Helpers.batch_iterator, range, Helpers.windows.
  destruct (Z.eqb_spec batch_size 0); [lia|].
  destruct (Z.ltb_spec 0 batch_size); [|lia].
  rewrite Z.sub_0_r. f_equal.
  set (m := Z.to_nat _).
  assert (Hm : (Z.of_nat m - 1) * batch_size < len items).
  { subst m. unfold len.
    assert (0 <= (Z.of_nat (length items) + batch_size - 1) / batch_size)
      by (apply Z.div_pos; lia).
    rewrite Z2Nat.id by done.
    pose proof (Z.mul_div_le (Z.of_nat (length items) + batch_size - 1) batch_size).
    nia. }
  rewrite map_map. apply map_ext_in. intros k Hk%in_seq.
  set (b := Z.to_nat batch_size) in *.
  assert (Hbb : batch_size = Z.of_nat b) by lia.
  rewrite Hbb in Hm |- *.
  replace (0 + Z.of_nat k * Z.of_nat b) with (Z.of_nat (k * b)) by lia.
  apply slice_window; [lia|]. unfold len in Hm. nia.
Qed.

(** C10. For every list and every positive batch size,
    [batch_iterator] yields batches whose concatenation is the input
    list in order; no batch is empty; every batch but the last has
    exactly [batch_size] elements. *)
Theorem batch_iterator_partition items (batch_size : Z) :
  0 < batch_size ->
  exists batches,
    Helpers.batch_iterator items batch_size = Some batches
    /\ concat batches = items
    /\ Forall (fun batch => batch <> []) batches
    /\ (forall i batch, batches !! i = Some batch ->
          (S i < length batches)%nat -> len batch = batch_size).
Proof.
  intros Hb. eexists. split; [by apply batch_iterator_windows|].
  set (b := Z.to_nat batch_size).
  set (m := Z.to_nat _).
  assert (Hlo : (m * b >= length items)%nat).
  { subst m b. unfold len.
    pose proof (Z.mod_pos_bound (Z.of_nat (length items) + batch_size - 1) batch_size Hb).
    pose proof (Z.div_mod (Z.of_nat (length items) + batch_size - 1) batch_size).
    assert (0 <= (Z.of_nat (length items) + batch_size - 1) / batch_size)
      by (apply Z.div_pos; lia).
    nia. }
  assert (Hhi : forall k, (k < m)%nat -> (k * b < length items)%nat).
  { intros k Hk. subst m b. unfold len in *.
    assert (0 <= (Z.of_nat (length items) + batch_size - 1) / batch_size)
      by (apply Z.div_pos; lia).
    pose proof (Z.mul_div_le (Z.of_nat (length items) + batch_size - 1) batch_size).
    nia. }
  split; [|split].
  - rewrite concat_windows. by rewrite take_ge by lia.
  - unfold Helpers.windows. apply Forall_forall. intros x Hx.
    apply list_elem_of_In, in_map_iff in Hx as (k & <- & Hk%in_seq).
    specialize (Hhi k ltac:(lia)).
    intros Hnil%(f_equal length). rewrite length_take, length_drop in Hnil.
    simpl in Hnil. subst b. lia.
  - intros i batch Hi Hlt. unfold Helpers.windows in *.
    rewrite length_map, length_seq in Hlt.
    rewrite list_lookup_fmap in Hi.
    rewrite lookup_seq_lt in Hi by lia. simpl in Hi. injection Hi as <-.
    specialize (Hhi (S i) ltac:(lia)).
    unfold len. rewrite length_take, length_drop. subst b. lia.
Qed.

End BatchIterator.

Lemma batch_iterator_partition_witness :
  0 < 2 /\
  exists batches,
    Helpers.batch_iterator [1; 2; 3; 4; 5] 2 = Some batches
    /\ concat batches = [1; 2; 3; 4; 5]
    /\ Forall (fun batch => batch <> []) batches
    /\ (forall i batch, batches !! i = Some batch ->
          (S i < length batches)%nat -> len batch = 2).
Proof. split; [lia | apply (batch_iterator_partition [1; 2; 3; 4; 5] 2); lia]. Defined.

(** ** Fixed-width chunking *)

Section ChunkByChars.

Import Cleaner.

Variables (text : str) (chunk_size overlap min_size : Z).

(** With [0 < overlap < chunk_size] and a text longer than one window,
    [start] stays inside the text for ever: a short window moves it
    forward by [chunk_size - overlap], the last window sends it to
    [len text - overlap], from which the next window is the last one
    again. *)
Lemma chunk_by_chars_loop_stuck :
  0 < overlap < chunk_size -> chunk_size < len text ->
  forall fuel start chunks, 0 <= start < len text ->
    chunk_by_chars_loop fuel text chunk_size overlap min_size start chunks = None.
Proof.
  intros Hov Hlen. induction fuel as [|fuel IH]; intros start chunks Hstart.
  - reflexivity.
  - cbn [chunk_by_chars_loop].
    destruct (Z.ltb_spec start (len text)) as [_|]; [|lia].
    destruct (Z.leb_spec (Z.min (start + chunk_size) (len text) - overlap) 0)
      as [Hle|Hgt]; [lia|].
    apply IH. lia.
Qed.

Lemma chunk_by_chars_diverges :
  0 < overlap < chunk_size -> chunk_size < len text ->
  forall fuel, _chunk_by_chars fuel text chunk_size overlap min_size = None.
Proof.
  intros Hov Hlen fuel. unfold _chunk_by_chars.
  apply chunk_by_chars_loop_stuck; lia.
Qed.

(** Without overlap the window end is the next start, and the loop
    ends when it reaches the end of the text. *)
Lemma chunk_by_chars_loop_no_overlap :
  0 < chunk_size -> overlap = 0 ->
  forall fuel start chunks, 0 <= start ->
    (Z.to_nat (len text - start) < fuel)%nat ->
    exists result,
      chunk_by_chars_loop fuel text chunk_size overlap min_size start chunks
      = Some result.
Proof.
  intros Hcs ->. induction fuel as [|fuel IH]; intros start chunks Hstart Hfuel.
  - lia.
  - cbn [chunk_by_chars_loop].
    destruct (Z.ltb_spec start (len text)) as [Hlt|]; [|by eexists].
    destruct (Z.leb_spec (Z.min (start + chunk_size) (len text) - 0) 0);
      [by eexists|].
    apply IH; lia.
Qed.

Lemma chunk_by_chars_no_overlap_terminates :
  0 < chunk_size -> overlap = 0 ->
  exists result,
    _chunk_by_chars (S (length text)) text chunk_size overlap min_size
    = Some result.
Proof.
  intros Hcs Hov. unfold _chunk_by_chars.
  apply chunk_by_chars_loop_no_overlap; unfold len; lia.
Qed.

(** With [overlap >= chunk_size] the guard [start <= 0] ends the loop
    after the first window. *)
Lemma chunk_by_chars_one_window :
  0 < chunk_size <= overlap -> text <> [] ->
  forall fuel,
    _chunk_by_chars (S fuel) text chunk_size overlap min_size
    = let chunk := strip (slice text 0 (Z.min chunk_size (len text))) in
      Some (if min_size <=? len chunk then [chunk] else []).
Proof.
  intros Hov Hne fuel. unfold _chunk_by_chars. cbn [chunk_by_chars_loop].
  assert (0 < len text) by (unfold len; destruct text; [done | simpl; lia]).
  destruct (Z.ltb_spec 0 (len text)); [|lia].
  rewrite Z.add_0_l.
  destruct (Z.leb_spec (Z.min chunk_size (len text) - overlap) 0); [|lia].
  by destruct (min_size <=? _).
Qed.

End ChunkByChars.

(** C3. The fixed-width loop does not end on the ten-character text
    [abcdefghij] with [chunk_size = 4], [overlap = 1] and
    [min_size = 1]: no number of iterations gives a result. *)
Theorem chunk_by_chars_never_returns :
  forall fuel, Cleaner._chunk_by_chars fuel (lit "abcdefghij") 4 1 1 = None.
Proof.
  intros fuel. apply chunk_by_chars_diverges; [lia | by vm_compute].
Qed.

(** ** Minimum chunk length *)

Section MinChunkSize.

Import Cleaner.

Variables (chunk_size overlap min_size : Z).

Lemma build_step_long_enough st sentence :
  Forall (long_enough min_size) (chunks st) ->
  Forall (long_enough min_size) (chunks (build_step chunk_size overlap min_size st sentence)).
Proof.
  intros Hst. unfold build_step.
  destruct (is_empty (strip sentence)); [done|].
  destruct (_ && _); [|done].
  assert (Forall (long_enough min_size)
            (if min_size <=? len (join (lit " ") (current_chunk st))
             then chunks st ++ [join (lit " ") (current_chunk st)]
             else chunks st)).
  { destruct (Z.leb_spec min_size (len (join (lit " ") (current_chunk st)))).
    - apply Forall_app. split; [done|]. by apply Forall_singleton.
    - done. }
  by destruct (0 <? overlap).
Qed.

Lemma build_loop_long_enough sentences st :
  Forall (long_enough min_size) (chunks st) ->
  Forall (long_enough min_size)
    (chunks (fold_left (build_step chunk_size overlap min_size) sentences st)).
Proof.
  revert st. induction sentences as [|s sentences IH]; intros st Hst.
  - done.
  - simpl. apply IH. by apply build_step_long_enough.
Qed.

Lemma build_chunks_long_enough sentences :
  Forall (long_enough min_size)
    (_build_chunks_from_sentences sentences chunk_size overlap min_size).
Proof.
  unfold _build_chunks_from_sentences, build_flush.
  set (st := fold_left _ _ _).
  assert (Hst : Forall (long_enough min_size) (chunks st))
    by (apply build_loop_long_enough; constructor).
  destruct (is_empty (current_chunk st)); [done|].
  destruct (Z.leb_spec min_size (len (join (lit " ") (current_chunk st)))).
  - apply Forall_app. split; [done|]. by apply Forall_singleton.
  - done.
Qed.

Lemma chunk_by_chars_loop_long_enough text fuel :
  forall start acc result,
    Forall (long_enough min_size) acc ->
    chunk_by_chars_loop fuel text chunk_size overlap min_size start acc
    = Some result ->
    Forall (long_enough min_size) result.
Proof.
  induction fuel as [|fuel IH]; intros start acc result Hacc Hrun.
  - discriminate.
  - cbn [chunk_by_chars_loop] in Hrun.
    destruct (start <? len text); [|by injection Hrun as <-].
    set (chunk := strip _) in Hrun.
    assert (Hacc' : Forall (long_enough min_size)
                      (if min_size <=? len chunk then acc ++ [chunk] else acc)).
    { destruct (Z.leb_spec min_size (len chunk)).
      - apply Forall_app. split; [done|]. by apply Forall_singleton.
      - done. }
    destruct (_ <=? 0).
    + by injection Hrun as <-.
    + by eapply IH.
Qed.

End MinChunkSize.

(** C5. Every chunk that [smart_chunk_text_enhanced] returns has at
    least [min_chunk_size] characters, whatever the text, the parameters
    and the analyzers in use.  The bound holds for a result of one chunk
    as well: both assembly functions test the length before each
    [append]. *)
Theorem chunks_respect_min_chunk_size fuel an text chunk_size overlap
    min_chunk_size respect_sentence language chunks :
  Cleaner.smart_chunk_text_enhanced fuel an text chunk_size overlap
    min_chunk_size respect_sentence language = Some chunks ->
  Forall (fun chunk => min_chunk_size <= len chunk) chunks.
Proof.
  unfold Cleaner.smart_chunk_text_enhanced. intros Hrun.
  destruct (_ || _); [by injection Hrun as <-|].
  destruct (negb respect_sentence).
  - unfold Cleaner._chunk_by_chars in Hrun.
    eapply chunk_by_chars_loop_long_enough; [|exact Hrun]. constructor.
  - destruct (Cleaner.try_spacy _ _ _ _ _ _) as [result|] eqn:Hspacy.
    + injection Hrun as <-. unfold Cleaner.try_spacy in Hspacy.
      destruct (Cleaner.HAS_SPACY an); [|discriminate].
      match type of Hspacy with
      | match ?nlp with _ => _ end = _ => destruct nlp as [f|]; [|discriminate]
      end.
      unfold Cleaner._chunk_by_spacy in Hspacy.
      destruct (range _ _ _); [|discriminate].
      destruct (mapM _ _); [|discriminate].
      injection Hspacy as <-. apply build_chunks_long_enough.
    + destruct (Cleaner.HAS_NLTK an); injection Hrun as <-.
      * unfold Cleaner._chunk_by_nltk.
        destruct (Cleaner.sent_tokenize an text);
          apply build_chunks_long_enough.
      * apply build_chunks_long_enough.
Qed.

Lemma chunks_respect_min_chunk_size_witness :
  Forall (fun chunk => 5 <= len chunk)
    [lit "Dr. Smith works at OpenAI."; lit "enAI. He said hello.";
     lit "ello. The end."].
Proof.
  apply (chunks_respect_min_chunk_size 0 Examples.regex_only Examples.smith
           20 5 5 true (lit "auto")).
  vm_compute. reflexivity.
Defined.

(** ** Overlap seeding *)

Lemma slice_from_trailing {A} (l : list A) (n : Z) :
  0 < n < len l ->
  slice_from l (- n) = drop (length l - Z.to_nat n) l.
Proof.
  intros Hn. unfold slice_from, bound, len in *.
  destruct (Z.ltb_spec (- n) 0); [|lia]. f_equal. lia.
Qed.

Lemma is_empty_false {A} (l : list A) : l <> [] -> Cleaner.is_empty l = false.
Proof. by destruct l. Qed.

(** C6. When the stripped sentence does not fit
    ([current_size + len sentence > chunk_size]) and a chunk is open,
    the step closes the chunk: its text is appended to the result unless
    it is shorter than [min_size]; the next chunk starts with [seed], the
    last [overlap] characters of the closed text (all of it when it has
    no more than [overlap] characters), followed by the sentence. *)
Theorem overflow_closes_and_seeds chunk_size overlap min_size st sentence :
  let s := strip sentence in
  let closed := join (lit " ") (Cleaner.current_chunk st) in
  let st' := Cleaner.build_step chunk_size overlap min_size st sentence in
  s <> [] -> Cleaner.current_chunk st <> [] ->
  chunk_size < Cleaner.current_size st + len s -> 0 <= overlap ->
  Cleaner.chunks st'
  = Cleaner.chunks st ++ (if min_size <=? len closed then [closed] else [])
  /\ exists dropped seed,
       closed = dropped ++ seed
       /\ len seed = Z.min overlap (len closed)
       /\ Cleaner.current_chunk st' = (if 0 <? overlap then [seed; s] else [s])
       /\ concat (Cleaner.current_chunk st') = seed ++ s
       /\ Cleaner.current_size st' = len seed + len s.
Proof.
  intros s closed st' Hs Hcur Hover Hov. subst st'. unfold Cleaner.build_step.
  fold s. fold closed.
  rewrite (is_empty_false s Hs), (is_empty_false _ Hcur).
  destruct (Z.ltb_spec chunk_size (Cleaner.current_size st + len s)); [|lia].
  simpl andb. cbv iota.
  destruct (Z.ltb_spec 0 overlap) as [Hpos|Hzero].
  - split.
    + simpl. destruct (min_size <=? len closed); [done | by rewrite app_nil_r].
    + destruct (Z.ltb_spec overlap (len closed)) as [Hlong|Hshort].
      * exists (take (length closed - Z.to_nat overlap) closed),
               (slice_from closed (- overlap)).
        rewrite slice_from_trailing by lia.
        split; [by rewrite take_drop|].
        split; [unfold len in *; rewrite length_drop; lia|].
        simpl. by rewrite app_nil_r.
      * exists [], closed. split; [done|]. split; [lia|].
        simpl. by rewrite app_nil_r.
  - split.
    + simpl. destruct (min_size <=? len closed); [done | by rewrite app_nil_r].
    + exists closed, []. split; [by rewrite app_nil_r|].
      split; [unfold len; simpl; lia|].
      simpl. by rewrite app_nil_r.
Qed.

Lemma overflow_closes_and_seeds_witness :
  let st' := Cleaner.build_step 20 5 5 Examples.one_sentence (lit " The end. ") in
  Cleaner.chunks st' = [lit "He said hello."]
  /\ exists dropped seed,
       lit "He said hello." = dropped ++ seed
       /\ len seed = 5
       /\ Cleaner.current_chunk st' = [seed; lit "The end."]
       /\ concat (Cleaner.current_chunk st') = seed ++ lit "The end."
       /\ Cleaner.current_size st' = len seed + 8.
Proof.
  apply (overflow_closes_and_seeds 20 5 5 Examples.one_sentence (lit " The end. "));
    [by vm_compute | by vm_compute | by vm_compute | lia].
Defined.

(** ** Title guess *)

Section Title.

Import Cleaner.

Lemma title_loop_some lines t :
  title_loop lines = Some t ->
  exists before line after,
    lines = before ++ line :: after /\ t = strip line /\ title_candidate t
    /\ Forall (fun l => ~ title_candidate (strip l)) before.
Proof.
  induction lines as [|line rest IH]; intros Hrun; [discriminate|].
  cbn [title_loop] in Hrun.
  assert (Hrest : title_loop rest = Some t ->
                  ~ title_candidate (strip line) ->
                  exists before line0 after,
                    line :: rest = before ++ line0 :: after /\ t = strip line0
                    /\ title_candidate t
                    /\ Forall (fun l => ~ title_candidate (strip l)) before).
  { intros Ht Hno. destruct (IH Ht) as (before & l & after & -> & -> & Hc & Hb).
    exists (line :: before), l, after. repeat split; try done; try apply Hc.
    by constructor. }
  destruct (Z.ltb_spec 10 (len (strip line))) as [Hlo|Hlo];
    [destruct (Z.ltb_spec (len (strip line)) 200) as [Hhi|Hhi]|]; simpl in Hrun.
  - destruct (strip line) as [|c cs] eqn:Hline.
    { unfold len in Hlo. simpl in Hlo. lia. }
    destruct (isdigit c) eqn:Hdigit; simpl in Hrun.
    + apply Hrest; [done|]. intros [_ Hc]. specialize (Hc c eq_refl). congruence.
    + injection Hrun as <-. exists [], line, rest. rewrite Hline.
      repeat split; try done. intros c' [= <-]. done.
  - apply Hrest; [done|]. intros [? _]. lia.
  - apply Hrest; [done|]. intros [? _]. lia.
Qed.

Lemma title_loop_none lines :
  title_loop lines = None <->
  Forall (fun l => ~ title_candidate (strip l)) lines.
Proof.
  induction lines as [|line rest IH]; [done|].
  cbn [title_loop]. rewrite Forall_cons.
  destruct (Z.ltb_spec 10 (len (strip line))) as [Hlo|Hlo];
    [destruct (Z.ltb_spec (len (strip line)) 200) as [Hhi|Hhi]|]; simpl.
  - destruct (strip line) as [|c cs] eqn:Hline.
    { unfold len in Hlo. simpl in Hlo. lia. }
    destruct (isdigit c) eqn:Hdigit; simpl.
    + rewrite IH. split; [|tauto]. intros Hr. split; [|done].
      intros [_ Hc]. specialize (Hc c eq_refl). congruence.
    + split; [done|]. intros [Hno _]. exfalso. apply Hno.
      split; [lia|]. intros c' [= <-]. done.
  - rewrite IH. split; [|tauto]. intros Hr. split; [|done]. intros [? _]. lia.
  - rewrite IH. split; [|tauto]. intros Hr. split; [|done]. intros [? _]. lia.
Qed.

Lemma slice_to_take {A} (l : list A) (n : nat) :
  slice_to l (Z.of_nat n) = take n l.
Proof.
  unfold slice_to, bound. destruct (Z.ltb_spec (Z.of_nat n) 0); [lia|].
  destruct (decide (n <= length l)%nat).
  - f_equal. lia.
  - rewrite !take_ge; [done | lia | lia].
Qed.

End Title.

(** C9 (as the code has it). The title is the first of the first ten
    lines that, once stripped, has more than 10 and fewer than 200
    characters and does not start with a digit; it is absent exactly
    when no such line exists.  Word count, character count and summary
    are produced in both cases. *)
Theorem title_is_first_candidate {E} (spacy : str -> option E) text source_path :
  let m := Cleaner.extract_metadata_enhanced spacy text source_path in
  let first_ten := take 10 (split_on "010"%char text) in
  let collapsed := join (lit " ") (split_ws text) in
  (forall t, Cleaner.title m = Some t ->
     exists before line after,
       first_ten = before ++ line :: after /\ t = strip line
       /\ Cleaner.title_candidate t
       /\ Forall (fun l => ~ Cleaner.title_candidate (strip l)) before)
  /\ (Cleaner.title m = None <->
      Forall (fun l => ~ Cleaner.title_candidate (strip l)) first_ten)
  /\ Cleaner.word_count m = len (split_ws text)
  /\ Cleaner.char_count m = len text
  /\ Cleaner.summary m
     = (if 200 <? len collapsed then take 200 collapsed ++ lit "..."
        else collapsed).
Proof.
  intros m first_ten collapsed. subst m first_ten. simpl.
  change 10 with (Z.of_nat 10). change 200 with (Z.of_nat 200) at 2.
  rewrite !slice_to_take.
  split; [intros t; apply title_loop_some|].
  split; [apply title_loop_none|]. done.
Qed.

(** C9, the bounds as the specification words them: a line of exactly
    ten characters is a title for the specification and not for the
    code. *)
Lemma title_length_bounds_counterexample :
  Cleaner.title
    (Cleaner.extract_metadata_enhanced (fun _ => @None unit)
       (lit "abcdefghij") (lit "notes.txt"))
  <> Cleaner.spec_title_guess (lit "abcdefghij").
Proof. vm_compute. discriminate. Qed.

(** ** Embedding client: rate limiting *)

Section RateLimit.

Import Embedding.

Lemma sleep_nonneg (secs : Z) (w : world) :
  0 <= secs ->
  time_sleep (inject_Z secs) w
  = ({| calls := calls w; now := (now w + inject_Z secs)%Q;
        sleeps := sleeps w ++ [inject_Z secs] |}, inr tt).
Proof.
  intros Hs. unfold time_sleep.
  replace (Qlt_bool (inject_Z secs) 0) with false; [done|].
  symmetry. unfold Qlt_bool, Qle_bool. cbn [Qnum Qden inject_Z].
  apply negb_false_iff, Z.leb_le. lia.
Qed.

(** An attempt that meets status 429 sleeps and gives its turn to the
    next attempt of the loop. *)
Lemma rate_limited_attempt {A} c srv payload (pick : list vector -> M A)
    attempt rest w latency r secs :
  srv (calls w) payload = PostReturned latency r ->
  status_code r = 429 ->
  (retry_after r = Absent /\ secs = 10)
  \/ (retry_after r = Seconds secs /\ 0 <= secs) ->
  embed_attempts c srv payload pick (attempt :: rest) w
  = embed_attempts c srv payload pick rest
      {| calls := S (calls w);
         now := (now w + latency + inject_Z secs)%Q;
         sleeps := sleeps w ++ [inject_Z secs] |}.
Proof.
  intros Hsrv Hst Hhdr. cbn [embed_attempts].
  cbv [mbind M_bind try_except attempt_try post].
  rewrite Hsrv, Hst. cbn [Z.eqb Pos.eqb].
  unfold int_retry_after.
  destruct Hhdr as [[-> ->]|[-> Hs]]; cbv [mret M_ret];
    rewrite sleep_nonneg by lia; reflexivity.
Qed.

(** An attempt that is answered returns the answer. *)
Lemma answered_attempt c srv payload attempt rest w latency r embeddings :
  srv (calls w) payload = PostReturned latency r ->
  status_code r <> 429 -> ~ (400 <= status_code r < 600) ->
  json r = Data embeddings ->
  embed_attempts c srv payload mret (attempt :: rest) w
  = ({| calls := S (calls w); now := (now w + latency)%Q; sleeps := sleeps w |},
     inr embeddings).
Proof.
  intros Hsrv H429 Hok Hjson. cbn [embed_attempts].
  cbv [mbind M_bind try_except attempt_try post].
  rewrite Hsrv.
  destruct (Z.eqb_spec (status_code r) 429); [done|].
  unfold raise_for_status, json_embeddings.
  destruct (Z.leb_spec 400 (status_code r));
    destruct (Z.ltb_spec (status_code r) 600); cbn [andb]; try lia;
    rewrite Hjson; reflexivity.
Qed.

Lemma attempts_of_two c :
  2 <= max_retries c ->
  exists rest, attempts_of c = 0 :: 1 :: rest.
Proof.
  intros Hm. unfold attempts_of, range. simpl.
  rewrite Z.sub_0_r, Z.add_simpl_r, Z.div_1_r.
  destruct (Z.to_nat (max_retries c)) as [|[|n]] eqn:Hn; [lia | lia |].
  simpl. by eexists.
Qed.

End RateLimit.

(** C4 (as the code has it). On status 429 [embed] reads [Retry-After]
    (10 when the header is absent), sleeps that long and goes on with
    the next attempt of the loop: the rate-limited attempt is one of the
    [max_retries] attempts.  With [max_retries >= 2], a single 429
    followed by an answer gives exactly one such sleep and then the
    answer. *)
Theorem rate_limit_uses_one_attempt c srv texts w latency1 r1 secs latency2 r2
    embeddings :
  let payload := map Embedding.validate_and_clean_text texts in
  let w1 := {| Embedding.calls := S (Embedding.calls w);
               Embedding.now := (Embedding.now w + latency1 + inject_Z secs)%Q;
               Embedding.sleeps := Embedding.sleeps w ++ [inject_Z secs] |} in
  srv (Embedding.calls w) payload = Embedding.PostReturned latency1 r1 ->
  Embedding.status_code r1 = 429 ->
  (Embedding.retry_after r1 = Embedding.Absent /\ secs = 10)
  \/ (Embedding.retry_after r1 = Embedding.Seconds secs /\ 0 <= secs) ->
  (forall attempt rest,
     Embedding.embed_attempts c srv payload mret (attempt :: rest) w
     = Embedding.embed_attempts c srv payload mret rest w1)
  /\ (2 <= Embedding.max_retries c ->
      srv (S (Embedding.calls w)) payload = Embedding.PostReturned latency2 r2 ->
      Embedding.status_code r2 = 200 ->
      Embedding.json r2 = Embedding.Data embeddings ->
      exists w',
        Embedding.embed c srv texts w = (w', inr embeddings)
        /\ Embedding.sleeps w' = Embedding.sleeps w ++ [inject_Z secs]
        /\ Embedding.calls w' = S (S (Embedding.calls w))).
Proof.
  intros payload w1 Hsrv1 Hst1 Hhdr. split.
  - intros attempt rest. by eapply rate_limited_attempt.
  - intros Hmax Hsrv2 Hst2 Hjson.
    destruct (attempts_of_two c Hmax) as [rest Hattempts].
    unfold Embedding.embed. fold payload. rewrite Hattempts.
    erewrite rate_limited_attempt by done.
    erewrite answered_attempt; [| exact Hsrv2 | lia | lia | exact Hjson].
    eexists. split; [reflexivity|]. by split.
Qed.

Lemma rate_limit_uses_one_attempt_witness :
  exists w',
    Embedding.embed Examples.default_client (Examples.limited_once 3)
      [lit "hello"] Examples.startup
    = (w', inr [Examples.ones 3])
    /\ Embedding.sleeps w' = [inject_Z 2]
    /\ Embedding.calls w' = 2%nat.
Proof.
  apply (rate_limit_uses_one_attempt Examples.default_client
           (Examples.limited_once 3) [lit "hello"] Examples.startup
           (1 # 4) (Examples.rate_limited (Embedding.Seconds 2)) 2
           (1 # 4) (Examples.ok_response [Examples.ones 3]) [Examples.ones 3]);
    first [reflexivity | by vm_compute | (right; by vm_compute) | simpl; lia].
Defined.

(** C4, as stated: the 429 does use an attempt.  With [max_retries = 1]
    a single 429 with [Retry-After: 2], which the endpoint would follow
    with an answer, gives one sleep and then the failure
    [Max retries exceeded]. *)
Lemma rate_limit_free_retry_counterexample :
  Embedding.embed Examples.single_try (Examples.limited_once 3)
    [lit "hello"] Examples.startup
  = ({| Embedding.calls := 1; Embedding.now := (0 + (1 # 4) + inject_Z 2)%Q;
        Embedding.sleeps := [inject_Z 2] |},
     inl (Embedding.OtherError (lit "Max retries exceeded"))).
Proof. reflexivity. Qed.

(** ** Embedding client: one vector per text *)

Section Returns.

Import Embedding.

Context {A : Type}.

Lemma returns_ret (a : A) (P : A -> Prop) : P a -> returns (mret a) P.
Proof. intros HP w w' a' [= _ <-]. exact HP. Qed.

Lemma returns_raise (e : exn) (P : A -> Prop) : returns (raise e) P.
Proof. intros w w' a' [=]. Qed.

Lemma returns_true (m : M A) : returns m (fun _ => True).
Proof. by intros w w' a _. Qed.

Lemma returns_weaken (m : M A) (P Q : A -> Prop) :
  returns m P -> (forall a, P a -> Q a) -> returns m Q.
Proof. intros Hm HPQ w w' a Hrun. eapply HPQ, Hm, Hrun. Qed.

Lemma returns_bind {B} (m : M B) (k : B -> M A) (Q : B -> Prop) (P : A -> Prop) :
  returns m Q -> (forall b, Q b -> returns (k b) P) -> returns (m ≫= k) P.
Proof.
  intros Hm Hk w w' a. cbv [mbind M_bind].
  destruct (m w) as [w1 [e|b]] eqn:Hrun; [discriminate|].
  intros Hk'. eapply Hk; [eapply Hm, Hrun | exact Hk'].
Qed.

Lemma returns_try (m : M A) (h : exn -> M A) (P : A -> Prop) :
  returns m P -> (forall e, returns (h e) P) -> returns (try_except m h) P.
Proof.
  intros Hm Hh w w' a. unfold try_except.
  destruct (m w) as [w1 [e|b]] eqn:Hrun.
  - apply Hh.
  - intros [= _ <-]. eapply Hm, Hrun.
Qed.

Lemma returns_raise_bind {B} (e : exn) (k : B -> M A) (P : A -> Prop) :
  returns (raise e ≫= k) P.
Proof. intros w w' a [=]. Qed.

End Returns.

(** Steps that end an attempt without a result: they raise, or return
    [None] after reading the header and sleeping. *)
Ltac no_result :=
  repeat first
    [ apply returns_raise
    | (apply returns_ret; by intros ? [=])
    | (eapply returns_bind; [apply returns_true | intros ? _])
    | match goal with
      | |- Embedding.returns (if ?b then _ else _) _ => destruct b
      end ].

Section OnePerText.

Import Embedding.

Variable R : str -> vector -> Prop.
Variable c : client.
Variable srv : remote.
Hypothesis srv_ok : well_behaved R srv.

Lemma post_returns payload :
  returns (post srv payload)
    (fun r => exists k latency, srv k payload = PostReturned latency r).
Proof.
  intros w w' r. unfold post.
  destruct (srv (calls w) payload) as [|latency r'] eqn:Hsrv; [discriminate|].
  intros [= _ <-]. eauto.
Qed.

Lemma attempt_try_returns {A} payload (pick : list vector -> M A) (P : A -> Prop) :
  (forall embeddings, Forall2 R payload embeddings -> returns (pick embeddings) P) ->
  returns (attempt_try srv payload pick) (fun r => forall a, r = Some a -> P a).
Proof.
  intros Hpick. unfold attempt_try.
  eapply returns_bind; [apply post_returns|].
  intros r (k & latency & Hsrv).
  destruct (Z.eqb_spec (status_code r) 429) as [|H429]; [no_result|].
  unfold raise_for_status.
  destruct (Z.leb_spec 400 (status_code r));
    destruct (Z.ltb_spec (status_code r) 600); cbn [andb];
    try apply returns_raise_bind.
  all: eapply returns_bind; [apply returns_true | intros _ _].
  all: unfold json_embeddings; destruct (json r) as [msg|embeddings] eqn:Hjson;
    [apply returns_raise_bind|].
  all: eapply returns_bind; [apply (returns_ret _ (fun x => x = embeddings) eq_refl)|].
  all: intros ? ->; eapply returns_bind;
    [apply Hpick; eapply srv_ok; [exact Hsrv | exact H429 | lia | exact Hjson]|].
  all: intros a Ha; apply returns_ret; by intros ? [= <-].
Qed.

Lemma attempt_except_returns {A} attempt e (P : A -> Prop) :
  returns (attempt_except c attempt e) (fun r => forall a, r = Some a -> P a).
Proof.
  unfold attempt_except. destruct e as [r|msg]; cbv zeta; no_result.
Qed.

Lemma embed_attempts_returns {A} payload (pick : list vector -> M A)
    (P : A -> Prop) attempts :
  (forall embeddings, Forall2 R payload embeddings -> returns (pick embeddings) P) ->
  returns (embed_attempts c srv payload pick attempts) P.
Proof.
  intros Hpick. induction attempts as [|attempt rest IH]; cbn [embed_attempts].
  - apply returns_raise.
  - eapply returns_bind.
    + apply returns_try;
        [by apply attempt_try_returns | intros e; apply attempt_except_returns].
    + intros [a|] Ha; [apply returns_ret; by apply Ha | exact IH].
Qed.

Lemma Forall2_map_left {X Y Z'} (f : X -> Y) (Q : Y -> Z' -> Prop) l k :
  Forall2 Q (map f l) k -> Forall2 (fun x z => Q (f x) z) l k.
Proof.
  revert k. induction l as [|x l IH]; intros k Hall; simpl in Hall.
  - apply Forall2_nil_inv_l in Hall as ->. constructor.
  - apply Forall2_cons_inv_l in Hall as (z & k' & Hz & Hk & ->).
    constructor; [done | by apply IH].
Qed.

Lemma Forall2_map_const {X Y} (Q : X -> Y -> Prop) (y : Y) (l : list X) :
  (forall x, Q x y) -> Forall2 Q l (map (fun _ => y) l).
Proof. intros Hy. induction l; simpl; by constructor. Qed.

Lemma embed_returns texts :
  returns (embed c srv texts)
    (Forall2 (fun text v => R (validate_and_clean_text text) v) texts).
Proof.
  unfold embed. apply embed_attempts_returns. intros embeddings Hall.
  apply returns_ret. by apply Forall2_map_left in Hall.
Qed.

Lemma embed_single_returns text :
  returns (embed_single c srv text) (R (validate_and_clean_text text)).
Proof.
  unfold embed_single. apply embed_attempts_returns. intros embeddings Hall.
  destruct embeddings as [|e rest]; [apply returns_raise|].
  apply returns_ret. by apply Forall2_cons_1 in Hall as [? _].
Qed.

Local Abbreviation related := (Forall2 (embedding_or_placeholder R)).

Lemma related_embedded texts embeddings :
  Forall2 (fun text v => R (validate_and_clean_text text) v) texts embeddings ->
  related texts embeddings.
Proof. intros Hall. eapply Forall2_impl; [exact Hall|]. intros text v Hv. by left. Qed.

Lemma related_placeholders (texts : list str) :
  related texts (map (fun _ => zero_vector) texts).
Proof.
  apply Forall2_map_const. intros text. by right.
Qed.

Lemma rate_guard_returns st :
  returns (rate_guard st)
    (fun st' => all_embeddings st' = all_embeddings st).
Proof.
  unfold rate_guard. destruct (50 <=? request_count st); [|by apply returns_ret].
  eapply returns_bind; [apply returns_true | intros t _].
  destruct (Qlt_bool _ _); [|by apply returns_ret].
  eapply returns_bind; [apply returns_true | intros ? _].
  eapply returns_bind; [apply returns_true | intros t' _].
  by apply returns_ret.
Qed.

Lemma embed_each_returns batch : forall done st,
  related done (all_embeddings st) ->
  returns (embed_each c srv batch st)
    (fun st' => related (done ++ batch) (all_embeddings st')).
Proof.
  induction batch as [|text rest IH]; intros done st Hst; cbn [embed_each].
  - apply returns_ret. by rewrite app_nil_r.
  - eapply returns_bind with
      (Q := fun st' => related (done ++ [text]) (all_embeddings st')).
    + apply returns_try.
      * eapply returns_bind; [apply embed_single_returns | intros emb Hemb].
        eapply returns_bind; [apply returns_true | intros ? _].
        apply returns_ret. simpl. apply Forall2_app; [done|].
        constructor; [by left | constructor].
      * intros _. apply returns_ret. simpl. apply Forall2_app; [done|].
        constructor; [by right | constructor].
    + intros st' Hst'. rewrite (cons_middle text done rest), app_assoc.
      by apply IH.
Qed.

Lemma batch_except_returns batch done st e :
  related done (all_embeddings st) ->
  returns (batch_except c srv batch st e)
    (fun st' => related (done ++ batch) (all_embeddings st')).
Proof.
  intros Hst. unfold batch_except. cbv zeta.
  destruct (_ || _).
  - eapply returns_bind; [apply returns_true | intros ? _].
    apply returns_try.
    + eapply returns_bind; [apply embed_returns | intros embeddings Hemb].
      apply returns_ret. simpl. apply Forall2_app; [done|].
      by apply related_embedded.
    + intros _. apply returns_ret. simpl. apply Forall2_app; [done|].
      apply related_placeholders.
  - destruct (_ || _); [by apply embed_each_returns | apply returns_raise].
Qed.

Lemma batch_iteration_returns batch done st :
  related done (all_embeddings st) ->
  returns (batch_iteration c srv batch st)
    (fun st' => related (done ++ batch) (all_embeddings st')).
Proof.
  intros Hst. unfold batch_iteration.
  eapply returns_bind; [apply rate_guard_returns | intros st1 Hst1].
  rewrite <- Hst1 in Hst. apply returns_try.
  - eapply returns_bind; [apply embed_returns | intros embeddings Hemb].
    eapply returns_bind; [apply returns_true | intros ? _].
    apply returns_ret. simpl. apply Forall2_app; [done|].
    by apply related_embedded.
  - intros e. by apply batch_except_returns.
Qed.

Lemma batch_loop_returns batches : forall done st,
  related done (all_embeddings st) ->
  returns (batch_loop c srv batches st)
    (fun st' => related (done ++ concat batches) (all_embeddings st')).
Proof.
  induction batches as [|batch rest IH]; intros done st Hst; cbn [batch_loop].
  - apply returns_ret. simpl. by rewrite app_nil_r.
  - eapply returns_bind; [by apply batch_iteration_returns | intros st' Hst'].
    simpl. rewrite app_assoc. by apply IH.
Qed.

Lemma batch_iterator_concat {T} (items : list T) (batch_size : Z) :
  0 < batch_size ->
  exists batches,
    Helpers.batch_iterator items batch_size = Some batches
    /\ concat batches = items.
Proof.
  intros Hb. eexists. split; [by apply batch_iterator_windows|].
  rewrite concat_windows. apply take_ge. unfold len.
  pose proof (Z.mod_pos_bound (Z.of_nat (length items) + batch_size - 1) batch_size Hb).
  pose proof (Z.div_mod (Z.of_nat (length items) + batch_size - 1) batch_size).
  assert (0 <= (Z.of_nat (length items) + batch_size - 1) / batch_size)
    by (apply Z.div_pos; lia).
  nia.
Qed.

Lemma embed_batch_returns texts batch_size :
  0 < default (default_batch_size c) batch_size ->
  returns (embed_batch c srv texts batch_size) (related texts).
Proof.
  intros Hb. unfold embed_batch. cbv zeta.
  destruct (batch_iterator_concat texts _ Hb) as (batches & -> & Hconcat).
  eapply returns_bind; [apply returns_true | intros t _].
  eapply returns_bind.
  - apply (batch_loop_returns batches []). constructor.
  - intros st Hst. apply returns_ret. simpl in Hst. by rewrite Hconcat in Hst.
Qed.

End OnePerText.

(** C1 (as the code has it). With a positive batch size and an endpoint
    that honours its contract (one embedding per text of a request, in
    order), whenever [embed_batch] returns, it returns one vector for
    each input text, in the order of the input: the vector of a text is
    an embedding that the endpoint gave for the cleaned text, or else
    the all-zero placeholder. *)
Theorem embed_batch_one_vector_per_text R c srv texts batch_size w w' result :
  Embedding.well_behaved R srv ->
  0 < default (Embedding.default_batch_size c) batch_size ->
  Embedding.embed_batch c srv texts batch_size w = (w', inr result) ->
  length result = length texts
  /\ Forall2 (Embedding.embedding_or_placeholder R) texts result.
Proof.
  intros Hsrv Hb Hrun.
  assert (Hall : Forall2 (Embedding.embedding_or_placeholder R) texts result)
    by (eapply embed_batch_returns; eauto).
  split; [symmetry; by eapply Forall2_length | exact Hall].
Qed.

Lemma rejects_bad_well_behaved dim :
  Embedding.well_behaved (fun _ v => v = Examples.ones dim)
    (Examples.rejects_bad dim).
Proof.
  intros k payload latency r embeddings Hsrv H429 Hok Hjson.
  unfold Examples.rejects_bad in Hsrv.
  destruct (existsb _ payload); injection Hsrv as _ <-.
  - simpl in Hok. lia.
  - injection Hjson as <-. by apply Forall2_map_const.
Qed.

Lemma embed_batch_one_vector_per_text_witness :
  length [Examples.ones 3; Embedding.zero_vector]
  = length [lit "good"; lit "bad"]
  /\ Forall2 (Embedding.embedding_or_placeholder (fun _ v => v = Examples.ones 3))
       [lit "good"; lit "bad"] [Examples.ones 3; Embedding.zero_vector].
Proof.
  eapply (embed_batch_one_vector_per_text (fun _ v => v = Examples.ones 3)
            Examples.default_client (Examples.rejects_bad 3)
            [lit "good"; lit "bad"] (Some 2) Examples.startup).
  - apply rejects_bad_well_behaved.
  - simpl. lia.
  - vm_compute. reflexivity.
Defined.

(** C1, as stated, for every run that returns: the batch size has to
    be positive.  With [batch_size = -1] the [range] of the batches is
    empty, no request is sent, and [embed_batch] returns normally the
    empty list for two texts. *)
Lemma embed_batch_length_counterexample :
  Embedding.embed_batch Examples.default_client (Examples.rejects_bad 3)
    [lit "good"; lit "bad"] (Some (-1)) Examples.startup
  = (Examples.startup, inr [])
  /\ length ([] : list Embedding.vector) <> length [lit "good"; lit "bad"].
Proof. split; [reflexivity | done]. Qed.

(** The endpoint has to keep its contract as well: the client does not
    count the embeddings of an answer.  An endpoint that answers two
    embeddings to a request of one text gives two vectors for one
    text. *)
Lemma embed_batch_trusts_endpoint :
  exists w',
    Embedding.embed_batch Examples.default_client Examples.answers_twice
      [lit "good"] (Some 1) Examples.startup
    = (w', inr [Examples.ones 3; Examples.ones 3]).
Proof. eexists. reflexivity. Qed.

(** ** Embedding client: dimension of the placeholder *)

(** The placeholder has 3072 components, all zero. *)
Lemma zero_vector_dimension :
  length Embedding.zero_vector = 3072%nat
  /\ Forall (fun x => x = 0%float) Embedding.zero_vector.
Proof.
  unfold Embedding.zero_vector. split; [apply length_replicate|].
  apply Forall_forall. intros x Hx. by apply elem_of_replicate in Hx as [-> _].
Qed.

(** When the deployed model has dimension 3072, all the vectors of a
    run of [embed_batch] have that dimension. *)
Lemma embed_batch_dimension_3072 c srv texts batch_size w w' result :
  Embedding.well_behaved (fun _ v => length v = 3072%nat) srv ->
  0 < default (Embedding.default_batch_size c) batch_size ->
  Embedding.embed_batch c srv texts batch_size w = (w', inr result) ->
  Forall (fun v => length v = 3072%nat) result.
Proof.
  intros Hsrv Hb Hrun.
  assert (Hall : Forall2
            (Embedding.embedding_or_placeholder (fun _ v => length v = 3072%nat))
            texts result) by (eapply embed_batch_returns; eauto).
  clear Hrun. induction Hall as [|text v texts' result' [Hv| ->] _ IH];
    by constructor.
Qed.

(** C2. With a model of dimension 1536 (the default [vector_size] of
    [QdrantConfig]) one run of [embed_batch] returns vectors of two
    dimensions: the text [good] gets its embedding of 1536 components,
    the text [bad], rejected with status 400 in its batch and on its own,
    gets the placeholder of 3072 components. *)
Theorem placeholder_dimension_differs :
  exists w' v1 v2,
    Embedding.embed_batch Examples.default_client (Examples.rejects_bad 1536)
      [lit "good"; lit "bad"] (Some 1) Examples.startup
    = (w', inr [v1; v2])
    /\ length v1 = 1536%nat
    /\ length v2 = 3072%nat
    /\ v2 = Embedding.zero_vector.
Proof.
  eexists _, _, _. split; [vm_compute; reflexivity|].
  by vm_compute.
Qed.

(** ** Disk cache *)

Section CacheRoundTrip.

Import DiskCache.

Context {V : Type}.
Variable md5_hexdigest : str -> str.
Variable pickle_dump : V -> list Byte.byte.
Variable pickle_load : list Byte.byte -> option V.

(** [pickle.load] reads back what [pickle.dump] wrote. *)
Hypothesis pickle_round_trip : forall v, pickle_load (pickle_dump v) = Some v.

Variable cache_dir : str.

Local Abbreviation cache_get := (get md5_hexdigest pickle_load cache_dir ReadOk).
Local Abbreviation cache_set := (set md5_hexdigest pickle_dump cache_dir WriteOk).

Lemma get_after_set fs text v : cache_get (cache_set fs text v) text = Some v.
Proof.
  unfold get, set. rewrite lookup_insert_eq. apply pickle_round_trip.
Qed.

Lemma set_twice fs text v v' :
  cache_set (cache_set fs text v) text v' = cache_set fs text v'.
Proof. unfold set. apply insert_insert_eq. Qed.

(** C7. With reads and writes that succeed, [get] after [set] on the
    same text returns the value written; writing the same value again
    changes nothing; after any sequence of writes on a text, [get]
    returns the last value written. *)
Theorem cache_round_trip fs text v earlier :
  cache_get (cache_set fs text v) text = Some v
  /\ cache_set (cache_set fs text v) text v = cache_set fs text v
  /\ cache_get
       (foldl (fun fs' v' => cache_set fs' text v') fs (earlier ++ [v])) text
     = Some v.
Proof.
  split; [apply get_after_set|]. split; [apply set_twice|].
  rewrite foldl_app. simpl. apply get_after_set.
Qed.

End CacheRoundTrip.

Lemma cache_round_trip_witness :
  DiskCache.get id Some (lit "data/cache") DiskCache.ReadOk
    (DiskCache.set id id (lit "data/cache") DiskCache.WriteOk ∅
       (lit "He said hello.") [Byte.x01; Byte.x02])
    (lit "He said hello.")
  = Some [Byte.x01; Byte.x02]
  /\ DiskCache.set id id (lit "data/cache") DiskCache.WriteOk
       (DiskCache.set id id (lit "data/cache") DiskCache.WriteOk ∅
          (lit "He said hello.") [Byte.x01; Byte.x02])
       (lit "He said hello.") [Byte.x01; Byte.x02]
     = DiskCache.set id id (lit "data/cache") DiskCache.WriteOk ∅
         (lit "He said hello.") [Byte.x01; Byte.x02]
  /\ DiskCache.get id Some (lit "data/cache") DiskCache.ReadOk
       (foldl (fun fs' v' =>
                 DiskCache.set id id (lit "data/cache") DiskCache.WriteOk fs'
                   (lit "He said hello.") v')
          ∅ ([[Byte.x03]; []] ++ [[Byte.x01; Byte.x02]]))
       (lit "He said hello.")
     = Some [Byte.x01; Byte.x02].
Proof.
  exact (cache_round_trip id id Some (fun v => eq_refl) (lit "data/cache") ∅
           (lit "He said hello.") [Byte.x01; Byte.x02] [[Byte.x03]; []]).
Defined.

(** ** Upload-record identifiers *)

Section Identifiers.

Import Cleaner Embedding Ingest.

Context {E : Type}.
Variable clean_text : str -> str -> str.
Variable spacy : str -> option E.
Variable an : analyzers.
Variable auto_categorize : str -> str.
Variable md5_hexdigest : str -> str.
Variable pickle_dump : vector -> list Byte.byte.
Variable pickle_load : list Byte.byte -> option vector.
Variable uuid5_dns : str -> str.
Variable cfg : settings.
Variable qdrant_refuses :
  world -> gmap str (point E) -> list (point E)
  -> option (exn * gmap str (point E)).
Variable stored_vector : vector -> vector.

(** The result of the character loop does not depend on the fuel that
    sufficed. *)
Lemma chunk_by_chars_loop_fuel text chunk_size overlap min_size fuel1 :
  forall fuel2 start acc result1 result2,
    chunk_by_chars_loop fuel1 text chunk_size overlap min_size start acc
    = Some result1 ->
    chunk_by_chars_loop fuel2 text chunk_size overlap min_size start acc
    = Some result2 ->
    result1 = result2.
Proof.
  induction fuel1 as [|fuel1 IH]; intros fuel2 start acc result1 result2 H1 H2;
    [discriminate|].
  destruct fuel2 as [|fuel2]; [discriminate|].
  cbn [chunk_by_chars_loop] in H1, H2.
  destruct (start <? len text); [|congruence].
  destruct (_ <=? 0); [congruence|]. by eapply IH.
Qed.

Lemma smart_chunk_fuel fuel1 fuel2 text chunk_size overlap min_chunk_size
    respect_sentence language chunks1 chunks2 :
  smart_chunk_text_enhanced fuel1 an text chunk_size overlap min_chunk_size
    respect_sentence language = Some chunks1 ->
  smart_chunk_text_enhanced fuel2 an text chunk_size overlap min_chunk_size
    respect_sentence language = Some chunks2 ->
  chunks1 = chunks2.
Proof.
  unfold smart_chunk_text_enhanced. intros H1 H2.
  destruct (_ || _); [congruence|].
  destruct (negb respect_sentence); [|congruence].
  by eapply chunk_by_chars_loop_fuel.
Qed.

(** The identifiers of the blocks of a file with [n] chunks. *)
Lemma imap_ids {X Y} (f : nat -> X -> Y) (g : Y -> str) (h : nat -> str)
    (l : list X) :
  (forall i x, g (f i x) = h i) ->
  map g (imap f l) = map h (seq 0 (length l)).
Proof.
  revert f h. induction l as [|x l IH]; intros f h Hf; [done|].
  simpl. f_equal; [apply Hf|].
  rewrite <- seq_shift, map_map. apply IH. intros i y. apply Hf.
Qed.

Lemma process_document_ids fuel name full_path loaded category documents :
  process_document clean_text spacy an auto_categorize cfg fuel name full_path
    loaded category = Some (inr documents) ->
  map doc_id documents
  = map (fun i => path_stem name ++ lit "_" ++ str_of_nat i)
      (seq 0 (length documents)).
Proof.
  unfold process_document. intros Hrun.
  destruct loaded as [e|content].
  { destruct (skip_errors cfg); [|discriminate]. by injection Hrun as <-. }
  destruct (_ || _); [by injection Hrun as <-|].
  destruct (smart_chunk_text_enhanced _ _ _ _ _ _ _ _) as [chunks|];
    [|discriminate].
  injection Hrun as <-. rewrite length_imap. by apply imap_ids.
Qed.

Lemma process_document_length fuel1 fuel2 name full_path loaded category1
    category2 documents1 documents2 :
  process_document clean_text spacy an auto_categorize cfg fuel1 name full_path
    loaded category1 = Some (inr documents1) ->
  process_document clean_text spacy an auto_categorize cfg fuel2 name full_path
    loaded category2 = Some (inr documents2) ->
  length documents1 = length documents2.
Proof.
  unfold process_document. intros H1 H2.
  destruct loaded as [e|content].
  { destruct (skip_errors cfg); [|discriminate].
    injection H1 as <-. by injection H2 as <-. }
  destruct (_ || _); [injection H1 as <-; by injection H2 as <-|].
  destruct (smart_chunk_text_enhanced fuel1 _ _ _ _ _ _ _) as [chunks1|] eqn:Hc1;
    [|discriminate].
  destruct (smart_chunk_text_enhanced fuel2 _ _ _ _ _ _ _) as [chunks2|] eqn:Hc2;
    [|discriminate].
  injection H1 as <-. injection H2 as <-. rewrite !length_imap.
  by rewrite (smart_chunk_fuel _ _ _ _ _ _ _ _ _ _ Hc1 Hc2).
Qed.

(** The embedding stage keeps the blocks and their identifiers. *)
Lemma map_alter_same {X Y} (g : X -> Y) (f : X -> X) (i : nat) (l : list X) :
  (forall x, g (f x) = g x) -> map g (alter f i l) = map g l.
Proof.
  intros Hf. revert i. induction l as [|x l IH]; intros [|i]; simpl; try done.
  - by rewrite Hf.
  - f_equal. apply IH.
Qed.

Lemma collect_texts_ids cache fs (documents : list (document E)) : forall i,
  map doc_id (collect_texts md5_hexdigest pickle_load cache fs i documents).1
  = map doc_id documents.
Proof.
  induction documents as [|doc rest IH]; intros i; [done|].
  cbn [collect_texts]. specialize (IH (S i)).
  destruct (collect_texts _ _ _ _ _ rest) as [rest' texts].
  destruct (cache_get _ _ _ _ _); simpl in *; by rewrite IH.
Qed.

Lemma assign_embeddings_ids cache pairs : forall (documents : list (document E)) fs,
  map doc_id
    (assign_embeddings md5_hexdigest pickle_dump cache pairs documents fs).1
  = map doc_id documents.
Proof.
  induction pairs as [|[idx emb] rest IH]; intros documents fs; [done|].
  cbn [assign_embeddings]. rewrite IH. by apply map_alter_same.
Qed.

Lemma embed_documents_ids (c : client) (srv : remote)
    (cache : option cache_handle) (documents : list (document E))
    (fs : gmap str (list Byte.byte)) :
  returns
    (embed_documents md5_hexdigest pickle_dump pickle_load cfg c srv cache
       documents fs)
    (fun r => map doc_id r.1 = map doc_id documents).
Proof.
  unfold embed_documents.
  pose proof (collect_texts_ids cache fs documents 0%nat) as Hids.
  destruct (collect_texts _ _ _ _ _ documents) as [documents' texts].
  simpl in Hids.
  destruct (is_empty texts); [by apply returns_ret|].
  eapply returns_bind; [apply returns_true | intros embeddings _].
  apply returns_ret. by rewrite assign_embeddings_ids.
Qed.

(** The points carry the identifiers of the blocks, through [uuid5]. *)
Lemma build_points_ids (documents : list (document E)) : forall points,
  build_points uuid5_dns documents = inr points ->
  map point_id points = map uuid5_dns (map doc_id documents).
Proof.
  induction documents as [|doc rest IH]; intros points Hrun;
    cbn [build_points] in Hrun.
  - by injection Hrun as <-.
  - destruct (doc_vector doc); [|discriminate].
    destruct (build_points uuid5_dns rest) as [e|points']; [discriminate|].
    injection Hrun as <-. simpl. f_equal. by apply IH.
Qed.

(** The collection after a request that is taken holds the identifiers
    it held and those of the points of the request. *)
Lemma written_dom (points : list (point E)) : forall store : gmap str (point E),
  dom (written stored_vector store points)
  = dom store ∪ list_to_set (map point_id points).
Proof.
  unfold written.
  induction points as [|p rest IH]; intros store; simpl.
  - set_solver.
  - rewrite IH, dom_insert_L. set_solver.
Qed.

Lemma qdrant_upsert_taken (store : gmap str (point E)) (points : list (point E)) :
  returns (qdrant_upsert qdrant_refuses stored_vector store points)
    (fun reached =>
       reached.2 = None -> reached.1 = written stored_vector store points).
Proof.
  intros w w' reached. unfold qdrant_upsert.
  destruct (qdrant_refuses w store points) as [[e left_as]|];
    intros [= _ <-]; simpl; done.
Qed.

(** The collection after an upload that no request ended holds the
    identifiers it held and those of the points uploaded. *)
Lemma upload_loop_dom all_points batch_size starts :
  forall store : gmap str (point E),
  returns (upload_loop qdrant_refuses stored_vector all_points batch_size
             starts store)
    (fun reached =>
       reached.2 = None ->
       dom reached.1
       = dom store
         ∪ list_to_set
             (map point_id
                (concat (map (fun i => slice all_points i (i + batch_size))
                           starts)))).
Proof.
  induction starts as [|i rest IH]; intros store; cbn [upload_loop].
  - apply returns_ret. simpl. set_solver.
  - eapply returns_bind; [apply qdrant_upsert_taken|].
    intros [store' [e|]] Htaken; [by apply returns_ret|].
    simpl in Htaken. rewrite (Htaken eq_refl).
    eapply returns_bind; [apply returns_true | intros ? _].
    eapply returns_weaken; [apply IH|].
    intros reached Hdom Hnone. rewrite (Hdom Hnone), written_dom. simpl.
    rewrite map_app, list_to_set_app_L. set_solver.
Qed.

Lemma upsert_to_qdrant_dom (documents : list (document E))
    (store : gmap str (point E)) :
  returns (upsert_to_qdrant uuid5_dns qdrant_refuses stored_vector documents
             store)
    (fun reached =>
       reached.2 = None ->
       dom reached.1
       = dom store ∪ list_to_set (map uuid5_dns (map doc_id documents))).
Proof.
  unfold upsert_to_qdrant.
  destruct (build_points uuid5_dns documents) as [e|all_points] eqn:Hpoints;
    [by apply returns_ret|].
  cbv zeta.
  destruct (batch_iterator_concat all_points 500 ltac:(lia))
    as (batches & Hbatches & Hconcat).
  unfold Helpers.batch_iterator in Hbatches.
  destruct (range 0 (len all_points) 500) as [starts|]; [|discriminate].
  injection Hbatches as <-. simpl.
  eapply returns_weaken; [apply upload_loop_dom|].
  intros reached Hdom Hnone.
  by rewrite (Hdom Hnone), Hconcat, (build_points_ids _ _ Hpoints).
Qed.

Lemma embed_and_upsert_dom (c : client) (srv : remote)
    (cache : option cache_handle) (documents : list (document E))
    (fs : gmap str (list Byte.byte))
    (store : gmap str (point E)) :
  returns
    (embed_and_upsert md5_hexdigest pickle_dump pickle_load uuid5_dns cfg
       qdrant_refuses stored_vector c srv cache documents fs store)
    (fun r =>
       dom r.2 = dom store ∪ list_to_set (map uuid5_dns (map doc_id documents))).
Proof.
  unfold embed_and_upsert.
  eapply returns_bind; [apply embed_documents_ids|].
  intros [documents' fs'] Hids. simpl in Hids.
  eapply returns_bind; [apply upsert_to_qdrant_dom|].
  intros [store' [e|]] Hdom; [apply returns_raise|].
  apply returns_ret. simpl in *. by rewrite (Hdom eq_refl), Hids.
Qed.

Lemma proj1_and_2 (P Q S : Prop) : P /\ Q /\ S -> P /\ Q.
Proof. tauto. Qed.

(** C8. Two ingestions of the same file, with the same content, cleaner
    and settings, upload the same set of identifiers, whatever the
    endpoint, the cache, the clock and the category argument of each
    run: the identifiers are [uuid5] of [stem_i] for the chunk indices
    [i].  The second run adds no identifier to a collection that holds
    those of the first. *)
Theorem reingestion_same_identifiers
    (name full_path : str) (loaded : exn + str) (store : gmap str (point E))
    (fuel1 : nat) (category1 : option str) (c1 : client) (srv1 : remote)
    (cache1 : option cache_handle) (fs1 : gmap str (list Byte.byte))
    (w1 : world) (documents1 : list (document E)) (w1' : world)
    (fs1' : gmap str (list Byte.byte)) (store1 : gmap str (point E))
    (fuel2 : nat) (category2 : option str) (c2 : client) (srv2 : remote)
    (cache2 : option cache_handle) (fs2 : gmap str (list Byte.byte))
    (w2 : world) (documents2 : list (document E)) (w2' : world)
    (fs2' : gmap str (list Byte.byte)) (store2 : gmap str (point E)) :
  process_document clean_text spacy an auto_categorize cfg fuel1 name full_path
    loaded category1 = Some (inr documents1) ->
  embed_and_upsert md5_hexdigest pickle_dump pickle_load uuid5_dns cfg
    qdrant_refuses stored_vector c1 srv1
    cache1 documents1 fs1 store w1 = (w1', inr (fs1', store1)) ->
  process_document clean_text spacy an auto_categorize cfg fuel2 name full_path
    loaded category2 = Some (inr documents2) ->
  embed_and_upsert md5_hexdigest pickle_dump pickle_load uuid5_dns cfg
    qdrant_refuses stored_vector c2 srv2
    cache2 documents2 fs2 store1 w2 = (w2', inr (fs2', store2)) ->
  let identifiers : gset str :=
    list_to_set
      (map (fun i => uuid5_dns (path_stem name ++ lit "_" ++ str_of_nat i))
         (seq 0 (length documents1))) in
  dom store1 = dom store ∪ identifiers
  /\ dom store2 = dom store1
  /\ map uuid5_dns (map doc_id documents1) = map uuid5_dns (map doc_id documents2).
Proof.
  intros Hdocs1 Hrun1 Hdocs2 Hrun2 identifiers.
  pose proof (process_document_ids _ _ _ _ _ _ Hdocs1) as Hids1.
  pose proof (process_document_ids _ _ _ _ _ _ Hdocs2) as Hids2.
  rewrite <- (process_document_length _ _ _ _ _ _ _ _ _ Hdocs1 Hdocs2) in Hids2.
  apply embed_and_upsert_dom in Hrun1. apply embed_and_upsert_dom in Hrun2.
  simpl in Hrun1, Hrun2.
  assert (Hset : list_to_set (map uuid5_dns (map doc_id documents1))
                 = identifiers).
  { subst identifiers. by rewrite Hids1, map_map. }
  split; [by rewrite Hrun1, Hset|].
  split; [|by rewrite Hids1, Hids2].
  rewrite Hrun2, Hids2, <- Hids1, Hset, Hrun1, Hset. set_solver.
Qed.

End Identifiers.

Lemma reingestion_same_identifiers_witness :
  dom (Examples.collection_after Examples.first_run)
  = dom (∅ : gmap str (Ingest.point unit))
    ∪ list_to_set
        (map (fun i => Examples.uuid5_stub
                         (Ingest.path_stem (lit "smith.txt") ++ lit "_"
                          ++ str_of_nat i))
           (seq 0 (length (Examples.smith_documents None))))
  /\ dom (Examples.collection_after Examples.second_run)
     = dom (Examples.collection_after Examples.first_run).
Proof.
  eapply proj1_and_2.
  apply (reingestion_same_identifiers Examples.keep_text
           Examples.no_enrichment Examples.regex_only Examples.general
           Examples.md5_stub Examples.dump_stub Examples.load_stub
           Examples.uuid5_stub Examples.small_chunks
           (Examples.checks_dimension 3) Examples.unit_length
           (lit "smith.txt") (lit "docs/smith.txt") (inr Examples.smith) ∅
           0 None Examples.default_client (Examples.rejects_bad 3) None ∅
           Examples.startup (Examples.smith_documents None)
           (Examples.first_run.1) (Examples.files_after Examples.first_run)
           (Examples.collection_after Examples.first_run)
           0 (Some (lit "people")) Examples.single_try
           (Examples.rejects_bad 3) (Some Examples.cache_on) ∅
           Examples.startup (Examples.smith_documents (Some (lit "people")))
           (Examples.second_run.1) (Examples.files_after Examples.second_run)
           (Examples.collection_after Examples.second_run));
    reflexivity.
Defined.

(** * Further properties of the code *)

(** ** White space stripping *)

Section Strip.

Lemma lstrip_suffix s : exists spaces, s = spaces ++ lstrip s.
Proof.
  induction s as [|c s [spaces IH]]; [by exists []|].
  simpl. destruct (isspace c); [|by exists []].
  exists (c :: spaces). simpl. by f_equal.
Qed.

Lemma lstrip_head s c : head (lstrip s) = Some c -> isspace c = false.
Proof.
  induction s as [|x s IH]; [done|]. simpl.
  destruct (isspace x) eqn:Hx; [done|]. simpl. by intros [= <-].
Qed.

Lemma lstrip_fixed s :
  (forall c, head s = Some c -> isspace c = false) -> lstrip s = s.
Proof.
  destruct s as [|x s]; [done|]. intros Hhead. simpl.
  by rewrite (Hhead x eq_refl).
Qed.

Lemma rstrip_nil : rstrip [] = [].
Proof. done. Qed.

Lemma rstrip_snoc s c :
  rstrip (s ++ [c]) = if isspace c then rstrip s else s ++ [c].
Proof.
  unfold rstrip. rewrite reverse_app. simpl.
  destruct (isspace c); [done|].
  by rewrite reverse_cons, reverse_involutive.
Qed.

Lemma rstrip_prefix s : exists spaces, s = rstrip s ++ spaces.
Proof.
  induction s as [|c s [spaces IH]] using rev_ind; [by exists []|].
  rewrite rstrip_snoc. destruct (isspace c).
  - exists (spaces ++ [c]). by rewrite app_assoc, <- IH.
  - exists []. by rewrite app_nil_r.
Qed.

Lemma rstrip_fixed s :
  (forall c, last s = Some c -> isspace c = false) -> rstrip s = s.
Proof.
  destruct s as [|c s _] using rev_ind; [done|]. intros Hlast.
  rewrite rstrip_snoc, (Hlast c); [done|]. by rewrite last_snoc.
Qed.

Lemma rstrip_last s c : last (rstrip s) = Some c -> isspace c = false.
Proof.
  induction s as [|x s IH] using rev_ind; [done|].
  rewrite rstrip_snoc. destruct (isspace x) eqn:Hx; [done|].
  rewrite last_snoc. by intros [= <-].
Qed.

Lemma rstrip_head s c :
  head s = Some c -> isspace c = false -> head (rstrip s) = Some c.
Proof.
  induction s as [|x s IH] using rev_ind; [done|]. intros Hhead Hc.
  rewrite rstrip_snoc. destruct (isspace x) eqn:Hx; [|done].
  destruct s as [|y s]; simpl in Hhead.
  - injection Hhead as ->. congruence.
  - by apply IH.
Qed.

Lemma rstrip_keeps_head s c :
  (forall x, head s = Some x -> isspace x = false) ->
  head (rstrip s) = Some c -> isspace c = false.
Proof.
  intros Hs Hc. destruct s as [|x s]; [done|].
  specialize (Hs x eq_refl).
  rewrite (rstrip_head (x :: s) x eq_refl Hs) in Hc. by injection Hc as <-.
Qed.

(** A stripped text starts and ends with a character that is not
    white space. *)
Lemma strip_ends s :
  (forall c, head (strip s) = Some c -> isspace c = false)
  /\ (forall c, last (strip s) = Some c -> isspace c = false).
Proof.
  unfold strip. split.
  - intros c. apply rstrip_keeps_head. apply lstrip_head.
  - apply rstrip_last.
Qed.

Lemma strip_fixed s :
  (forall c, head s = Some c -> isspace c = false) ->
  (forall c, last s = Some c -> isspace c = false) ->
  strip s = s.
Proof.
  intros Hhead Hlast. unfold strip. rewrite (lstrip_fixed s Hhead).
  by apply rstrip_fixed.
Qed.

Lemma strip_idempotent s : strip (strip s) = strip s.
Proof. apply strip_fixed; apply strip_ends. Qed.

Lemma strip_middle s : exists before after, s = before ++ strip s ++ after.
Proof.
  destruct (lstrip_suffix s) as [before Hb].
  destruct (rstrip_prefix (lstrip s)) as [after Ha].
  exists before, after. unfold strip. by rewrite <- Ha.
Qed.

Lemma strip_length s : (length (strip s) <= length s)%nat.
Proof.
  destruct (strip_middle s) as (before & after & Hs).
  rewrite Hs at 2. rewrite !length_app. lia.
Qed.

Lemma strip_Forall (P : ascii -> Prop) s : Forall P s -> Forall P (strip s).
Proof.
  destruct (strip_middle s) as (before & after & Hs). intros Hall.
  rewrite Hs in Hall. by apply Forall_app in Hall as [_ [? _]%Forall_app].
Qed.

End Strip.

(** ** Text validation of the embedding client *)

Section Validate.

Import Embedding.

Lemma slice_to_length {A} (l : list A) (n : Z) :
  0 <= n -> len (slice_to l n) <= n.
Proof.
  intros Hn. unfold slice_to, len, bound. rewrite length_take.
  destruct (Z.ltb_spec n 0); lia.
Qed.

Lemma slice_to_Forall {A} (P : A -> Prop) (l : list A) (n : Z) :
  Forall P l -> Forall P (slice_to l n).
Proof. intros Hall. unfold slice_to. by apply Forall_take. Qed.

Lemma validated_text_safe text :
  let sent := validate_and_clean_text text in
  sent <> []
  /\ len sent <= 30000
  /\ strip sent = sent
  /\ Forall (fun c => is_control c = false) sent.
Proof.
  cbv zeta. unfold validate_and_clean_text.
  assert (Hempty : lit "empty" <> []
                   /\ len (lit "empty") <= 30000
                   /\ strip (lit "empty") = lit "empty"
                   /\ Forall (fun c => is_control c = false) (lit "empty")).
  { split; [done|]. split; [by vm_compute|]. split; [done|].
    repeat constructor. }
  destruct (_ || _); [exact Hempty|].
  set (kept := filter _ text).
  set (cut := if 30000 <? len kept then slice_to kept 30000 else kept).
  assert (Hkept : Forall (fun c => is_control c = false) kept)
    by (apply Forall_forall; intros c Hc; by apply list_elem_of_filter in Hc as [? _]).
  assert (Hcut : Forall (fun c => is_control c = false) cut /\ len cut <= 30000).
  { subst cut. destruct (Z.ltb_spec 30000 (len kept)).
    - split; [by apply slice_to_Forall | by apply slice_to_length].
    - split; [done | lia]. }
  destruct Hcut as [Hcut Hcutlen].
  destruct (Cleaner.is_empty (strip cut)) eqn:Hnil; [exact Hempty|].
  split; [by destruct (strip cut)|].
  split; [pose proof (strip_length cut); unfold len in *; lia|].
  split; [apply strip_idempotent | by apply strip_Forall].
Qed.

(** What is sent for a text: not empty, stripped, at most 30000
    characters, without the control characters that the client
    removes. *)
Theorem validate_and_clean_text_safe text :
  let sent := validate_and_clean_text text in
  sent <> []
  /\ len sent <= 30000
  /\ strip sent = sent
  /\ Forall (fun c => is_control c = false) sent.
Proof. apply validated_text_safe. Qed.

Lemma filter_fixed {A} (P : A -> Prop) `{!forall x, Decision (P x)} (l : list A) :
  Forall P l -> filter P l = l.
Proof.
  induction 1 as [|x l Hx _ IH]; [done|].
  rewrite filter_cons. destruct (decide (P x)); [by rewrite IH | done].
Qed.

(** Cleaning a cleaned text changes nothing. *)
Theorem validate_and_clean_text_idempotent text :
  validate_and_clean_text (validate_and_clean_text text)
  = validate_and_clean_text text.
Proof.
  destruct (validated_text_safe text) as (Hne & Hlen & Hstrip & Hctl).
  set (sent := validate_and_clean_text text) in *.
  unfold validate_and_clean_text at 1. fold sent.
  rewrite Hstrip, (is_empty_false sent Hne). simpl orb. cbv iota zeta.
  rewrite (filter_fixed _ sent Hctl).
  destruct (Z.ltb_spec 30000 (len sent)); [lia|].
  by rewrite Hstrip, (is_empty_false sent Hne).
Qed.

End Validate.

(** ** Requests sent by the embedding client *)

Section Requests.

Import Embedding Notions.

Lemma requests_ret {A} (a : A) : requests (mret a) 0.
Proof. intros w w' r [= <- _]. lia. Qed.

Lemma requests_raise {A} (e : exn) : requests (raise (A := A) e) 0.
Proof. intros w w' r [= <- _]. lia. Qed.

Lemma requests_sleep d : requests (time_sleep d) 0.
Proof.
  intros w w' r. unfold time_sleep.
  destruct (Qlt_bool d 0); intros [= <- _]; simpl; lia.
Qed.

Lemma requests_post srv payload : requests (post srv payload) 1.
Proof.
  intros w w' r. unfold post.
  destruct (srv (calls w) payload); intros [= <- _]; simpl; lia.
Qed.

Lemma requests_bind {A B} (m : M A) (k : A -> M B) n1 n2 :
  requests m n1 -> (forall a, requests (k a) n2) ->
  requests (m ≫= k) (n1 + n2).
Proof.
  intros Hm Hk w w' r. cbv [mbind M_bind].
  destruct (m w) as [w1 [e|a]] eqn:Hrun.
  - intros [= <- _]. apply Hm in Hrun. lia.
  - intros Hrun'. apply Hm in Hrun. apply Hk in Hrun'. lia.
Qed.

Lemma requests_try {A} (m : M A) (h : exn -> M A) n1 n2 :
  requests m n1 -> (forall e, requests (h e) n2) ->
  requests (try_except m h) (n1 + n2).
Proof.
  intros Hm Hh w w' r. unfold try_except.
  destruct (m w) as [w1 [e|a]] eqn:Hrun.
  - intros Hrun'. apply Hm in Hrun. apply Hh in Hrun'. lia.
  - intros [= <- _]. apply Hm in Hrun. lia.
Qed.

End Requests.

(** Steps that send no request. *)
Ltac no_request :=
  repeat first
    [ apply requests_ret
    | apply requests_raise
    | apply requests_sleep
    | (apply (requests_bind _ _ 0 0); [|intros ?])
    | match goal with
      | |- Notions.requests (if ?b then _ else _) _ => destruct b
      | |- Notions.requests (match ?x with _ => _ end) _ => destruct x
      end ].

Section RequestBound.

Import Embedding Notions.

Variable c : client.
Variable srv : remote.

Lemma attempt_try_requests {A} payload (pick : list vector -> M A) :
  (forall embeddings, requests (pick embeddings) 0) ->
  requests (attempt_try srv payload pick) 1.
Proof.
  intros Hpick. unfold attempt_try.
  apply (requests_bind _ _ 1 0); [apply requests_post | intros r].
  destruct (status_code r =? 429).
  - unfold int_retry_after. no_request.
  - unfold raise_for_status, json_embeddings.
    apply (requests_bind _ _ 0 0); [no_request | intros _].
    apply (requests_bind _ _ 0 0); [no_request | intros embeddings].
    apply (requests_bind _ _ 0 0); [apply Hpick | intros a]. no_request.
Qed.

Lemma attempt_except_requests {A} attempt e :
  requests (attempt_except (A := A) c attempt e) 0.
Proof.
  unfold attempt_except, int_retry_after. destruct e as [r|msg]; cbv zeta;
    no_request.
Qed.

Lemma embed_attempts_requests {A} payload (pick : list vector -> M A) attempts :
  (forall embeddings, requests (pick embeddings) 0) ->
  requests (embed_attempts c srv payload pick attempts) (length attempts).
Proof.
  intros Hpick. induction attempts as [|attempt rest IH]; cbn [embed_attempts].
  - apply requests_raise.
  - apply (requests_bind _ _ 1 (length rest)).
    + apply (requests_try _ _ 1 0);
        [by apply attempt_try_requests | intros e; apply attempt_except_requests].
    + intros [a|]; [|exact IH].
      intros w w' r [= <- _]. lia.
Qed.

Lemma attempts_of_range :
  attempts_of c = map Z.of_nat (seq 0 (Z.to_nat (max_retries c))).
Proof.
  unfold attempts_of, range. simpl.
  rewrite Z.sub_0_r, Z.add_simpl_r, Z.div_1_r. simpl.
  apply map_ext. intros k. lia.
Qed.

Lemma attempts_of_length : length (attempts_of c) = Z.to_nat (max_retries c).
Proof. by rewrite attempts_of_range, length_map, length_seq. Qed.

(** One call of [embed] sends at most [max_retries] requests, for a list
    of texts and for a single text, whatever the endpoint answers. *)
Theorem embed_requests_bounded :
  (forall texts, requests (embed c srv texts) (Z.to_nat (max_retries c)))
  /\ (forall text, requests (embed_single c srv text) (Z.to_nat (max_retries c))).
Proof.
  split; intros t; unfold embed, embed_single; rewrite <- attempts_of_length;
    apply embed_attempts_requests; intros embeddings.
  - apply requests_ret.
  - destruct embeddings; [apply requests_raise | apply requests_ret].
Qed.

(** When every request fails before an answer comes (connection error,
    time out), the attempts are separated by sleeps of 1, 2, 4, ...
    seconds and the last exception goes to the caller. *)
Lemma embed_attempts_backoff {A} payload (pick : list vector -> M A)
    (latency : nat -> Q) (msg : nat -> str) (w : world) (m : nat) :
  max_retries c = Z.of_nat m ->
  (forall k, (k < m)%nat ->
     srv (calls w + k)%nat payload = PostRaised (latency k) (msg k)) ->
  forall n a w0,
    (a + S n = m)%nat -> calls w0 = (calls w + a)%nat ->
    exists w',
      embed_attempts c srv payload pick (map Z.of_nat (seq a (S n))) w0
      = (w', inl (OtherError (msg (m - 1)%nat)))
      /\ calls w' = (calls w + m)%nat
      /\ sleeps w'
         = sleeps w0 ++ map (fun i => inject_Z (2 ^ Z.of_nat i)) (seq a n).
Proof.
  intros Hmax Hsrv. induction n as [|n IH]; intros a w0 Ham Hcalls.
  - cbn [seq map embed_attempts].
    cbv [mbind M_bind try_except attempt_try post].
    rewrite Hcalls, Hsrv by lia. cbn [attempt_except].
    destruct (Z.ltb_spec (Z.of_nat a) (max_retries c - 1)); [lia|].
    eexists. split; [unfold raise; repeat f_equal; lia|].
    simpl. split; [lia | by rewrite app_nil_r].
  - replace (seq a (S (S n))) with (a :: seq (S a) (S n)) by done.
    rewrite map_cons. set (rest := map Z.of_nat (seq (S a) (S n))).
    cbn [embed_attempts].
    cbv [mbind M_bind try_except attempt_try post].
    rewrite Hcalls, Hsrv by lia. cbn [attempt_except].
    destruct (Z.ltb_spec (Z.of_nat a) (max_retries c - 1)); [|lia].
    cbv [mbind M_bind]. rewrite sleep_nonneg by (apply Z.pow_nonneg; lia).
    cbv [mret M_ret]. subst rest.
    edestruct (IH (S a)) as (w' & Hrun & Hc & Hs); [lia | | ].
    2:{ rewrite Hrun. exists w'.
        split; [done|]. split; [done|].
        rewrite Hs. simpl. by rewrite <- app_assoc. }
    simpl. lia.
Qed.

Theorem embed_backoff_schedule texts (latency : nat -> Q) (msg : nat -> str)
    (w : world) (m : nat) :
  max_retries c = Z.of_nat (S m) ->
  (forall k, (k <= m)%nat ->
     srv (calls w + k)%nat (map validate_and_clean_text texts)
     = PostRaised (latency k) (msg k)) ->
  exists w',
    embed c srv texts w = (w', inl (OtherError (msg m)))
    /\ calls w' = (calls w + S m)%nat
    /\ sleeps w'
       = sleeps w ++ map (fun i => inject_Z (2 ^ Z.of_nat i)) (seq 0 m).
Proof.
  intros Hmax Hsrv. unfold embed. rewrite attempts_of_range, Hmax, Nat2Z.id.
  destruct (embed_attempts_backoff (map validate_and_clean_text texts) mret
              latency msg w (S m) Hmax) with (n := m) (a := 0%nat) (w0 := w)
    as (w' & Hrun & Hc & Hs); [intros k Hk; apply Hsrv; lia | lia | lia |].
  exists w'. rewrite Nat.sub_succ, Nat.sub_0_r in Hrun. by rewrite Hrun.
Qed.

(** When every request is answered with an error status other than
    429, the attempts follow one another without any sleep and the
    [HTTPError] of the last answer goes to the caller. *)
Lemma embed_attempts_http_errors {A} payload (pick : list vector -> M A)
    (latency : nat -> Q) (answer : nat -> response) (w : world) (m : nat) :
  max_retries c = Z.of_nat m ->
  (forall k, (k < m)%nat ->
     srv (calls w + k)%nat payload = PostReturned (latency k) (answer k)
     /\ status_code (answer k) <> 429
     /\ 400 <= status_code (answer k) < 600) ->
  forall n a w0,
    (a + S n = m)%nat -> calls w0 = (calls w + a)%nat ->
    exists w',
      embed_attempts c srv payload pick (map Z.of_nat (seq a (S n))) w0
      = (w', inl (HTTPError (answer (m - 1)%nat)))
      /\ calls w' = (calls w + m)%nat
      /\ sleeps w' = sleeps w0.
Proof.
  intros Hmax Hsrv. induction n as [|n IH]; intros a w0 Ham Hcalls.
  - cbn [seq map embed_attempts].
    destruct (Hsrv a ltac:(lia)) as (Ha & H429 & Hst).
    cbv [mbind M_bind try_except attempt_try post].
    rewrite Hcalls, Ha.
    destruct (Z.eqb_spec (status_code (answer a)) 429); [done|].
    unfold raise_for_status.
    destruct (Z.leb_spec 400 (status_code (answer a))); [|lia].
    destruct (Z.ltb_spec (status_code (answer a)) 600); [|lia].
    cbn [andb raise attempt_except].
    destruct (Z.eqb_spec (status_code (answer a)) 429); [done|].
    destruct (Z.eqb_spec (Z.of_nat a) (max_retries c - 1)); [|lia].
    eexists. split; [unfold raise; repeat f_equal; lia|].
    simpl. split; [lia | done].
  - replace (seq a (S (S n))) with (a :: seq (S a) (S n)) by done.
    rewrite map_cons. set (rest := map Z.of_nat (seq (S a) (S n))).
    cbn [embed_attempts].
    destruct (Hsrv a ltac:(lia)) as (Ha & H429 & Hst).
    cbv [mbind M_bind try_except attempt_try post].
    rewrite Hcalls, Ha.
    destruct (Z.eqb_spec (status_code (answer a)) 429); [done|].
    unfold raise_for_status.
    destruct (Z.leb_spec 400 (status_code (answer a))); [|lia].
    destruct (Z.ltb_spec (status_code (answer a)) 600); [|lia].
    cbn [andb raise attempt_except].
    destruct (Z.eqb_spec (status_code (answer a)) 429); [done|].
    destruct (Z.eqb_spec (Z.of_nat a) (max_retries c - 1)); [lia|].
    cbv [mret M_ret]. subst rest.
    edestruct (IH (S a)) as (w' & Hrun & Hc & Hs); [lia | | ].
    2:{ rewrite Hrun. exists w'.
        split; [done|]. split; [done|]. by rewrite Hs. }
    simpl. lia.
Qed.

Theorem embed_http_errors_retried_at_once texts (latency : nat -> Q)
    (answer : nat -> response) (w : world) (m : nat) :
  max_retries c = Z.of_nat (S m) ->
  (forall k, (k <= m)%nat ->
     srv (calls w + k)%nat (map validate_and_clean_text texts)
     = PostReturned (latency k) (answer k)
     /\ status_code (answer k) <> 429
     /\ 400 <= status_code (answer k) < 600) ->
  exists w',
    embed c srv texts w = (w', inl (HTTPError (answer m)))
    /\ calls w' = (calls w + S m)%nat
    /\ sleeps w' = sleeps w.
Proof.
  intros Hmax Hsrv. unfold embed. rewrite attempts_of_range, Hmax, Nat2Z.id.
  destruct (embed_attempts_http_errors (map validate_and_clean_text texts) mret
              latency answer w (S m) Hmax) with (n := m) (a := 0%nat) (w0 := w)
    as (w' & Hrun & Hc & Hs); [intros k Hk; apply Hsrv; lia | lia | lia |].
  exists w'. rewrite Nat.sub_succ, Nat.sub_0_r in Hrun. by rewrite Hrun.
Qed.

End RequestBound.

Lemma embed_backoff_schedule_witness :
  exists w',
    Embedding.embed Examples.default_client Examples.unreachable [lit "hello"]
      Examples.startup
    = (w', inl (Embedding.OtherError (lit "Connection refused")))
    /\ Embedding.calls w' = 3%nat
    /\ Embedding.sleeps w' = [inject_Z 1; inject_Z 2].
Proof.
  apply (embed_backoff_schedule Examples.default_client Examples.unreachable
           [lit "hello"] (fun _ => 1 # 4) (fun _ => lit "Connection refused")
           Examples.startup 2).
  - reflexivity.
  - intros k Hk. reflexivity.
Defined.

Lemma embed_http_errors_retried_at_once_witness :
  exists w',
    Embedding.embed Examples.default_client (Examples.rejects_bad 3) [lit "bad"]
      Examples.startup
    = (w', inl (Embedding.HTTPError Examples.bad_request))
    /\ Embedding.calls w' = 3%nat
    /\ Embedding.sleeps w' = [].
Proof.
  apply (embed_http_errors_retried_at_once Examples.default_client
           (Examples.rejects_bad 3) [lit "bad"] (fun _ => 1 # 4)
           (fun _ => Examples.bad_request) Examples.startup 2).
  - reflexivity.
  - intros k Hk. split; [reflexivity|]. simpl. lia.
Defined.

(** ** Exceptions that leave [embed_batch] *)

Section Raises.

Import Embedding Notions.

Context {A : Type}.

Lemma raises_ret (a : A) (P : exn -> Prop) : raises (mret a) P.
Proof. intros w w' e [=]. Qed.

Lemma raises_raise (e : exn) (P : exn -> Prop) : P e -> raises (raise (A := A) e) P.
Proof. intros HP w w' e' [= _ <-]. exact HP. Qed.

Lemma raises_weaken (m : M A) (P Q : exn -> Prop) :
  raises m P -> (forall e, P e -> Q e) -> raises m Q.
Proof. intros Hm HPQ w w' e Hrun. eapply HPQ, Hm, Hrun. Qed.

Lemma raises_bind {B} (m : M B) (k : B -> M A) (P : exn -> Prop) :
  raises m P -> (forall b, raises (k b) P) -> raises (m ≫= k) P.
Proof.
  intros Hm Hk w w' e. cbv [mbind M_bind].
  destruct (m w) as [w1 [e1|b]] eqn:Hrun.
  - intros [= _ <-]. eapply Hm, Hrun.
  - apply Hk.
Qed.

Lemma raises_try (m : M A) (h : exn -> M A) (P : exn -> Prop) :
  (forall e, raises (h e) P) -> raises (try_except m h) P.
Proof.
  intros Hh w w' e. unfold try_except.
  destruct (m w) as [w1 [e1|b]] eqn:Hrun; [apply Hh | discriminate].
Qed.

End Raises.

Section BatchRaises.

Import Embedding Notions.

Variable c : client.
Variable srv : remote.

Local Abbreviation never := (fun _ : exn => False).

Lemma sleep_never_raises (d : Q) : (0 <= d)%Q -> raises (time_sleep d) never.
Proof.
  intros Hd w w' e. unfold time_sleep, Qlt_bool.
  apply Qle_bool_iff in Hd. by rewrite Hd.
Qed.

Lemma rate_guard_never_raises st : raises (rate_guard st) never.
Proof.
  unfold rate_guard. destruct (50 <=? request_count st); [|apply raises_ret].
  apply raises_bind; [by intros w w' e [=] | intros t].
  destruct (Qlt_bool (t - start_minute st) 60) eqn:Hlt; [|apply raises_ret].
  apply raises_bind.
  - apply sleep_never_raises. unfold Qlt_bool in Hlt.
    apply negb_true_iff in Hlt.
    assert (Hn : ~ (60 <= t - start_minute st)%Q)
      by (intros Hle%Qle_bool_iff; congruence).
    lra.
  - intros _. apply raises_bind; [by intros w w' e [=] | intros t'].
    apply raises_ret.
Qed.

Lemma embed_each_never_raises batch : forall st,
  raises (embed_each c srv batch st) never.
Proof.
  induction batch as [|text rest IH]; intros st; cbn [embed_each].
  - apply raises_ret.
  - apply raises_bind; [|intros st'; apply IH].
    apply raises_try. intros _. apply raises_ret.
Qed.

Lemma batch_except_raises batch st e :
  raises (batch_except c srv batch st e) (fun e' => marked e' = false).
Proof.
  unfold batch_except. cbv zeta.
  destruct (_ || _) eqn:Hrate.
  - apply raises_bind.
    + eapply raises_weaken; [apply sleep_never_raises; lra | done].
    + intros _. apply raises_try. intros _. apply raises_ret.
  - destruct (contains (lit "400") _ || _) eqn:Hbad.
    + eapply raises_weaken; [apply embed_each_never_raises | done].
    + apply raises_raise. unfold marked. cbv zeta.
      apply orb_false_iff in Hbad as [H400 Hmodel].
      by rewrite Hrate, H400, Hmodel.
Qed.

Lemma batch_iteration_raises batch st :
  raises (batch_iteration c srv batch st) (fun e => marked e = false).
Proof.
  unfold batch_iteration. apply raises_bind.
  - eapply raises_weaken; [apply rate_guard_never_raises | done].
  - intros st'. apply raises_try. intros e. apply batch_except_raises.
Qed.

Lemma batch_loop_raises batches : forall st,
  raises (batch_loop c srv batches st) (fun e => marked e = false).
Proof.
  induction batches as [|batch rest IH]; intros st; cbn [batch_loop].
  - apply raises_ret.
  - apply raises_bind; [apply batch_iteration_raises | intros st'; apply IH].
Qed.

(** An exception leaves [embed_batch] only when its text carries none
    of the marks [rate limit], [429], [400] and [model_error]: a failure
    with one of them ends in a retry or in placeholders, never in an
    exception. *)
Theorem embed_batch_raises_unmarked texts batch_size w w' e :
  embed_batch c srv texts batch_size w = (w', inl e) ->
  marked e = false.
Proof.
  revert w w' e. change (raises (embed_batch c srv texts batch_size)
                           (fun e => marked e = false)).
  unfold embed_batch. cbv zeta.
  destruct (Helpers.batch_iterator texts _) as [batches|].
  - apply raises_bind; [by intros w w' e [=] | intros t].
    apply raises_bind; [apply batch_loop_raises | intros st].
    apply raises_ret.
  - by apply raises_raise.
Qed.

End BatchRaises.

Lemma embed_batch_raises_unmarked_witness :
  Notions.marked (Embedding.OtherError (lit "Connection refused")) = false.
Proof.
  eapply (embed_batch_raises_unmarked Examples.default_client
            Examples.unreachable [lit "hello"] (Some 2) Examples.startup).
  reflexivity.
Defined.

(** ** retry_on_failure *)

Section RetryOnFailure.

Import Retry.

Context {A X D : Type}.
Variable mul : D -> D -> D.
Variable refused : D -> bool.
Variable max_retries : Z.
Variable delay : D.
Variable backoff : D.
Variable retried : X -> bool.
Variable func : nat -> X + A.

Local Abbreviation loop := (wrapper_loop mul refused max_retries backoff retried func).

Lemma delays_snoc d n :
  delays mul backoff d (S n)
  = d :: delays mul backoff (mul d backoff) n.
Proof. done. Qed.

Lemma range_attempts (m : nat) :
  max_retries = Z.of_nat m ->
  default [] (range 0 max_retries 1) = map Z.of_nat (seq 0 m).
Proof.
  intros ->. unfold range. simpl.
  rewrite Z.sub_0_r, Z.add_simpl_r, Z.div_1_r, Nat2Z.id. simpl.
  apply map_ext. intros k. lia.
Qed.

(** After [k] failed calls that are retried, the loop is at attempt
    [a + k] with the delay multiplied [k] times and [k] sleeps more. *)
Lemma wrapper_loop_failures (m : nat) :
  max_retries = Z.of_nat m ->
  forall k (failed : nat -> X) a n d last t,
    (a + k < m)%nat -> (k <= n)%nat ->
    (forall i, (i < k)%nat ->
       func (calls t + i)%nat = inl (failed i) /\ retried (failed i) = true) ->
    Forall (fun d' => refused d' = false) (delays mul backoff d k) ->
    exists d' last',
      loop (map Z.of_nat (seq a n)) d last t
      = loop (map Z.of_nat (seq (a + k) (n - k))) d' last'
          {| calls := (calls t + k)%nat;
             sleeps := sleeps t ++ delays mul backoff d k |}
      /\ (k = 0%nat -> last' = last)
      /\ (forall j, k = S j -> last' = Some (failed j)).
Proof.
  intros Hmax.
  induction k as [|k IH]; intros failed a n d last t Ham Hkn Hfail Hdelays.
  - exists d, last. rewrite Nat.add_0_r, Nat.sub_0_r, Nat.add_0_r.
    simpl. rewrite app_nil_r. destruct t. split; [done|]. by split.
  - destruct n as [|n]; [lia|].
    cbn [seq map wrapper_loop].
    destruct (Hfail 0%nat ltac:(lia)) as [Hf Hr].
    rewrite Nat.add_0_r in Hf. rewrite Hf, Hr.
    destruct (Z.ltb_spec (Z.of_nat a) (max_retries - 1)); [|lia].
    rewrite delays_snoc in Hdelays. apply Forall_cons in Hdelays as [Hd Hds].
    rewrite Hd.
    destruct (IH (fun i => failed (S i)) (S a) n (mul d backoff)
                (Some (failed 0%nat))
                {| calls := S (calls t); sleeps := sleeps t ++ [d] |})
      as (d' & last' & Hrun & Hz & Hs); [lia | lia | | done |].
    + intros i Hi. simpl. replace (S (calls t + i)) with (calls t + S i)%nat by lia.
      apply Hfail. lia.
    + exists d', last'. rewrite Hrun. simpl.
      replace (a + S k)%nat with (S a + k)%nat by lia.
      replace (calls t + S k)%nat with (S (calls t + k)) by lia.
      rewrite <- app_assoc. simpl. split; [done|]. split; [lia|].
      intros j [= <-]. destruct k as [|k'].
      * by rewrite Hz.
      * by rewrite (Hs k' eq_refl).
Qed.

(** The wrapper returns the first outcome of [func] that is not a
    retried exception: after [k < max_retries] retried failures, a value
    is returned and an exception outside [exceptions] is raised at once;
    [func] has been called [k + 1] times and the sleeps before were
    [delay], [delay * backoff], ..., [k] of them. *)
Theorem retry_first_final_outcome (m k : nat) (failed : nat -> X) (t : trace D) :
  max_retries = Z.of_nat m -> (k < m)%nat ->
  (forall i, (i < k)%nat ->
     func (calls t + i)%nat = inl (failed i) /\ retried (failed i) = true) ->
  Forall (fun d => refused d = false) (delays mul backoff delay k) ->
  let after := {| calls := (calls t + S k)%nat;
                  sleeps := sleeps t ++ delays mul backoff delay k |} in
  (forall result, func (calls t + k)%nat = inr result ->
     wrapper mul refused max_retries delay backoff retried func t
     = (after, inr result))
  /\ (forall e, func (calls t + k)%nat = inl e -> retried e = false ->
        wrapper mul refused max_retries delay backoff retried func t
        = (after, inl (Raised e))).
Proof.
  intros Hmax Hk Hfail Hdelays after. unfold wrapper.
  rewrite (range_attempts m Hmax).
  destruct (wrapper_loop_failures m Hmax k failed 0%nat m delay None t)
    as (d' & last' & Hrun & _); [lia | lia | done | done |].
  rewrite Hrun. simpl.
  destruct (m - k)%nat as [|n] eqn:Hmk; [lia|].
  cbn [seq map wrapper_loop]. cbn [calls].
  split.
  - intros result ->. subst after. repeat f_equal. lia.
  - intros e -> ->. subst after. repeat f_equal. lia.
Qed.

(** When all [max_retries] calls fail with retried exceptions, the
    wrapper raises the last one after [max_retries] calls and
    [max_retries - 1] sleeps. *)
Theorem retry_exhausted (m : nat) (failed : nat -> X) (t : trace D) :
  max_retries = Z.of_nat (S m) ->
  (forall i, (i <= m)%nat ->
     func (calls t + i)%nat = inl (failed i) /\ retried (failed i) = true) ->
  Forall (fun d => refused d = false) (delays mul backoff delay m) ->
  wrapper mul refused max_retries delay backoff retried func t
  = ({| calls := (calls t + S m)%nat;
        sleeps := sleeps t ++ delays mul backoff delay m |},
     inl (Raised (failed m))).
Proof.
  intros Hmax Hfail Hdelays. unfold wrapper.
  rewrite (range_attempts (S m) Hmax).
  destruct (wrapper_loop_failures (S m) Hmax m failed 0%nat (S m) delay None t)
    as (d' & last' & Hrun & _); [lia | lia | intros i Hi; apply Hfail; lia | done |].
  rewrite Hrun. simpl. replace (S m - m)%nat with 1%nat by lia.
  cbn [seq map wrapper_loop]. cbn [calls].
  destruct (Hfail m ltac:(lia)) as [-> ->].
  destruct (Z.ltb_spec (Z.of_nat m) (max_retries - 1)); [lia|].
  repeat f_equal. lia.
Qed.

(** With [max_retries <= 0] the wrapped function is never called and
    the wrapper fails on [raise last_exception], which is [None]. *)
Theorem retry_without_attempt (t : trace D) :
  max_retries <= 0 ->
  wrapper mul refused max_retries delay backoff retried func t
  = (t, inl RaiseNone).
Proof.
  intros Hmax. unfold wrapper, range. simpl.
  rewrite Z.sub_0_r, Z.add_simpl_r, Z.div_1_r.
  replace (Z.to_nat max_retries) with 0%nat by lia. done.
Qed.

End RetryOnFailure.

Lemma retry_first_final_outcome_witness :
  Retry.wrapper Qmult (fun d => Embedding.Qlt_bool d 0) 3 1%Q 2%Q (fun _ => true)
    Examples.third_time_lucky Examples.fresh_trace
  = ({| Retry.calls := 3; Retry.sleeps := [1%Q; (1 * 2)%Q] |}, inr 7).
Proof.
  apply (retry_first_final_outcome Qmult (fun d => Embedding.Qlt_bool d 0) 3 1%Q 2%Q
           (fun _ => true) Examples.third_time_lucky 3 2
           (fun _ => lit "busy") Examples.fresh_trace).
  - reflexivity.
  - lia.
  - intros [|[|i]] Hi; [done | done | lia].
  - repeat constructor.
  - reflexivity.
Defined.

Lemma retry_exhausted_witness :
  Retry.wrapper Qmult (fun d => Embedding.Qlt_bool d 0) 3 1%Q 2%Q (fun _ => true)
    Examples.always_busy Examples.fresh_trace
  = ({| Retry.calls := 3; Retry.sleeps := [1%Q; (1 * 2)%Q] |},
     inl (Retry.Raised (lit "busy"))).
Proof.
  apply (retry_exhausted Qmult (fun d => Embedding.Qlt_bool d 0) 3 1%Q 2%Q
           (fun _ => true) Examples.always_busy 2 (fun _ => lit "busy")
           Examples.fresh_trace).
  - reflexivity.
  - intros i Hi. done.
  - repeat constructor.
Defined.

Lemma retry_without_attempt_witness :
  Retry.wrapper Qmult (fun d => Embedding.Qlt_bool d 0) 0 1%Q 2%Q (fun _ => true)
    Examples.always_busy Examples.fresh_trace
  = (Examples.fresh_trace, inl Retry.RaiseNone).
Proof.
  apply (retry_without_attempt Qmult (fun d => Embedding.Qlt_bool d 0) 0 1%Q 2%Q
           (fun _ => true) Examples.always_busy Examples.fresh_trace). lia.
Defined.

(** ** Clearing and counting the cache *)

Section CacheFilesProps.

Import DiskCache CacheFiles.

Lemma startswith_app p s : startswith p (p ++ s) = true.
Proof.
  induction p as [|c p IH]; [by destruct s|]. simpl.
  by rewrite Ascii.eqb_refl, IH.
Qed.

Lemma endswith_app suffix s : endswith suffix (s ++ suffix) = true.
Proof. unfold endswith. rewrite reverse_app. apply startswith_app. Qed.

Lemma contains_char_app c s1 s2 :
  contains [c] (s1 ++ s2) = contains [c] s1 || contains [c] s2.
Proof.
  induction s1 as [|x s1 IH]; simpl.
  - destruct s2; simpl; by rewrite ?orb_false_r.
  - rewrite IH. by destruct (Ascii.eqb c x).
Qed.

Context {V : Type}.
Variable md5_hexdigest : str -> str.
Variable pickle_dump : V -> list Byte.byte.
Variable pickle_load : list Byte.byte -> option V.
Variable cache_dir : str.

(** A digest is written in hexadecimal digits: it holds no [/]. *)
Hypothesis digest_plain : forall text, contains (lit "/") (md5_hexdigest text) = false.

Lemma cache_file_listed text :
  listed cache_dir (cache_file md5_hexdigest cache_dir text) = true.
Proof.
  unfold listed, cache_file, _get_key.
  rewrite (app_assoc cache_dir (lit "/")), startswith_app. simpl andb.
  replace (length cache_dir + 1)%nat with (length (cache_dir ++ lit "/"))
    by (rewrite length_app; done).
  rewrite drop_app_length.
  change (lit "/") with ["/"%char].
  rewrite contains_char_app.
  change ["/"%char] with (lit "/"). rewrite digest_plain.
  by rewrite endswith_app.
Qed.

(** After [clear] every lookup is a miss, the count is zero, and the
    files that are not cache entries are as before. *)
Theorem clear_empties_cache (fs : gmap str (list Byte.byte)) :
  (forall io text,
     get md5_hexdigest pickle_load cache_dir io (clear cache_dir fs) text = None)
  /\ count cache_dir (clear cache_dir fs) = 0%nat
  /\ (forall path, listed cache_dir path = false ->
        clear cache_dir fs !! path = fs !! path).
Proof.
  split; [|split].
  - intros io text. unfold get, clear.
    rewrite (proj2 (map_lookup_filter_None _ _ _)); [done|].
    right. intros content _. simpl. by rewrite cache_file_listed.
  - unfold count, clear.
    rewrite (proj2 (map_empty_filter _ _)); [apply map_size_empty|].
    intros path content Hin. simpl.
    apply map_lookup_filter_Some in Hin as [_ Hno]. simpl in Hno. congruence.
  - intros path Hpath. unfold clear.
    destruct (fs !! path) as [content|] eqn:Hfs.
    + by apply map_lookup_filter_Some.
    + apply map_lookup_filter_None. by left.
Qed.

(** A successful [set] adds one entry to the count when the text was
    not cached, and none when it was. *)
Theorem count_after_set (fs : gmap str (list Byte.byte)) text (value : V) :
  count cache_dir (set md5_hexdigest pickle_dump cache_dir WriteOk fs text value)
  = match fs !! cache_file md5_hexdigest cache_dir text with
    | Some _ => count cache_dir fs
    | None => S (count cache_dir fs)
    end.
Proof.
  unfold count, set.
  rewrite map_filter_insert_True by (simpl; apply cache_file_listed).
  rewrite map_size_insert.
  destruct (fs !! cache_file md5_hexdigest cache_dir text) as [content|] eqn:Hfs.
  - rewrite (proj2 (map_lookup_filter_Some _ _ _ content)); [done|].
    split; [done|]. simpl. apply cache_file_listed.
  - rewrite (proj2 (map_lookup_filter_None _ _ _)); [done | by left].
Qed.

End CacheFilesProps.

Lemma clear_empties_cache_witness :
  (forall io text,
     DiskCache.get (V := list Byte.byte) Examples.digest_stub Some
       (lit "data/cache") io
       (CacheFiles.clear (lit "data/cache") Examples.one_entry) text = None)
  /\ CacheFiles.count (lit "data/cache")
       (CacheFiles.clear (lit "data/cache") Examples.one_entry) = 0%nat
  /\ (forall path, CacheFiles.listed (lit "data/cache") path = false ->
        CacheFiles.clear (lit "data/cache") Examples.one_entry !! path
        = Examples.one_entry !! path).
Proof.
  apply (clear_empties_cache (V := list Byte.byte) Examples.digest_stub Some
           (lit "data/cache")).
  intros text. reflexivity.
Defined.

Lemma count_after_set_witness :
  CacheFiles.count (lit "data/cache")
    (DiskCache.set (V := list Byte.byte) Examples.digest_stub id
       (lit "data/cache") DiskCache.WriteOk Examples.one_entry (lit "abc")
       [Byte.x02])
  = match Examples.one_entry
          !! DiskCache.cache_file Examples.digest_stub (lit "data/cache")
               (lit "abc") with
    | Some _ => CacheFiles.count (lit "data/cache") Examples.one_entry
    | None => S (CacheFiles.count (lit "data/cache") Examples.one_entry)
    end.
Proof.
  apply (count_after_set (V := list Byte.byte) Examples.digest_stub id
           (lit "data/cache")).
  intros text. reflexivity.
Defined.

(** ** Safe file names *)

Section SafeFilename.

Import FileNames.

Local Abbreviation safe := (Forall (fun c => unsafe c = false)).

Lemma sanitize_safe filename : safe (sanitize filename).
Proof.
  unfold sanitize. induction filename as [|c filename IH]; simpl; [done|].
  constructor; [|done]. by destruct (unsafe c) eqn:Hc.
Qed.

Lemma sanitize_fixed filename : safe filename -> sanitize filename = filename.
Proof.
  unfold sanitize. induction 1 as [|c filename Hc _ IH]; simpl; [done|].
  by rewrite Hc, IH.
Qed.

Lemma path_stem_safe name : safe name -> safe (Ingest.path_stem name).
Proof.
  intros Hname. unfold Ingest.path_stem.
  destruct (Ingest.rfind_dot name); [|done].
  destruct (_ && _); [by apply Forall_take | done].
Qed.

Lemma path_suffix_safe name : safe name -> safe (Ingest.path_suffix name).
Proof.
  intros Hname. unfold Ingest.path_suffix.
  destruct (Ingest.rfind_dot name); [|done].
  destruct (_ && _); [by apply Forall_drop | done].
Qed.

Lemma path_name_safe filename : safe filename -> safe (path_name filename).
Proof. intros Hf. unfold path_name. by destruct (decide _). Qed.

Lemma safe_filename_safe filename max_length :
  Forall (fun c => unsafe c = false) (safe_filename filename max_length).
Proof.
  unfold safe_filename. cbv zeta.
  pose proof (sanitize_safe filename) as Hs.
  destruct (max_length <? len (sanitize filename)); [|done].
  apply Forall_app. split.
  - by apply slice_to_Forall, path_stem_safe, path_name_safe.
  - by apply path_suffix_safe, path_name_safe.
Qed.

(** The result never holds one of the replaced characters. *)
Theorem safe_filename_no_unsafe_character filename max_length :
  Forall (fun c => unsafe c = false) (safe_filename filename max_length).
Proof. apply safe_filename_safe. Qed.

Lemma safe_filename_bounded filename max_length :
  len (Ingest.path_suffix (path_name (sanitize filename))) <= max_length ->
  len (safe_filename filename max_length) <= max_length.
Proof.
  intros Hext. unfold safe_filename. cbv zeta.
  destruct (Z.ltb_spec max_length (len (sanitize filename))); [|done].
  set (ext := Ingest.path_suffix _) in *.
  assert (0 <= len ext) by (unfold len; lia).
  pose proof (slice_to_length
                (Ingest.path_stem (path_name (sanitize filename)))
                (max_length - len ext) ltac:(lia)).
  unfold len in *. rewrite length_app. lia.
Qed.

(** The result has at most [max_length] characters as long as the
    extension alone fits in [max_length]. *)
Theorem safe_filename_length filename max_length :
  len (Ingest.path_suffix (path_name (sanitize filename))) <= max_length ->
  len (safe_filename filename max_length) <= max_length.
Proof. apply safe_filename_bounded. Qed.

(** Under the same condition a second application changes nothing. *)
Theorem safe_filename_idempotent filename max_length :
  len (Ingest.path_suffix (path_name (sanitize filename))) <= max_length ->
  safe_filename (safe_filename filename max_length) max_length
  = safe_filename filename max_length.
Proof.
  intros Hext.
  pose proof (safe_filename_safe filename max_length) as Hsafe.
  pose proof (safe_filename_bounded filename max_length Hext) as Hlen.
  set (result := safe_filename filename max_length) in *.
  unfold safe_filename at 1. cbv zeta.
  rewrite (sanitize_fixed result Hsafe).
  by destruct (Z.ltb_spec max_length (len result)); [lia|].
Qed.

End SafeFilename.

Lemma safe_filename_length_witness :
  len (FileNames.safe_filename (lit "a<b>:report?.final.txt") 12) <= 12.
Proof.
  apply (safe_filename_length (lit "a<b>:report?.final.txt") 12).
  by vm_compute.
Defined.

Lemma safe_filename_idempotent_witness :
  FileNames.safe_filename
    (FileNames.safe_filename (lit "a<b>:report?.final.txt") 12) 12
  = FileNames.safe_filename (lit "a<b>:report?.final.txt") 12.
Proof.
  apply (safe_filename_idempotent (lit "a<b>:report?.final.txt") 12).
  by vm_compute.
Defined.

(** ** Automatic category *)

Section AutoCategorize.

Import Settings.

Variable text : str.

Local Abbreviation score := (fun cat => match_score cat text).

(** Categories that do not beat the best score leave the pair as it
    is. *)
Lemma best_unchanged categories (best : option Category * float) :
  Forall (fun cat => PrimFloat.ltb best.2 (score cat) = false) categories ->
  fold_left (best_step text) categories best = best.
Proof.
  induction 1 as [|cat rest Hcat _ IH]; [done|]. simpl.
  unfold best_step at 2. cbv zeta. by rewrite Hcat.
Qed.

(** Scores below a bound keep the best score below it. *)
Lemma best_below categories (best : option Category * float) (bound : float) :
  PrimFloat.ltb best.2 bound = true ->
  Forall (fun cat => PrimFloat.ltb (score cat) bound = true) categories ->
  PrimFloat.ltb (fold_left (best_step text) categories best).2 bound = true.
Proof.
  intros Hbest Hall. revert best Hbest.
  induction Hall as [|cat rest Hcat _ IH]; intros best Hbest; [done|].
  simpl. apply IH. unfold best_step. cbv zeta.
  by destruct (PrimFloat.ltb best.2 (match_score cat text)).
Qed.

Lemma best_member categories (best : option Category * float) cat :
  (fold_left (best_step text) categories best).1 = Some cat ->
  best.1 = Some cat \/ cat ∈ categories.
Proof.
  revert best. induction categories as [|c rest IH]; intros best Hbest;
    [by left|].
  simpl in Hbest. apply IH in Hbest as [Hbest|Hin].
  - unfold best_step in Hbest. cbv zeta in Hbest.
    destruct (PrimFloat.ltb best.2 (match_score c text)).
    + injection Hbest as <-. right. by left.
    + by left.
  - right. by right.
Qed.

Lemma get_category_by_name_member categories n cat :
  get_category_by_name categories n = Some cat ->
  cat ∈ categories /\ name cat = n.
Proof.
  induction categories as [|c rest IH]; [done|]. simpl.
  destruct (decide (name c = n)).
  - intros [= <-]. split; [by left | done].
  - intros Hrest. destruct (IH Hrest). split; [by right | done].
Qed.

(** With at least one category configured, [auto_categorize] returns
    one of the configured categories. *)
Theorem auto_categorize_configured categories threshold :
  categories <> [] ->
  exists cat, auto_categorize categories text threshold = Some cat
              /\ cat ∈ categories.
Proof.
  intros Hne. unfold auto_categorize. cbv zeta.
  assert (Hhead : exists cat, head categories = Some cat /\ cat ∈ categories).
  { destruct categories as [|c rest]; [done|]. exists c. split; [done | by left]. }
  destruct Hhead as (first & Hfirst & Hin).
  destruct (PrimFloat.ltb _ threshold).
  - destruct (get_category_by_name categories (lit "general")) as [g|] eqn:Hg.
    + exists g. split; [done|]. by apply get_category_by_name_member in Hg as [? _].
    + exists first. by rewrite Hfirst.
  - destruct (fold_left _ _ _).1 as [cat|] eqn:Hbest.
    + exists cat. split; [done|].
      by apply best_member in Hbest as [Hbest|Hbest].
    + exists first. by rewrite Hfirst.
Qed.

(** A category is returned when its score is above [0.0] and not below
    the threshold, every category before it scores less, and no
    category after it scores more: ties go to the earlier category.
    [<] and [>] are the comparisons of floats that the code makes. *)
Theorem auto_categorize_first_best before cat after threshold :
  PrimFloat.ltb 0%float (score cat) = true ->
  PrimFloat.ltb (score cat) threshold = false ->
  Forall (fun c => PrimFloat.ltb (score c) (score cat) = true) before ->
  Forall (fun c => PrimFloat.ltb (score cat) (score c) = false) after ->
  auto_categorize (before ++ cat :: after) text threshold = Some cat.
Proof.
  intros Hpos Hthr Hbefore Hafter.
  assert (Hbest : fold_left (best_step text) (before ++ cat :: after)
                    (None, 0%float)
                  = (Some cat, score cat)).
  { rewrite fold_left_app. simpl.
    pose proof (best_below before (None, 0%float) (score cat) Hpos Hbefore)
      as Hlt.
    unfold best_step at 2. cbv zeta. rewrite Hlt.
    by apply best_unchanged. }
  unfold auto_categorize. cbv zeta. rewrite Hbest. simpl.
  by rewrite Hthr.
Qed.

(** When the threshold is above [0.0] and every category scores below
    it, in the comparison of floats that the code makes, the category
    named [general] is returned, and the first category when none has
    that name. *)
Theorem auto_categorize_fallback categories threshold :
  PrimFloat.ltb 0%float threshold = true ->
  Forall (fun c => PrimFloat.ltb (score c) threshold = true) categories ->
  auto_categorize categories text threshold
  = match get_category_by_name categories (lit "general") with
    | Some general => Some general
    | None => head categories
    end.
Proof.
  intros Hpos Hall. unfold auto_categorize. cbv zeta.
  by rewrite (best_below categories (None, 0%float) threshold Hpos Hall).
Qed.

End AutoCategorize.

(** One keyword out of ten scores the float [0.1], which is not below
    the threshold [0.1]: the category is returned, not the fallback. *)
Lemma auto_categorize_at_threshold :
  Settings.auto_categorize [Examples.general_category; Examples.tenth]
    (lit "seven") Examples.threshold_01
  = Some Examples.tenth.
Proof. by vm_compute. Qed.

Lemma auto_categorize_configured_witness :
  exists cat,
    Settings.auto_categorize [Examples.cooking; Examples.tech]
      (lit "Docker and kubernetes") Examples.threshold_03 = Some cat
    /\ cat ∈ [Examples.cooking; Examples.tech].
Proof.
  apply (auto_categorize_configured (lit "Docker and kubernetes")
           [Examples.cooking; Examples.tech] Examples.threshold_03).
  done.
Defined.

Lemma auto_categorize_first_best_witness :
  Settings.auto_categorize
    ([Examples.general_category; Examples.cooking] ++ Examples.tech :: [])
    (lit "Docker and kubernetes") Examples.threshold_03
  = Some Examples.tech.
Proof.
  apply (auto_categorize_first_best (lit "Docker and kubernetes")
           [Examples.general_category; Examples.cooking] Examples.tech []
           Examples.threshold_03).
  - by vm_compute.
  - by vm_compute.
  - repeat constructor; by vm_compute.
  - constructor.
Defined.

Lemma auto_categorize_fallback_witness :
  Settings.auto_categorize
    [Examples.cooking; Examples.general_category; Examples.tech]
    (lit "Nothing of the kind") Examples.threshold_03
  = match Settings.get_category_by_name
            [Examples.cooking; Examples.general_category; Examples.tech]
            (lit "general") with
    | Some general => Some general
    | None => head [Examples.cooking; Examples.general_category; Examples.tech]
    end.
Proof.
  apply (auto_categorize_fallback (lit "Nothing of the kind")
           [Examples.cooking; Examples.general_category; Examples.tech]
           Examples.threshold_03).
  - by vm_compute.
  - repeat constructor; by vm_compute.
Defined.

(** ** Lines: splitting and joining *)

Section Lines.

Variable sep : ascii.

Lemma split_on_nonempty s : split_on sep s <> [].
Proof.
  destruct s as [|c s]; [done|]. simpl.
  destruct (split_on sep s); [done|]. by destruct (Ascii.eqb c sep).
Qed.

Lemma split_on_no_sep s : Forall (fun piece => sep ∉ piece) (split_on sep s).
Proof.
  induction s as [|c s IH]; simpl.
  - constructor; [|done]. by intros ?%elem_of_nil.
  - destruct (split_on sep s) as [|piece pieces] eqn:Hsplit.
    + by apply split_on_nonempty in Hsplit.
    + apply Forall_cons in IH as [Hp Hps].
      destruct (Ascii.eqb_spec c sep) as [->|Hne].
      * constructor; [by intros ?%elem_of_nil | by constructor].
      * constructor; [|done]. intros [?|?]%elem_of_cons; [done | by apply Hp].
Qed.

Lemma split_on_Forall (P : ascii -> Prop) s :
  Forall P s -> Forall (Forall P) (split_on sep s).
Proof.
  induction 1 as [|c s Hc _ IH]; simpl; [by repeat constructor|].
  destruct (split_on sep s) as [|piece pieces]; [by repeat constructor|].
  apply Forall_cons in IH as [Hp Hps].
  destruct (Ascii.eqb c sep); repeat constructor; done.
Qed.

Lemma join_cons piece pieces :
  pieces <> [] -> join [sep] (piece :: pieces) = piece ++ sep :: join [sep] pieces.
Proof. by destruct pieces. Qed.

Lemma split_on_app_sep piece rest :
  sep ∉ piece ->
  split_on sep (piece ++ sep :: rest) = piece :: split_on sep rest.
Proof.
  induction piece as [|c piece IH]; intros Hno; simpl.
  - pose proof (split_on_nonempty rest).
    destruct (split_on sep rest); [done|]. by rewrite Ascii.eqb_refl.
  - rewrite IH by (intros ?; apply Hno; by right).
    destruct (Ascii.eqb_spec c sep) as [->|_]; [|done].
    exfalso. apply Hno. by left.
Qed.

Lemma split_on_plain piece : sep ∉ piece -> split_on sep piece = [piece].
Proof.
  induction piece as [|c piece IH]; intros Hno; [done|]. simpl.
  rewrite IH by (intros ?; apply Hno; by right).
  destruct (Ascii.eqb_spec c sep) as [->|_]; [|done].
  exfalso. apply Hno. by left.
Qed.

(** Splitting a joined list of lines gives the lines back. *)
Lemma split_on_join pieces :
  pieces <> [] -> Forall (fun piece => sep ∉ piece) pieces ->
  split_on sep (join [sep] pieces) = pieces.
Proof.
  intros Hne Hall. induction Hall as [|piece pieces Hp Hps IH]; [done|].
  destruct pieces as [|next pieces].
  - simpl. by apply split_on_plain.
  - rewrite join_cons by done. rewrite split_on_app_sep by done.
    by rewrite IH.
Qed.

Lemma join_Forall (P : ascii -> Prop) pieces :
  P sep -> Forall (Forall P) pieces -> Forall P (join [sep] pieces).
Proof.
  intros Hsep. induction 1 as [|piece pieces Hp Hps IH]; [done|].
  destruct pieces as [|next pieces]; [done|].
  rewrite join_cons by done. apply Forall_app. split; [done|].
  by constructor.
Qed.

End Lines.

Lemma filter_all_true {A} (f : A -> bool) (l : list A) :
  Forall (fun x => f x = true) l -> List.filter f l = l.
Proof. induction 1 as [|x l Hx _ IH]; simpl; [done|]. by rewrite Hx, IH. Qed.

Lemma filter_true {A} (f : A -> bool) (l : list A) :
  Forall (fun x => f x = true) (List.filter f l).
Proof.
  induction l as [|x l IH]; simpl; [done|].
  destruct (f x) eqn:Hx; [by constructor | done].
Qed.

Lemma filter_Forall {A} (f : A -> bool) (P : A -> Prop) (l : list A) :
  Forall P l -> Forall P (List.filter f l).
Proof.
  induction 1 as [|x l Hx _ IH]; simpl; [done|].
  destruct (f x); [by constructor | done].
Qed.

Lemma map_fixed {A} (f : A -> A) (l : list A) :
  Forall (fun x => f x = x) l -> map f l = l.
Proof. induction 1 as [|x l Hx _ IH]; simpl; [done|]. by rewrite Hx, IH. Qed.

Lemma Forall_map_strip (P : str -> Prop) (pieces : list str) :
  (forall piece, piece ∈ pieces -> P (strip piece)) ->
  Forall P (map strip pieces).
Proof.
  induction pieces as [|piece pieces IH]; intros Hall; simpl; [done|].
  constructor; [apply Hall; by left|]. apply IH. intros x Hx. apply Hall. by right.
Qed.

Lemma strip_no_char (c : ascii) (s : str) : c ∉ s -> c ∉ strip s.
Proof.
  intros Hno Hin.
  assert (Hall : Forall (fun x => x <> c) s)
    by (apply Forall_forall; intros x Hx ->; done).
  apply (strip_Forall _ s) in Hall. rewrite Forall_forall in Hall.
  by apply (Hall c).
Qed.

(** ** PDF line filter *)

Section CleanPdf.

Import Normalizer.

Variable min_line_length : Z.

Local Abbreviation kept text :=
  (List.filter (keep_pdf_line min_line_length) (map strip (split_on LF text))).

Lemma kept_lines text :
  Forall (fun line => keep_pdf_line min_line_length line = true
                      /\ strip line = line /\ (LF ∉ line)
                      /\ (exists original, original ∈ split_on LF text
                                           /\ line = strip original))
    (kept text).
Proof.
  apply Forall_forall. intros line Hin.
  apply list_elem_of_In, filter_In in Hin as [Hin Hkeep].
  apply in_map_iff in Hin as (original & <- & Horig%list_elem_of_In).
  split; [done|]. split; [apply strip_idempotent|].
  split; [|by exists original].
  apply strip_no_char.
  pose proof (split_on_no_sep LF text) as Hno. rewrite Forall_forall in Hno.
  by apply Hno.
Qed.

(** Every line of a non-empty result of [_clean_pdf] is a stripped line
    of the input that has at least [min_line_length] characters and is
    neither a page number, nor a [Page x of y] line, nor a copyright
    line, nor a line with [All rights reserved]. *)
Theorem clean_pdf_lines text line :
  _clean_pdf min_line_length text <> [] ->
  line ∈ split_on LF (_clean_pdf min_line_length text) ->
  (exists original, original ∈ split_on LF text /\ line = strip original)
  /\ line <> []
  /\ min_line_length <= len line
  /\ is_page_number line = false
  /\ is_page_of line = false
  /\ is_copyright line = false
  /\ is_copyright_sign line = false
  /\ contains (lit "All rights reserved") line = false.
Proof.
  unfold _clean_pdf. intros Hne Hin.
  pose proof (kept_lines text) as Hkept.
  destruct (kept text) as [|first rest] eqn:Hk; [done|].
  rewrite split_on_join in Hin;
    [| done | eapply Forall_impl; [exact Hkept | by intros ? (_ & _ & ? & _)]].
  rewrite Forall_forall in Hkept.
  destruct (Hkept line Hin) as (Hkeep & _ & _ & Horig).
  split; [done|]. unfold keep_pdf_line in Hkeep.
  repeat (apply andb_true_iff in Hkeep as [Hkeep ?]).
  repeat match goal with H : negb _ = true |- _ => apply negb_true_iff in H end.
  split; [by destruct line|]. split; [lia|]. done.
Qed.

(** Cleaning a cleaned PDF text changes nothing. *)
Theorem clean_pdf_idempotent text :
  _clean_pdf min_line_length (_clean_pdf min_line_length text)
  = _clean_pdf min_line_length text.
Proof.
  unfold _clean_pdf at 2 3.
  pose proof (kept_lines text) as Hkept.
  destruct (kept text) as [|first rest] eqn:Hk; [done|].
  unfold _clean_pdf. rewrite split_on_join;
    [| done | eapply Forall_impl; [exact Hkept | by intros ? (_ & _ & ? & _)]].
  rewrite map_fixed
    by (eapply Forall_impl; [exact Hkept | by intros ? (_ & ? & _)]).
  by rewrite filter_all_true
    by (eapply Forall_impl; [exact Hkept | by intros ? (? & _)]).
Qed.

End CleanPdf.

Lemma clean_pdf_lines_witness :
  (exists original,
     original ∈ split_on Normalizer.LF
                  (lit "  Hello world, this is text " ++ Normalizer.LF :: lit " - 12 -")
     /\ lit "Hello world, this is text" = strip original)
  /\ lit "Hello world, this is text" <> []
  /\ 10 <= len (lit "Hello world, this is text")
  /\ Normalizer.is_page_number (lit "Hello world, this is text") = false
  /\ Normalizer.is_page_of (lit "Hello world, this is text") = false
  /\ Normalizer.is_copyright (lit "Hello world, this is text") = false
  /\ Normalizer.is_copyright_sign (lit "Hello world, this is text") = false
  /\ contains (lit "All rights reserved") (lit "Hello world, this is text") = false.
Proof.
  apply (clean_pdf_lines 10
           (lit "  Hello world, this is text " ++ Normalizer.LF :: lit " - 12 -")
           (lit "Hello world, this is text")).
  - by vm_compute.
  - vm_compute. left.
Defined.

(** ** General cleaning *)

Section GeneralClean.

Import Normalizer.

(** Neither a carriage return nor a tabulation. *)
Local Abbreviation plain := (fun c : ascii => c <> CR /\ c <> TAB).

Lemma replace_cr_no_cr s : Forall (fun c => c <> CR) (replace_cr s).
Proof.
  unfold replace_cr. induction s as [|c s IH]; simpl; [done|].
  constructor; [|done]. by destruct (Ascii.eqb_spec c CR).
Qed.

Lemma collapse_blanks_plain in_run s :
  Forall (fun c => c <> CR) s -> Forall plain (collapse_blanks in_run s).
Proof.
  intros Hall. revert in_run.
  induction Hall as [|c s Hc _ IH]; intros in_run; simpl; [done|].
  destruct (is_blank c) eqn:Hblank.
  - destruct in_run; [done|]. by constructor.
  - constructor; [|done]. split; [done|]. intros ->. done.
Qed.

Lemma collapse_newlines_Forall (P : ascii -> Prop) seen s :
  Forall P s -> Forall P (collapse_newlines seen s).
Proof.
  intros Hall. revert seen.
  induction Hall as [|c s Hc _ IH]; intros seen; simpl; [done|].
  destruct (Ascii.eqb_spec c LF) as [->|_]; [|by constructor].
  destruct (seen <? 2)%nat; [by constructor | done].
Qed.

Lemma remove_patterns_Forall (P : ascii -> Prop) remove_patterns :
  Forall (fun remove : str -> str => forall t, remove t `sublist_of` t)
    remove_patterns ->
  forall s, Forall P s ->
    Forall P (fold_left (fun t remove => remove t) remove_patterns s).
Proof.
  induction 1 as [|remove rest Hremove _ IH]; intros s Hs; simpl; [done|].
  apply IH. apply Forall_forall. intros c Hc.
  rewrite Forall_forall in Hs. apply Hs.
  by eapply elem_of_sublist.
Qed.

Lemma strip_lines_Forall (P : ascii -> Prop) s :
  P LF -> Forall P s -> Forall P (join [LF] (map strip (split_on LF s))).
Proof.
  intros HLF Hs. apply join_Forall; [done|].
  apply Forall_map_strip. intros piece Hpiece. apply strip_Forall.
  pose proof (split_on_Forall LF P s Hs) as Hall.
  rewrite Forall_forall in Hall. by apply Hall.
Qed.

Lemma strip_lines_stripped s :
  Forall (fun line => strip line = line)
    (split_on LF (join [LF] (map strip (split_on LF s)))).
Proof.
  rewrite split_on_join.
  - apply Forall_map_strip. intros piece _. apply strip_idempotent.
  - pose proof (split_on_nonempty LF s). by destruct (split_on LF s).
  - apply Forall_map_strip. intros piece Hpiece. apply strip_no_char.
    pose proof (split_on_no_sep LF s) as Hno. rewrite Forall_forall in Hno.
    by apply Hno.
Qed.

Variable remove_patterns : list (str -> str).

(** A removal takes characters away and adds none. *)
Hypothesis removals :
  Forall (fun remove : str -> str => forall t, remove t `sublist_of` t)
    remove_patterns.

Lemma general_clean_plain text :
  Forall plain (_general_clean remove_patterns text).
Proof.
  unfold _general_clean. cbv zeta.
  apply strip_lines_Forall; [done|].
  apply remove_patterns_Forall; [done|].
  apply collapse_newlines_Forall, collapse_blanks_plain, replace_cr_no_cr.
Qed.

Lemma general_clean_lines text :
  let cleaned := _general_clean remove_patterns text in
  (CR ∉ cleaned) /\ (TAB ∉ cleaned)
  /\ Forall (fun line => strip line = line) (split_on LF cleaned).
Proof.
  cbv zeta. pose proof (general_clean_plain text) as Hplain.
  rewrite Forall_forall in Hplain.
  split; [intros Hin; by destruct (Hplain CR Hin)|].
  split; [intros Hin; by destruct (Hplain TAB Hin)|].
  apply strip_lines_stripped.
Qed.

(** The result of [_general_clean] holds no carriage return and no
    tabulation, and each of its lines is stripped. *)
Theorem general_clean_normal text :
  let cleaned := _general_clean remove_patterns text in
  (CR ∉ cleaned) /\ (TAB ∉ cleaned)
  /\ Forall (fun line => strip line = line) (split_on LF cleaned).
Proof. apply general_clean_lines. Qed.

(** [clean_text] returns the empty text for a blank input; its result
    is always stripped and holds no carriage return and no tabulation,
    for every source type. *)
Theorem clean_text_normal min_line_length visible_text text source_type :
  let cleaned :=
    clean_text remove_patterns min_line_length visible_text text source_type in
  (strip text = [] -> cleaned = [])
  /\ strip cleaned = cleaned
  /\ (CR ∉ cleaned) /\ (TAB ∉ cleaned).
Proof.
  cbv zeta. unfold clean_text. split.
  - intros ->. by rewrite orb_true_r.
  - destruct (Cleaner.is_empty text || Cleaner.is_empty (strip text));
      [by repeat split; try intros ?%elem_of_nil|].
    cbv zeta.
    match goal with
    | |- context [_general_clean remove_patterns ?t] => set (prepared := t)
    end.
    split; [apply strip_idempotent|].
    destruct (general_clean_lines prepared) as (Hcr & Htab & _).
    split; by apply strip_no_char.
Qed.

End GeneralClean.

Lemma no_digits_sublist (t : str) :
  filter (fun c => Py.isdigit c = false) t `sublist_of` t.
Proof. apply sublist_filter. Qed.

Lemma general_clean_normal_witness :
  (Normalizer.CR ∉
     Normalizer._general_clean [filter (fun c => Py.isdigit c = false)]
       (lit "a  b7" ++ [Normalizer.CR; Normalizer.TAB] ++ lit "c "))
  /\ (Normalizer.TAB ∉
       Normalizer._general_clean [filter (fun c => Py.isdigit c = false)]
         (lit "a  b7" ++ [Normalizer.CR; Normalizer.TAB] ++ lit "c "))
  /\ Forall (fun line => strip line = line)
       (split_on Normalizer.LF
          (Normalizer._general_clean [filter (fun c => Py.isdigit c = false)]
             (lit "a  b7" ++ [Normalizer.CR; Normalizer.TAB] ++ lit "c "))).
Proof.
  apply (general_clean_normal [filter (fun c => Py.isdigit c = false)]).
  constructor; [apply no_digits_sublist | constructor].
Defined.

Lemma clean_text_normal_witness :
  (strip (lit "  Title 1 " ++ [Normalizer.CR; Normalizer.LF] ++ lit " - 3 - ") = [] ->
   Normalizer.clean_text [filter (fun c => Py.isdigit c = false)] 10
     (fun _ => None)
     (lit "  Title 1 " ++ [Normalizer.CR; Normalizer.LF] ++ lit " - 3 - ")
     (lit "pdf") = [])
  /\ strip (Normalizer.clean_text [filter (fun c => Py.isdigit c = false)] 10
              (fun _ => None)
              (lit "  Title 1 " ++ [Normalizer.CR; Normalizer.LF] ++ lit " - 3 - ")
              (lit "pdf"))
     = Normalizer.clean_text [filter (fun c => Py.isdigit c = false)] 10
         (fun _ => None)
         (lit "  Title 1 " ++ [Normalizer.CR; Normalizer.LF] ++ lit " - 3 - ")
         (lit "pdf")
  /\ (Normalizer.CR ∉
       Normalizer.clean_text [filter (fun c => Py.isdigit c = false)] 10
         (fun _ => None)
         (lit "  Title 1 " ++ [Normalizer.CR; Normalizer.LF] ++ lit " - 3 - ")
         (lit "pdf"))
  /\ (Normalizer.TAB ∉
       Normalizer.clean_text [filter (fun c => Py.isdigit c = false)] 10
         (fun _ => None)
         (lit "  Title 1 " ++ [Normalizer.CR; Normalizer.LF] ++ lit " - 3 - ")
         (lit "pdf")).
Proof.
  apply (clean_text_normal [filter (fun c => Py.isdigit c = false)]).
  constructor; [apply no_digits_sublist | constructor].
Defined.

(** ** Fixed-width chunking without overlap *)

Section CharWindows.

Import Cleaner.

Variables (text : str) (chunk_size min_size : Z).
Hypothesis positive : 0 < chunk_size.

Local Abbreviation width := (Z.to_nat chunk_size).
Local Abbreviation kept_chunks :=
  (filter (fun chunk : str => min_size <= len chunk)).

Lemma slice_min_end (start : Z) :
  0 <= start ->
  slice text start (Z.min (start + chunk_size) (len text))
  = slice text start (start + chunk_size).
Proof.
  intros Hstart. unfold slice.
  assert (Hbound : bound (length text) (Z.min (start + chunk_size) (len text))
                   = bound (length text) (start + chunk_size)).
  { unfold bound, len.
    destruct (Z.ltb_spec (Z.min (start + chunk_size) (Z.of_nat (length text))) 0);
      destruct (Z.ltb_spec (start + chunk_size) 0); lia. }
  by rewrite Hbound.
Qed.

Lemma chunk_by_chars_loop_past_end fuel start acc :
  len text <= start ->
  chunk_by_chars_loop (S fuel) text chunk_size 0 min_size start acc = Some acc.
Proof.
  intros Hstart. cbn [chunk_by_chars_loop].
  by destruct (Z.ltb_spec start (len text)); [lia|].
Qed.

Lemma chunk_by_chars_loop_windows (n : nat) : forall (k fuel : nat) (acc : list str),
  (n < fuel)%nat ->
  (forall j, (k <= j < k + n)%nat -> (j * width < length text)%nat) ->
  (length text <= (k + n) * width)%nat ->
  chunk_by_chars_loop fuel text chunk_size 0 min_size (Z.of_nat (k * width)) acc
  = Some (acc ++ kept_chunks
                   (map strip (map (fun j => take width (drop (j * width) text))
                                 (seq k n)))).
Proof.
  induction n as [|n IH]; intros k fuel acc Hfuel Hinside Hend.
  - destruct fuel as [|fuel]; [lia|].
    rewrite chunk_by_chars_loop_past_end by (unfold len; lia).
    simpl. by rewrite app_nil_r.
  - destruct fuel as [|fuel]; [lia|].
    pose proof (Hinside k ltac:(lia)) as Hk.
    cbn [chunk_by_chars_loop].
    destruct (Z.ltb_spec (Z.of_nat (k * width)) (len text)) as [_|];
      [|unfold len in *; lia].
    rewrite Z.sub_0_r.
    destruct (Z.leb_spec (Z.min (Z.of_nat (k * width) + chunk_size) (len text)) 0);
      [unfold len in *; lia|].
    rewrite slice_min_end by lia.
    replace (Z.of_nat (k * width) + chunk_size)
      with (Z.of_nat (k * width) + Z.of_nat width) by lia.
    rewrite slice_window by lia.
    set (chunk := strip (take width (drop (k * width) text))).
    assert (Hfilter :
      forall rest,
        (if min_size <=? len chunk then acc ++ [chunk] else acc) ++ kept_chunks rest
        = acc ++ kept_chunks (chunk :: rest)).
    { intros rest. destruct (Z.leb_spec min_size (len chunk)).
      - rewrite filter_cons_True by done. by rewrite <- app_assoc.
      - rewrite filter_cons_False by lia. done. }
    cbn [seq map]. fold chunk. rewrite <- Hfilter.
    destruct (decide (S k * width <= length text)%nat) as [Hle|Hgt].
    + replace (Z.min (Z.of_nat (k * width) + Z.of_nat width) (len text))
        with (Z.of_nat (S k * width)) by (unfold len; lia).
      apply IH; [lia | intros j Hj; apply Hinside; lia|].
      by replace (S k + n)%nat with (k + S n)%nat by lia.
    + destruct n as [|n]; [|specialize (Hinside (S k) ltac:(lia)); lia].
      destruct fuel as [|fuel]; [lia|].
      rewrite chunk_by_chars_loop_past_end by (unfold len; lia).
      simpl. by rewrite app_nil_r.
Qed.

(** With [overlap = 0] and a positive [chunk_size] the fixed-width
    loop ends within [len(text) + 1] iterations, and its chunks are the
    batches of [batch_iterator(text, chunk_size)], each stripped, those
    shorter than [min_size] left out. *)
Theorem chunk_by_chars_without_overlap :
  exists pieces,
    Helpers.batch_iterator text chunk_size = Some pieces
    /\ _chunk_by_chars (S (length text)) text chunk_size 0 min_size
       = Some (kept_chunks (map strip pieces)).
Proof.
  eexists. split; [by apply batch_iterator_windows|].
  unfold _chunk_by_chars, Helpers.windows.
  set (m := Z.to_nat ((len text + chunk_size - 1) / chunk_size)).
  assert (Hnonneg : 0 <= (len text + chunk_size - 1) / chunk_size)
    by (apply Z.div_pos; unfold len; lia).
  assert (Hlo : (length text <= m * width)%nat).
  { subst m. unfold len in *.
    pose proof (Z.mod_pos_bound (Z.of_nat (length text) + chunk_size - 1)
                  chunk_size positive).
    pose proof (Z.div_mod (Z.of_nat (length text) + chunk_size - 1) chunk_size
                  ltac:(lia)).
    set (q := (Z.of_nat (length text) + chunk_size - 1) / chunk_size) in *.
    assert (Z.of_nat (length text) <= q * chunk_size) by lia.
    apply Nat2Z.inj_le. rewrite Nat2Z.inj_mul, !Z2Nat.id by lia. lia. }
  assert (Hhi : forall j, (j < m)%nat -> (j * width < length text)%nat).
  { intros j Hj. subst m. unfold len in *.
    pose proof (Z.mul_div_le (Z.of_nat (length text) + chunk_size - 1) chunk_size
                  positive).
    set (q := (Z.of_nat (length text) + chunk_size - 1) / chunk_size) in *.
    assert (Z.of_nat j + 1 <= q) by lia.
    apply Nat2Z.inj_lt. rewrite Nat2Z.inj_mul, Z2Nat.id by lia. nia. }
  assert (Hm : (m <= length text)%nat).
  { subst m. unfold len in *.
    assert ((Z.of_nat (length text) + chunk_size - 1) / chunk_size
            < Z.of_nat (length text) + 1)
      by (apply Z.div_lt_upper_bound; nia).
    lia. }
  apply (chunk_by_chars_loop_windows m 0 (S (length text)) []);
    [lia | intros j Hj; apply Hhi; lia | done].
Qed.

End CharWindows.

Lemma chunk_by_chars_without_overlap_witness :
  exists pieces,
    Helpers.batch_iterator (lit "ab cdefghi") 4 = Some pieces
    /\ Cleaner._chunk_by_chars 11 (lit "ab cdefghi") 4 0 3
       = Some (filter (fun chunk : str => 3 <= len chunk) (map strip pieces)).
Proof.
  apply (chunk_by_chars_without_overlap (lit "ab cdefghi") 4 3). lia.
Defined.

(** ** Contents of the collection after an upload *)

Section UploadStore.

Import Embedding Ingest.

Context {E : Type}.
Variable uuid5_dns : str -> str.
Variable qdrant_refuses :
  world -> gmap str (point E) -> list (point E)
  -> option (exn * gmap str (point E)).
Variable stored_vector : vector -> vector.

(** The point that [upsert_to_qdrant] builds from a block and its
    vector. *)
Local Abbreviation point_of := (fun (doc : document E) (v : vector) =>
  {| point_id := uuid5_dns (doc_id doc);
     point_vector := v;
     payload_text := doc_text doc;
     payload_metadata := doc_metadata doc |}).

Local Abbreviation kept := (stored stored_vector).
Local Abbreviation after_request := (written stored_vector).
Local Abbreviation upload :=
  (upsert_to_qdrant uuid5_dns qdrant_refuses stored_vector).

Lemma written_app (store : gmap str (point E)) (a b : list (point E)) :
  after_request store (a ++ b) = after_request (after_request store a) b.
Proof. unfold written. apply foldl_app. Qed.

(** What a request that is taken leaves under each identifier: the
    last point of the request with this identifier, as the collection
    stores it, or what the collection held. *)
Lemma written_lookup (points : list (point E)) :
  exists last_of : str -> option (point E),
    (forall (store : gmap str (point E)) (k : str),
       after_request store points !! k
       = match last_of k with Some p => Some (kept p) | None => store !! k end)
    /\ (forall k p, last_of k = Some p -> p ∈ points /\ point_id p = k)
    /\ (forall k, last_of k = None -> k ∉ map point_id points).
Proof.
  induction points as [|p rest (last_of & Hlookup & Hsome & Hnone)].
  - exists (fun _ => None). split; [done|]. split; [done|].
    intros k _. apply not_elem_of_nil.
  - exists (fun k => match last_of k with
                     | Some q => Some q
                     | None => if decide (k = point_id p) then Some p else None
                     end).
    split; [|split].
    + intros store k.
      change (after_request store (p :: rest))
        with (after_request (<[point_id p := kept p]> store) rest).
      rewrite Hlookup. destruct (last_of k); [done|].
      destruct (decide (k = point_id p)) as [->|Hne]; by simplify_map_eq.
    + intros k q Hq. destruct (last_of k) as [q'|] eqn:Hk.
      * injection Hq as ->. destruct (Hsome k q Hk). split; [by right | done].
      * destruct (decide (k = point_id p)) as [->|]; [|done].
        injection Hq as <-. split; [by left | done].
    + intros k Hk. destruct (last_of k) eqn:Hw; [done|].
      destruct (decide (k = point_id p)); [done|].
      cbn [map]. apply not_elem_of_cons. split; [done | by apply Hnone].
Qed.

Lemma written_idempotent (store : gmap str (point E))
    (points : list (point E)) :
  after_request (after_request store points) points = after_request store points.
Proof.
  destruct (written_lookup points) as (last_of & Hlookup & _).
  apply map_eq. intros k. rewrite !Hlookup. by destruct (last_of k).
Qed.

Lemma sleep_one (w : world) :
  time_sleep 1 w
  = ({| calls := calls w; now := (now w + 1)%Q; sleeps := sleeps w ++ [1%Q] |},
     inr tt).
Proof. reflexivity. Qed.

(** The outcome of the upload loop.  Without a refusal, every batch is
    written.  With one, the loop ends at the first request that the
    store refuses: the batches before it are written, and the
    collection is what the refusal leaves of that. *)
Lemma upload_loop_outcome (all_points : list (point E)) (batch_size : Z)
    (starts : list Z) :
  forall (store : gmap str (point E)) (w : world),
  exists w' reached failed,
    upload_loop qdrant_refuses stored_vector all_points batch_size starts
      store w
    = (w', inr (reached, failed))
    /\ match failed with
       | None =>
           reached
           = after_request store
               (concat (map (fun i => slice all_points i (i + batch_size))
                          starts))
       | Some e =>
           exists taken refused later moment,
             map (fun i => slice all_points i (i + batch_size)) starts
             = taken ++ refused :: later
             /\ qdrant_refuses moment (after_request store (concat taken))
                  refused
                = Some (e, reached)
       end.
Proof.
  induction starts as [|i rest IH]; intros store w; cbn [upload_loop].
  - by exists w, store, None.
  - cbn [map concat]. unfold mbind, M_bind, qdrant_upsert.
    destruct (qdrant_refuses w store (slice all_points i (i + batch_size)))
      as [[e left_as]|] eqn:Hrequest.
    + exists w, left_as, (Some e). split; [done|].
      by exists [], (slice all_points i (i + batch_size)),
             (map (fun i => slice all_points i (i + batch_size)) rest), w.
    + set (store1 := after_request store (slice all_points i (i + batch_size))).
      assert (Hnext : forall w1, exists w' reached failed,
                upload_loop qdrant_refuses stored_vector all_points batch_size
                  rest store1 w1
                = (w', inr (reached, failed))
                /\ match failed with
                   | None =>
                       reached
                       = after_request store
                           (slice all_points i (i + batch_size)
                            ++ concat (map (fun i => slice all_points i
                                                       (i + batch_size)) rest))
                   | Some e =>
                       exists taken refused later moment,
                         slice all_points i (i + batch_size)
                         :: map (fun i => slice all_points i (i + batch_size))
                              rest
                         = taken ++ refused :: later
                         /\ qdrant_refuses moment
                              (after_request store (concat taken)) refused
                            = Some (e, reached)
                   end).
      { intros w1. destruct (IH store1 w1) as (w' & reached & failed & Hrun & Hout).
        exists w', reached, failed. split; [done|].
        destruct failed as [e|].
        - destruct Hout as (taken & refused & later & moment & Hsplit & Hrefused).
          exists (slice all_points i (i + batch_size) :: taken), refused, later,
            moment.
          split; [by rewrite Hsplit|].
          cbn [concat]. by rewrite written_app.
        - by rewrite written_app. }
      destruct (i + batch_size <? len all_points).
      * rewrite sleep_one. apply Hnext.
      * apply Hnext.
Qed.

Lemma build_points_vectors (documents : list (document E)) :
  match build_points uuid5_dns documents with
  | inr points =>
      Forall2 (fun doc p => exists v, doc_vector doc = Some v /\ p = point_of doc v)
        documents points
  | inl e =>
      e = OtherError (lit "'vector'")
      /\ Exists (fun doc => doc_vector doc = None) documents
  end.
Proof.
  induction documents as [|doc rest IH]; cbn [build_points]; [constructor|].
  destruct (doc_vector doc) as [v|] eqn:Hv; [|split; [done | by left]].
  destruct (build_points uuid5_dns rest) as [e|points].
  - destruct IH as [-> Hex]. split; [done | by right].
  - constructor; [by exists v | done].
Qed.

(** The outcome of [upsert_to_qdrant] for blocks that all have a
    vector, in terms of the requests of 500 points. *)
Lemma upsert_to_qdrant_outcome (documents : list (document E))
    (points : list (point E)) (store : gmap str (point E)) (w : world) :
  build_points uuid5_dns documents = inr points ->
  exists batches w' reached failed,
    Helpers.batch_iterator points 500 = Some batches
    /\ upload documents store w = (w', inr (reached, failed))
    /\ match failed with
       | None => reached = after_request store points
       | Some e =>
           exists taken refused later moment,
             batches = taken ++ refused :: later
             /\ qdrant_refuses moment (after_request store (concat taken))
                  refused
                = Some (e, reached)
       end.
Proof.
  intros Hpoints. unfold upsert_to_qdrant. rewrite Hpoints. cbv zeta.
  destruct (batch_iterator_concat points 500 ltac:(lia))
    as (batches & Hbatches & Hconcat).
  exists batches. unfold Helpers.batch_iterator in Hbatches |- *.
  destruct (range 0 (len points) 500) as [starts|]; [|discriminate].
  injection Hbatches as <-. simpl.
  destruct (upload_loop_outcome points 500 starts store w)
    as (w' & reached & failed & Hrun & Hout).
  exists w', reached, failed. split; [done|]. split; [done|].
  destruct failed; [done|]. by rewrite <- Hconcat.
Qed.

(** An upload that returns leaves what one request with all the points
    would leave. *)
Lemma upsert_to_qdrant_returned (documents : list (document E))
    (store reached : gmap str (point E)) (w w' : world) :
  upload documents store w = (w', inr (reached, None)) ->
  exists points,
    build_points uuid5_dns documents = inr points
    /\ reached = after_request store points.
Proof.
  intros Hrun.
  destruct (build_points uuid5_dns documents) as [e|points] eqn:Hpoints.
  { unfold upsert_to_qdrant in Hrun. by rewrite Hpoints in Hrun. }
  exists points. split; [done|].
  destruct (upsert_to_qdrant_outcome documents points store w Hpoints)
    as (batches & w1 & reached1 & failed & _ & Hrun1 & Hout).
  rewrite Hrun1 in Hrun. by injection Hrun as _ -> ->.
Qed.

(** A second upload of the same blocks changes nothing.  When an
    upload returned, a second upload of the same blocks that returns
    leaves the collection as the first left it; and it does return when
    the store refuses no request. *)
Theorem upsert_to_qdrant_idempotent (documents : list (document E))
    (store store1 : gmap str (point E)) (w1 w1' : world) :
  upload documents store w1 = (w1', inr (store1, None)) ->
  (forall (w2 w2' : world) (store2 : gmap str (point E)),
     upload documents store1 w2 = (w2', inr (store2, None)) ->
     store2 = store1)
  /\ ((forall moment held request, qdrant_refuses moment held request = None) ->
      forall w2 : world, exists w2',
        upload documents store1 w2 = (w2', inr (store1, None))).
Proof.
  intros Hrun.
  destruct (upsert_to_qdrant_returned _ _ _ _ _ Hrun) as (points & Hpoints & ->).
  split.
  - intros w2 w2' store2 Hrun2.
    destruct (upsert_to_qdrant_returned _ _ _ _ _ Hrun2) as (points2 & Hpoints2 & ->).
    rewrite Hpoints in Hpoints2. injection Hpoints2 as <-.
    apply written_idempotent.
  - intros Htaken w2.
    destruct (upsert_to_qdrant_outcome documents points
                (after_request store points) w2 Hpoints)
      as (batches & w2' & reached & failed & _ & Hrun2 & Hout).
    destruct failed as [e|].
    + destruct Hout as (taken & refused & later & moment & _ & Hrefused).
      by rewrite Htaken in Hrefused.
    + exists w2'. by rewrite Hrun2, Hout, written_idempotent.
Qed.

Lemma upsert_to_qdrant_holds (documents : list (document E))
    (store store' : gmap str (point E)) (w w' : world) :
  upload documents store w = (w', inr (store', None)) ->
  (forall doc, doc ∈ documents ->
     exists doc' v,
       doc' ∈ documents
       /\ uuid5_dns (doc_id doc') = uuid5_dns (doc_id doc)
       /\ doc_vector doc' = Some v
       /\ store' !! uuid5_dns (doc_id doc) = Some (kept (point_of doc' v)))
  /\ (forall k, k ∉ map uuid5_dns (map doc_id documents) ->
        store' !! k = store !! k).
Proof.
  intros Hrun.
  destruct (upsert_to_qdrant_returned _ _ _ _ _ Hrun) as (points & Hpoints & ->).
  pose proof (build_points_vectors documents) as Hvectors.
  rewrite Hpoints in Hvectors.
  destruct (written_lookup points) as (last_of & Hlookup & Hsome & Hnone).
  pose proof (build_points_ids uuid5_dns documents points Hpoints) as Hids.
  split.
  - intros doc Hdoc. rewrite Hlookup.
    destruct (last_of (uuid5_dns (doc_id doc))) as [p|] eqn:Hp.
    + destruct (Hsome _ _ Hp) as [Hin Hid].
      apply list_elem_of_lookup in Hin as [i Hi].
      destruct (Forall2_lookup_r _ _ _ _ _ Hvectors Hi)
        as (doc' & Hdoc' & v & Hv & ->).
      exists doc', v. split; [by eapply list_elem_of_lookup_2|].
      split; [done|]. done.
    + exfalso. apply (Hnone _ Hp). rewrite Hids.
      apply list_elem_of_In, in_map, in_map. by apply list_elem_of_In.
  - intros k Hk. rewrite Hlookup.
    destruct (last_of k) as [p|] eqn:Hp; [|done].
    destruct (Hsome _ _ Hp) as [Hin <-]. exfalso. apply Hk. rewrite <- Hids.
    apply list_elem_of_In, in_map. by apply list_elem_of_In.
Qed.

(** After an upload that returns, the collection holds under the
    identifier of every uploaded block a point built from an uploaded
    block with this identifier: its text, its metadata, and its vector
    in the form that the collection stores.  Every other entry of the
    collection is as it was. *)
Theorem upsert_to_qdrant_contents (documents : list (document E))
    (store store' : gmap str (point E)) (w w' : world) :
  upload documents store w = (w', inr (store', None)) ->
  (forall doc, doc ∈ documents ->
     exists doc' v,
       doc' ∈ documents
       /\ uuid5_dns (doc_id doc') = uuid5_dns (doc_id doc)
       /\ doc_vector doc' = Some v
       /\ store' !! uuid5_dns (doc_id doc)
          = Some {| point_id := uuid5_dns (doc_id doc');
                    point_vector := stored_vector v;
                    payload_text := doc_text doc';
                    payload_metadata := doc_metadata doc' |})
  /\ (forall k, k ∉ map uuid5_dns (map doc_id documents) ->
        store' !! k = store !! k).
Proof. apply upsert_to_qdrant_holds. Qed.

(** How an upload fails.  A block without vector raises the [KeyError]
    of ['vector'] while the points are built: no request is sent, the
    collection and the world are as they were.  When every block has a
    vector, the upload fails only by a refusal of the store, at the
    first request of 500 points that is refused: the requests before it
    stay written, so the upload is not all or nothing. *)
Theorem upsert_to_qdrant_failures (documents : list (document E))
    (store : gmap str (point E)) (w : world) :
  (Exists (fun doc => doc_vector doc = None) documents ->
   upload documents store w
   = (w, inr (store, Some (OtherError (lit "'vector'")))))
  /\ (Forall (fun doc => is_Some (doc_vector doc)) documents ->
      exists points batches w' reached failed,
        build_points uuid5_dns documents = inr points
        /\ Helpers.batch_iterator points 500 = Some batches
        /\ upload documents store w = (w', inr (reached, failed))
        /\ match failed with
           | None => reached = after_request store points
           | Some e =>
               exists taken refused later moment,
                 batches = taken ++ refused :: later
                 /\ qdrant_refuses moment (after_request store (concat taken))
                      refused
                    = Some (e, reached)
           end).
Proof.
  pose proof (build_points_vectors documents) as Hvectors.
  destruct (build_points uuid5_dns documents) as [e|points] eqn:Hpoints.
  - destruct Hvectors as [-> Hex]. split.
    + intros _. unfold upsert_to_qdrant. by rewrite Hpoints.
    + intros Hall. exfalso. apply Exists_exists in Hex as (doc & Hdoc & Hnone).
      rewrite Forall_forall in Hall. destruct (Hall doc Hdoc) as [v Hv].
      congruence.
  - split.
    + intros Hex. exfalso. apply Exists_exists in Hex as (doc & Hdoc & Hnone).
      apply list_elem_of_lookup in Hdoc as [i Hi].
      destruct (Forall2_lookup_l _ _ _ _ _ Hvectors Hi) as (p & _ & v & Hv & _).
      congruence.
    + intros _.
      destruct (upsert_to_qdrant_outcome documents points store w Hpoints)
        as (batches & w' & reached & failed & Hbatches & Hrun & Hout).
      by exists points, batches, w', reached, failed.
Qed.

End UploadStore.

(** A placeholder of 3072 components among vectors of dimension 3 is
    refused by a collection of dimension 3: the upload raises, and
    nothing of the request is written. *)
Lemma upload_of_placeholder_refused :
  Ingest.upsert_to_qdrant Examples.uuid5_stub (Examples.checks_dimension 3)
    Examples.unit_length
    (Examples.embedded_smith
     ++ map (Ingest.with_vector Embedding.zero_vector)
          (Examples.smith_documents None))
    ∅ Examples.startup
  = (Examples.startup,
     inr (∅, Some (Embedding.OtherError
                     (lit "Wrong input: Vector dimension error")))).
Proof. by vm_compute. Qed.

Lemma upsert_to_qdrant_idempotent_witness :
  (forall (w2 w2' : Embedding.world) (store2 : gmap str (Ingest.point unit)),
     Ingest.upsert_to_qdrant Examples.uuid5_stub Examples.takes_all
       Examples.unit_length Examples.embedded_smith
       (Examples.store_after Examples.uploaded) w2
     = (w2', inr (store2, None)) ->
     store2 = Examples.store_after Examples.uploaded)
  /\ ((forall (moment : Embedding.world)
              (held : gmap str (Ingest.point unit))
              (request : list (Ingest.point unit)),
         Examples.takes_all moment held request = None) ->
      forall w2 : Embedding.world, exists w2',
        Ingest.upsert_to_qdrant Examples.uuid5_stub Examples.takes_all
          Examples.unit_length Examples.embedded_smith
          (Examples.store_after Examples.uploaded) w2
        = (w2', inr (Examples.store_after Examples.uploaded, None))).
Proof.
  apply (upsert_to_qdrant_idempotent Examples.uuid5_stub Examples.takes_all
           Examples.unit_length Examples.embedded_smith ∅
           (Examples.store_after Examples.uploaded)
           Examples.startup Examples.uploaded.1).
  reflexivity.
Defined.

Lemma upsert_to_qdrant_contents_witness :
  (forall doc, doc ∈ Examples.embedded_smith ->
     exists doc' v,
       doc' ∈ Examples.embedded_smith
       /\ Examples.uuid5_stub (Ingest.doc_id doc')
          = Examples.uuid5_stub (Ingest.doc_id doc)
       /\ Ingest.doc_vector doc' = Some v
       /\ Examples.store_after Examples.uploaded
            !! Examples.uuid5_stub (Ingest.doc_id doc)
          = Some {| Ingest.point_id := Examples.uuid5_stub (Ingest.doc_id doc');
                    Ingest.point_vector := Examples.unit_length v;
                    Ingest.payload_text := Ingest.doc_text doc';
                    Ingest.payload_metadata := Ingest.doc_metadata doc' |})
  /\ (forall k,
        k ∉ map Examples.uuid5_stub (map Ingest.doc_id Examples.embedded_smith) ->
        Examples.store_after Examples.uploaded !! k
        = (∅ : gmap str (Ingest.point unit)) !! k).
Proof.
  apply (upsert_to_qdrant_contents Examples.uuid5_stub
           (Examples.checks_dimension 3) Examples.unit_length
           Examples.embedded_smith
           ∅ (Examples.store_after Examples.uploaded)
           Examples.startup Examples.uploaded.1).
  reflexivity.
Defined.

(** ** Embedding of the blocks of a file *)

Section EmbedDocuments.

Import Cleaner Embedding Ingest.

Context {E : Type}.
Variable md5_hexdigest : str -> str.
Variable pickle_dump : vector -> list Byte.byte.
Variable pickle_load : list Byte.byte -> option vector.
Variable cfg : settings.

(** The cached vector of a block, and the block with it. *)
Local Abbreviation hit := (fun (cache : option cache_handle)
    (fs : gmap str (list Byte.byte)) (doc : document E) =>
  cache_get md5_hexdigest pickle_load cache fs (doc_text doc)).

Local Abbreviation attach := (fun (cache : option cache_handle)
    (fs : gmap str (list Byte.byte)) (doc : document E) =>
  match hit cache fs doc with
  | Some v => with_vector v doc
  | None => doc
  end).

Lemma collect_texts_spec (cache : option cache_handle)
    (fs : gmap str (list Byte.byte)) (documents : list (document E)) :
  forall i : nat,
    (collect_texts md5_hexdigest pickle_load cache fs i documents).1
    = map (attach cache fs) documents
    /\ Forall (fun p : nat * str =>
                 (i <= p.1)%nat
                 /\ exists doc, documents !! (p.1 - i)%nat = Some doc
                                /\ p.2 = doc_text doc
                                /\ hit cache fs doc = None)
         (collect_texts md5_hexdigest pickle_load cache fs i documents).2
    /\ NoDup (collect_texts md5_hexdigest pickle_load cache fs i documents).2.*1
    /\ (forall (j : nat) doc,
          documents !! j = Some doc -> hit cache fs doc = None ->
          ((i + j)%nat, doc_text doc)
          ∈ (collect_texts md5_hexdigest pickle_load cache fs i documents).2).
Proof.
  induction documents as [|doc rest IH]; intros i.
  - cbn [collect_texts]. simpl. repeat split; try constructor. by intros [|j] d.
  - cbn [collect_texts]. destruct (IH (S i)) as (Hdocs & Htodo & Hdup & Hall).
    destruct (collect_texts _ _ _ _ _ rest) as [rest' todo]. simpl in *.
    assert (Htodo' :
      Forall (fun p : nat * str =>
                (i <= p.1)%nat
                /\ exists d, (doc :: rest) !! (p.1 - i)%nat = Some d
                             /\ p.2 = doc_text d /\ hit cache fs d = None) todo).
    { eapply Forall_impl; [exact Htodo|].
      intros p (Hle & d & Hd & Htext & Hmiss). split; [lia|].
      exists d. split; [|done].
      by replace (p.1 - i)%nat with (S (p.1 - S i)) by lia. }
    destruct (cache_get md5_hexdigest pickle_load cache fs (doc_text doc))
      as [v|] eqn:Hhit; simpl.
    + split; [by rewrite Hdocs|]. split; [done|]. split; [done|].
      intros [|j] d Hd Hmiss; simpl in Hd.
      * injection Hd as <-. congruence.
      * replace (i + S j)%nat with (S i + j)%nat by lia. by apply Hall.
    + split; [by rewrite Hdocs|]. split; [|split].
      * constructor; [|done]. simpl. split; [lia|].
        exists doc. by rewrite Nat.sub_diag.
      * constructor; [|done]. intros Hin.
        apply list_elem_of_fmap in Hin as (p & Hp & Hin).
        rewrite Forall_forall in Htodo. destruct (Htodo p Hin) as [Hle _]. lia.
      * intros [|j] d Hd Hmiss; simpl in Hd.
        -- injection Hd as <-. rewrite Nat.add_0_r. by left.
        -- right. replace (i + S j)%nat with (S i + j)%nat by lia.
           by apply Hall.
Qed.

Lemma assign_embeddings_lookup (cache : option cache_handle)
    (pairs : list (nat * vector)) :
  forall (documents : list (document E)) (fs : gmap str (list Byte.byte))
         (j : nat),
    NoDup pairs.*1 ->
    (assign_embeddings md5_hexdigest pickle_dump cache pairs documents fs).1 !! j
    = match (list_to_map pairs : gmap nat vector) !! j with
      | Some v => with_vector v <$> documents !! j
      | None => documents !! j
      end.
Proof.
  induction pairs as [|[idx emb] rest IH]; intros documents fs j Hdup.
  - done.
  - cbn [assign_embeddings]. apply NoDup_cons in Hdup as [Hidx Hdup].
    rewrite IH by done. cbn [list_to_map foldr]. simpl.
    destruct (decide (j = idx)) as [->|Hne].
    + rewrite lookup_insert_eq.
      rewrite (not_elem_of_list_to_map_1 _ _ Hidx).
      rewrite list_lookup_alter. by rewrite decide_True.
    + rewrite lookup_insert_ne by done.
      destruct (list_to_map rest !! j);
        rewrite list_lookup_alter; by rewrite decide_False.
Qed.

Lemma assign_embeddings_length (cache : option cache_handle)
    (pairs : list (nat * vector)) (documents : list (document E))
    (fs : gmap str (list Byte.byte)) :
  length (assign_embeddings md5_hexdigest pickle_dump cache pairs documents fs).1
  = length documents.
Proof.
  rewrite <- (length_map doc_id), assign_embeddings_ids. apply length_map.
Qed.

Variable R : str -> vector -> Prop.
Variable c : client.
Variable srv : remote.
Hypothesis srv_ok : well_behaved R srv.
Hypothesis batch_size_ok : 0 < embedding_batch_size cfg.

(** When [embed_documents] returns, with an endpoint that keeps its
    contract and a positive batch size, the blocks are those it was
    given, in the same order, with their identifier, text and metadata,
    and every block has a vector: the cached one when the cache has the
    text, otherwise an embedding of the text or the placeholder. *)
Theorem embed_documents_vectors (cache : option cache_handle)
    (documents documents' : list (document E))
    (fs fs' : gmap str (list Byte.byte)) (w w' : world) :
  embed_documents md5_hexdigest pickle_dump pickle_load cfg c srv cache
    documents fs w = (w', inr (documents', fs')) ->
  Forall2 (fun doc doc' =>
             doc_id doc' = doc_id doc /\ doc_text doc' = doc_text doc
             /\ doc_metadata doc' = doc_metadata doc
             /\ exists v, doc_vector doc' = Some v
                  /\ (hit cache fs doc = Some v
                      \/ (hit cache fs doc = None
                          /\ embedding_or_placeholder R (doc_text doc) v)))
    documents documents'.
Proof.
  unfold embed_documents. intros Hrun.
  destruct (collect_texts_spec cache fs documents 0)
    as (Hdocs & Htodo & Hdup & Hall).
  destruct (collect_texts _ _ _ _ _ documents) as [attached todo].
  simpl in Hdocs, Htodo, Hdup, Hall. subst attached.
  assert (Hattach : forall doc v,
            hit cache fs doc = None ->
            with_vector v (attach cache fs doc) = with_vector v doc).
  { intros doc v Hmiss. by rewrite Hmiss. }
  destruct todo as [|p todo'] eqn:Htodo_eq; cbn [is_empty] in Hrun.
  - injection Hrun as _ <- _.
    apply Forall2_same_length_lookup. split; [by rewrite length_map|].
    intros j doc doc' Hdoc Hdoc'.
    rewrite list_lookup_fmap, Hdoc in Hdoc'. injection Hdoc' as <-.
    destruct (hit cache fs doc) as [v|] eqn:Hhit.
    + repeat split. by exists v; split; [|left].
    + specialize (Hall j doc Hdoc Hhit). by apply elem_of_nil in Hall.
  - rewrite <- Htodo_eq in *. clear Htodo_eq p todo'.
    unfold mbind, M_bind in Hrun.
    destruct (embed_batch c srv todo.*2 (Some (embedding_batch_size cfg)) w)
      as [w1 [e|embeddings]] eqn:Hbatch; [discriminate|].
    injection Hrun as _ Hresult.
    pose proof (embed_batch_returns R c srv srv_ok todo.*2
                  (Some (embedding_batch_size cfg)) batch_size_ok
                  w w1 embeddings Hbatch) as Hrelated.
    pose proof (Forall2_length _ _ _ Hrelated) as Hlen.
    rewrite length_fmap in Hlen.
    assert (Hfst : (zip todo.*1 embeddings).*1 = todo.*1)
      by (apply fst_zip; rewrite length_fmap; lia).
    assert (Hdocs' : documents'
                     = (assign_embeddings md5_hexdigest pickle_dump cache
                          (zip todo.*1 embeddings)
                          (map (attach cache fs) documents) fs).1)
      by (by rewrite Hresult).
    clear Hresult. subst documents'.
    apply Forall2_same_length_lookup.
    split; [by rewrite assign_embeddings_length, length_map|].
    intros j doc doc' Hdoc Hdoc'.
    rewrite assign_embeddings_lookup in Hdoc' by (by rewrite Hfst).
    rewrite list_lookup_fmap, Hdoc in Hdoc'. simpl in Hdoc'.
    destruct (hit cache fs doc) as [v0|] eqn:Hhit.
    + assert (Hnot : j ∉ (zip todo.*1 embeddings).*1).
      { rewrite Hfst. intros Hin.
        apply list_elem_of_fmap in Hin as (p & -> & Hin).
        rewrite Forall_forall in Htodo.
        destruct (Htodo p Hin) as (_ & d & Hd & _ & Hmiss).
        rewrite Nat.sub_0_r, Hdoc in Hd. injection Hd as <-. congruence. }
      rewrite (not_elem_of_list_to_map_1 _ _ Hnot) in Hdoc'.
      injection Hdoc' as <-.
      repeat split. exists v0. by split; [|left].
    + specialize (Hall j doc Hdoc Hhit). simpl in Hall.
      apply list_elem_of_lookup in Hall as [k Hk].
      assert (Htext : todo.*2 !! k = Some (doc_text doc))
        by (by rewrite list_lookup_fmap, Hk).
      destruct (Forall2_lookup_l _ _ _ _ _ Hrelated Htext) as (v & Hv & Hrel).
      assert (Hpair : (j, v) ∈ zip todo.*1 embeddings).
      { apply list_elem_of_lookup. exists k.
        rewrite lookup_zip_with, list_lookup_fmap, Hk. simpl. by rewrite Hv. }
      assert (Hmap : (list_to_map (zip todo.*1 embeddings) : gmap nat vector) !! j
                     = Some v).
      { apply elem_of_list_to_map_1; [by rewrite Hfst | done]. }
      rewrite Hmap in Hdoc'. injection Hdoc' as <-.
      repeat split. exists v. split; [done|]. by right.
Qed.

End EmbedDocuments.

(** ** Embedding with the cache *)

Section EmbedCache.

Import Cleaner Embedding Ingest.

Context {E : Type}.
Variable md5_hexdigest : str -> str.
Variable pickle_dump : vector -> list Byte.byte.
Variable pickle_load : list Byte.byte -> option vector.
Variable cfg : settings.

Local Abbreviation cached := (fun (cache : option cache_handle)
    (fs : gmap str (list Byte.byte)) (text : str) =>
  cache_get md5_hexdigest pickle_load cache fs text).

Local Abbreviation with_cached := (fun (cache : option cache_handle)
    (fs : gmap str (list Byte.byte)) (doc : document E) =>
  match cached cache fs (doc_text doc) with
  | Some v => with_vector v doc
  | None => doc
  end).

Lemma embed_documents_only_hits (c : client) (srv : remote)
    (cache : option cache_handle) (documents : list (document E))
    (fs : gmap str (list Byte.byte)) (w : world) :
  Forall (fun doc => is_Some (cached cache fs (doc_text doc))) documents ->
  embed_documents md5_hexdigest pickle_dump pickle_load cfg c srv cache
    documents fs w
  = (w, inr (map (with_cached cache fs) documents, fs)).
Proof.
  intros Hhits. unfold embed_documents.
  destruct (collect_texts_spec md5_hexdigest pickle_load cache fs documents 0)
    as (Hdocs & Htodo & _).
  destruct (collect_texts _ _ _ _ _ documents) as [attached todo].
  simpl in Hdocs, Htodo. subst attached.
  destruct todo as [|p todo]; [done|]. exfalso.
  apply Forall_cons in Htodo as [(_ & doc & Hdoc & _ & Hmiss) _].
  rewrite Forall_forall in Hhits.
  destruct (Hhits doc) as [v Hv]; [by eapply list_elem_of_lookup_2|].
  congruence.
Qed.

(** When the cache has the text of every block, [embed_documents]
    attaches the cached vectors and does nothing else: no request is
    sent, the clock does not move, and the cache files are as they
    were. *)
Theorem embed_documents_all_cached (c : client) (srv : remote)
    (cache : option cache_handle) (documents : list (document E))
    (fs : gmap str (list Byte.byte)) (w : world) :
  Forall (fun doc => is_Some (cached cache fs (doc_text doc))) documents ->
  embed_documents md5_hexdigest pickle_dump pickle_load cfg c srv cache
    documents fs w
  = (w, inr (map (with_cached cache fs) documents, fs)).
Proof. apply embed_documents_only_hits. Qed.

Variable h : cache_handle.
Hypothesis reads_ok : forall text, reads h text = DiskCache.ReadOk.
Hypothesis writes_ok : forall text, writes h text = DiskCache.WriteOk.
Hypothesis pickle_loads : forall v, is_Some (pickle_load (pickle_dump v)).

Local Abbreviation file_of := (fun text : str =>
  DiskCache.cache_file md5_hexdigest (cache_dir h) text).

Lemma cached_dumped (fs : gmap str (list Byte.byte)) (text : str) (v : vector) :
  fs !! file_of text = Some (pickle_dump v) ->
  is_Some (cached (Some h) fs text).
Proof.
  intros Hfile. unfold cache_get, DiskCache.get.
  rewrite Hfile, reads_ok. apply pickle_loads.
Qed.

Lemma assign_embeddings_files (pairs : list (nat * vector)) :
  forall (documents : list (document E)) (fs : gmap str (list Byte.byte)),
    (forall file,
       (assign_embeddings md5_hexdigest pickle_dump (Some h) pairs documents fs).2
         !! file = fs !! file
       \/ exists v,
            (assign_embeddings md5_hexdigest pickle_dump (Some h) pairs
               documents fs).2 !! file = Some (pickle_dump v))
    /\ (forall idx emb doc,
          (idx, emb) ∈ pairs -> documents !! idx = Some doc ->
          exists v,
            (assign_embeddings md5_hexdigest pickle_dump (Some h) pairs
               documents fs).2 !! file_of (doc_text doc)
            = Some (pickle_dump v)).
Proof.
  induction pairs as [|[idx emb] rest IH]; intros documents fs.
  - split; [by left|]. by intros idx emb doc Hin%elem_of_nil.
  - cbn [assign_embeddings].
    set (documents1 := alter (with_vector emb) idx documents).
    set (fs1 := match documents1 !! idx with
                | Some doc => cache_set md5_hexdigest pickle_dump (Some h) fs
                                (doc_text doc) emb
                | None => fs
                end).
    destruct (IH documents1 fs1) as [Hkeep Hset].
    assert (Hfs1 : forall file,
              fs1 !! file = fs !! file
              \/ fs1 !! file = Some (pickle_dump emb)).
    { intros file. subst fs1. destruct (documents1 !! idx) as [d|]; [|by left].
      unfold cache_set, DiskCache.set. rewrite writes_ok.
      destruct (decide (file = file_of (doc_text d))) as [->|Hne].
      - right. by rewrite lookup_insert_eq.
      - left. by rewrite lookup_insert_ne. }
    split.
    + intros file. destruct (Hkeep file) as [Heq|Hdump]; [|by right].
      rewrite Heq. destruct (Hfs1 file) as [->| ->]; [by left | right; by eexists].
    + intros idx' emb' doc Hin Hdoc.
      apply elem_of_cons in Hin as [[= -> ->]|Hin].
      * assert (Hdoc1 : documents1 !! idx = Some (with_vector emb doc)).
        { subst documents1. rewrite list_lookup_alter, decide_True by done.
          by rewrite Hdoc. }
        assert (Hfile : fs1 !! file_of (doc_text doc) = Some (pickle_dump emb)).
        { subst fs1. rewrite Hdoc1. unfold cache_set, DiskCache.set.
          rewrite writes_ok. simpl. by rewrite lookup_insert_eq. }
        destruct (Hkeep (file_of (doc_text doc))) as [Heq|Hdump]; [|done].
        exists emb. by rewrite Heq.
      * assert (Hdoc1 : exists d1, documents1 !! idx' = Some d1
                                   /\ doc_text d1 = doc_text doc).
        { subst documents1. rewrite list_lookup_alter.
          destruct (decide (idx = idx')) as [->|]; [rewrite Hdoc|]; by eexists. }
        destruct Hdoc1 as (d1 & Hd1 & <-). by eapply Hset.
Qed.

Variable R : str -> vector -> Prop.
Variable c : client.
Variable srv : remote.
Hypothesis srv_ok : well_behaved R srv.
Hypothesis batch_size_ok : 0 < embedding_batch_size cfg.

(** With a cache that reads and writes without failure and a pickle
    that loads every dump, a run of [embed_documents] that returns
    leaves the text of every block in the cache. *)
Lemma embed_documents_fills_cache (documents documents' : list (document E))
    (fs fs' : gmap str (list Byte.byte)) (w w' : world) :
  embed_documents md5_hexdigest pickle_dump pickle_load cfg c srv (Some h)
    documents fs w = (w', inr (documents', fs')) ->
  Forall (fun doc => is_Some (cached (Some h) fs' (doc_text doc))) documents.
Proof.
  unfold embed_documents. intros Hrun.
  destruct (collect_texts_spec md5_hexdigest pickle_load (Some h) fs documents 0)
    as (Hdocs & Htodo & Hdup & Hall).
  destruct (collect_texts _ _ _ _ _ documents) as [attached todo].
  simpl in Hdocs, Htodo, Hdup, Hall. subst attached.
  destruct todo as [|p todo'] eqn:Htodo_eq; cbn [is_empty] in Hrun.
  - injection Hrun as _ _ <-. apply Forall_forall. intros doc Hdoc.
    apply list_elem_of_lookup in Hdoc as [j Hj].
    destruct (cache_get md5_hexdigest pickle_load (Some h) fs (doc_text doc))
      as [v|] eqn:Hhit; [done|].
    specialize (Hall j doc Hj Hhit). by apply elem_of_nil in Hall.
  - rewrite <- Htodo_eq in *. clear Htodo_eq p todo'.
    unfold mbind, M_bind in Hrun.
    destruct (embed_batch c srv todo.*2 (Some (embedding_batch_size cfg)) w)
      as [w1 [e|embeddings]] eqn:Hbatch; [discriminate|].
    injection Hrun as _ Hresult.
    pose proof (embed_batch_returns R c srv srv_ok todo.*2
                  (Some (embedding_batch_size cfg)) batch_size_ok
                  w w1 embeddings Hbatch) as Hrelated.
    destruct (assign_embeddings_files (zip todo.*1 embeddings)
                (map (with_cached (Some h) fs) documents) fs) as [Hkeep Hset].
    assert (Hfs' : fs' = (assign_embeddings md5_hexdigest pickle_dump (Some h)
                            (zip todo.*1 embeddings)
                            (map (with_cached (Some h) fs) documents) fs).2)
      by (apply (f_equal snd) in Hresult; symmetry; exact Hresult).
    clear Hresult. rewrite <- Hfs' in Hkeep, Hset. clear Hfs'.
    apply Forall_forall. intros doc Hdoc.
    apply list_elem_of_lookup in Hdoc as [j Hj].
    destruct (cache_get md5_hexdigest pickle_load (Some h) fs (doc_text doc))
      as [v0|] eqn:Hhit.
    + destruct (Hkeep (file_of (doc_text doc))) as [Heq|[v Hv]].
      * exists v0. rewrite <- Hhit. unfold cache_get, DiskCache.get.
        by rewrite Heq.
      * by eapply cached_dumped.
    + specialize (Hall j doc Hj Hhit). simpl in Hall.
      apply list_elem_of_lookup in Hall as [k Hk].
      assert (Htext : todo.*2 !! k = Some (doc_text doc))
        by (by rewrite list_lookup_fmap, Hk).
      destruct (Forall2_lookup_l _ _ _ _ _ Hrelated Htext) as (v & Hv & _).
      assert (Hpair : (j, v) ∈ zip todo.*1 embeddings).
      { apply list_elem_of_lookup. exists k.
        rewrite lookup_zip_with, list_lookup_fmap, Hk. simpl. by rewrite Hv. }
      assert (Hattached : map (with_cached (Some h) fs) documents !! j
                          = Some doc).
      { rewrite list_lookup_fmap, Hj.
        change (Some (match cache_get md5_hexdigest pickle_load (Some h) fs
                              (doc_text doc) with
                      | Some v1 => with_vector v1 doc
                      | None => doc
                      end) = Some doc).
        by rewrite Hhit. }
      destruct (Hset j v doc Hpair Hattached) as [v' Hv'].
      by eapply cached_dumped.
Qed.

(** The cache makes a second run free.  After a run of
    [embed_documents] that returned, with a cache that reads and writes
    without failure and a pickle that loads every dump, a run on
    blocks with the same texts sends no request, whatever the client
    and the endpoint: the world and the cache files are left as they
    are, and every block gets the cached vector of its text. *)
Theorem embed_documents_second_run (documents documents' : list (document E))
    (fs fs' : gmap str (list Byte.byte)) (w w' : world)
    (c2 : client) (srv2 : remote) (documents2 : list (document E))
    (w2 : world) :
  embed_documents md5_hexdigest pickle_dump pickle_load cfg c srv (Some h)
    documents fs w = (w', inr (documents', fs')) ->
  Forall (fun doc2 => doc_text doc2 ∈ map doc_text documents) documents2 ->
  embed_documents md5_hexdigest pickle_dump pickle_load cfg c2 srv2 (Some h)
    documents2 fs' w2
  = (w2, inr (map (with_cached (Some h) fs') documents2, fs'))
  /\ Forall (fun doc2 => is_Some (cached (Some h) fs' (doc_text doc2)))
       documents2.
Proof.
  intros Hrun Htexts.
  pose proof (embed_documents_fills_cache _ _ _ _ _ _ Hrun) as Hfilled.
  assert (Hhits : Forall (fun doc2 => is_Some (cached (Some h) fs' (doc_text doc2)))
                    documents2).
  { apply Forall_forall. intros doc2 Hdoc2.
    rewrite Forall_forall in Htexts. specialize (Htexts doc2 Hdoc2).
    apply list_elem_of_In, in_map_iff in Htexts as (doc & Heq & Hdoc).
    rewrite Forall_forall in Hfilled.
    rewrite <- Heq. apply Hfilled. by apply list_elem_of_In. }
  split; [by apply embed_documents_only_hits | done].
Qed.

End EmbedCache.

Lemma embed_documents_vectors_witness :
  Forall2 (fun doc doc' =>
             Ingest.doc_id doc' = Ingest.doc_id doc
             /\ Ingest.doc_text doc' = Ingest.doc_text doc
             /\ Ingest.doc_metadata doc' = Ingest.doc_metadata doc
             /\ exists v, Ingest.doc_vector doc' = Some v
                  /\ (Ingest.cache_get Examples.md5_stub Examples.load_stub None ∅
                        (Ingest.doc_text doc) = Some v
                      \/ (Ingest.cache_get Examples.md5_stub Examples.load_stub
                            None ∅ (Ingest.doc_text doc) = None
                          /\ Embedding.embedding_or_placeholder
                               (fun _ v => v = Examples.ones 3)
                               (Ingest.doc_text doc) v)))
    (Examples.smith_documents None)
    (Examples.documents_after Examples.embedded_without_cache).
Proof.
  apply (embed_documents_vectors Examples.md5_stub Examples.dump_stub
           Examples.load_stub Examples.small_chunks
           (fun _ v => v = Examples.ones 3) Examples.default_client
           (Examples.rejects_bad 3) (rejects_bad_well_behaved 3)
           ltac:(simpl; lia) None (Examples.smith_documents None)
           (Examples.documents_after Examples.embedded_without_cache)
           ∅ (Examples.cache_after Examples.embedded_without_cache)
           Examples.startup Examples.embedded_without_cache.1).
  reflexivity.
Defined.

Lemma embed_documents_all_cached_witness :
  Ingest.embed_documents Examples.md5_stub Examples.dump_stub Examples.load_ones
    Examples.small_chunks Examples.single_try Examples.unreachable
    (Some Examples.cache_on) (Examples.smith_documents None)
    (Examples.cache_after Examples.embedded_with_cache) Examples.startup
  = (Examples.startup,
     inr (map (fun doc =>
                 match Ingest.cache_get Examples.md5_stub Examples.load_ones
                         (Some Examples.cache_on)
                         (Examples.cache_after Examples.embedded_with_cache)
                         (Ingest.doc_text doc) with
                 | Some v => Ingest.with_vector v doc
                 | None => doc
                 end) (Examples.smith_documents None),
          Examples.cache_after Examples.embedded_with_cache)).
Proof.
  apply (embed_documents_all_cached Examples.md5_stub Examples.dump_stub
           Examples.load_ones Examples.small_chunks Examples.single_try
           Examples.unreachable (Some Examples.cache_on)
           (Examples.smith_documents None)
           (Examples.cache_after Examples.embedded_with_cache) Examples.startup).
  vm_compute. repeat constructor; by eexists.
Defined.

Lemma embed_documents_second_run_witness :
  Ingest.embed_documents Examples.md5_stub Examples.dump_stub Examples.load_ones
    Examples.small_chunks Examples.single_try Examples.unreachable
    (Some Examples.cache_on) (Examples.smith_documents (Some (lit "people")))
    (Examples.cache_after Examples.embedded_with_cache) Examples.startup
  = (Examples.startup,
     inr (map (fun doc =>
                 match Ingest.cache_get Examples.md5_stub Examples.load_ones
                         (Some Examples.cache_on)
                         (Examples.cache_after Examples.embedded_with_cache)
                         (Ingest.doc_text doc) with
                 | Some v => Ingest.with_vector v doc
                 | None => doc
                 end) (Examples.smith_documents (Some (lit "people"))),
          Examples.cache_after Examples.embedded_with_cache))
  /\ Forall (fun doc2 =>
               is_Some (Ingest.cache_get Examples.md5_stub Examples.load_ones
                          (Some Examples.cache_on)
                          (Examples.cache_after Examples.embedded_with_cache)
                          (Ingest.doc_text doc2)))
       (Examples.smith_documents (Some (lit "people"))).
Proof.
  apply (embed_documents_second_run Examples.md5_stub Examples.dump_stub
           Examples.load_ones Examples.small_chunks Examples.cache_on
           ltac:(reflexivity) ltac:(reflexivity) ltac:(by eexists)
           (fun _ v => v = Examples.ones 3) Examples.default_client
           (Examples.rejects_bad 3) (rejects_bad_well_behaved 3)
           ltac:(simpl; lia)
           (Examples.smith_documents None)
           (Examples.documents_after Examples.embedded_with_cache)
           ∅ (Examples.cache_after Examples.embedded_with_cache)
           Examples.startup Examples.embedded_with_cache.1
           Examples.single_try Examples.unreachable
           (Examples.smith_documents (Some (lit "people"))) Examples.startup).
  - reflexivity.
  - vm_compute. repeat constructor.
Defined.

(** ** Files with the same stem *)

Section SameStem.

Import Cleaner Embedding Ingest.

Context {E : Type}.
Variable clean_text : str -> str -> str.
Variable spacy : str -> option E.
Variable an : analyzers.
Variable auto_categorize : str -> str.
Variable md5_hexdigest : str -> str.
Variable pickle_dump : vector -> list Byte.byte.
Variable pickle_load : list Byte.byte -> option vector.
Variable uuid5_dns : str -> str.
Variable cfg : settings.
Variable qdrant_refuses :
  world -> gmap str (point E) -> list (point E)
  -> option (exn * gmap str (point E)).
Variable stored_vector : vector -> vector.

Lemma map_lookup_same {X Y} (g : X -> Y) (l l' : list X) (k : nat) (x : X) :
  map g l' = map g l -> l' !! k = Some x ->
  exists y, l !! k = Some y /\ g y = g x.
Proof.
  intros Hmap Hx. apply (f_equal (fun m => m !! k)) in Hmap.
  rewrite !list_lookup_fmap, Hx in Hmap. simpl in Hmap.
  destruct (l !! k) as [y|]; [|done]. injection Hmap as Hg. by exists y.
Qed.

(** The embedding stage changes nothing but the vectors. *)
Lemma embed_documents_keeps {Y} (g : document E -> Y) (c : client)
    (srv : remote) (cache : option cache_handle)
    (documents : list (document E)) (fs : gmap str (list Byte.byte)) :
  (forall v doc, g (with_vector v doc) = g doc) ->
  returns
    (embed_documents md5_hexdigest pickle_dump pickle_load cfg c srv cache
       documents fs)
    (fun r => map g r.1 = map g documents).
Proof.
  intros Hg. unfold embed_documents.
  assert (Hcollect : forall docs i,
            map g (collect_texts md5_hexdigest pickle_load cache fs i docs).1
            = map g docs).
  { induction docs as [|doc rest IH]; intros i; [done|].
    cbn [collect_texts]. specialize (IH (S i)).
    destruct (collect_texts _ _ _ _ _ rest) as [rest' texts].
    destruct (cache_get _ _ _ _ _); simpl in *; by rewrite IH, ?Hg. }
  assert (Hassign : forall pairs docs files,
            map g (assign_embeddings md5_hexdigest pickle_dump cache pairs
                     docs files).1
            = map g docs).
  { induction pairs as [|[idx emb] rest IH]; intros docs files; [done|].
    cbn [assign_embeddings]. rewrite IH. apply map_alter_same. apply Hg. }
  specialize (Hcollect documents 0%nat).
  destruct (collect_texts _ _ _ _ _ documents) as [documents' texts].
  simpl in Hcollect.
  destruct (is_empty texts); [by apply returns_ret|].
  eapply returns_bind; [apply returns_true | intros embeddings _].
  apply returns_ret. by rewrite Hassign.
Qed.

(** The identifier of a block is made of the stem of the file name and
    of the index of the block, so two files with the same stem, in two
    directories or with two extensions, share their identifiers.  The
    ingestion of the second one replaces the points of the first: under
    the identifier of every block of the first file whose index exists
    in the second, the collection then holds the text and the metadata
    of a block of the second file. *)
Theorem same_stem_overwrites
    (fuel1 : nat) (name1 full_path1 : str) (loaded1 : exn + str)
    (category1 : option str) (documents1 : list (document E))
    (fuel2 : nat) (name2 full_path2 : str) (loaded2 : exn + str)
    (category2 : option str) (documents2 : list (document E))
    (c : client) (srv : remote) (cache : option cache_handle)
    (fs fs' : gmap str (list Byte.byte)) (store store' : gmap str (point E))
    (w w' : world) :
  process_document clean_text spacy an auto_categorize cfg fuel1 name1
    full_path1 loaded1 category1 = Some (inr documents1) ->
  process_document clean_text spacy an auto_categorize cfg fuel2 name2
    full_path2 loaded2 category2 = Some (inr documents2) ->
  path_stem name1 = path_stem name2 ->
  embed_and_upsert md5_hexdigest pickle_dump pickle_load uuid5_dns cfg
    qdrant_refuses stored_vector c srv
    cache documents2 fs store w = (w', inr (fs', store')) ->
  forall (i : nat) (doc1 : document E),
    documents1 !! i = Some doc1 -> (i < length documents2)%nat ->
    exists doc2 p,
      doc2 ∈ documents2
      /\ store' !! uuid5_dns (doc_id doc1) = Some p
      /\ payload_text p = doc_text doc2
      /\ payload_metadata p = doc_metadata doc2.
Proof.
  intros Hdocs1 Hdocs2 Hstem Hrun i doc1 Hdoc1 Hi.
  pose proof (process_document_ids _ _ _ _ _ _ _ _ _ _ _ Hdocs1) as Hids1.
  pose proof (process_document_ids _ _ _ _ _ _ _ _ _ _ _ Hdocs2) as Hids2.
  destruct (lookup_lt_is_Some_2 documents2 i Hi) as [doc2 Hdoc2].
  assert (Hid : doc_id doc1 = doc_id doc2).
  { apply (f_equal (fun m => m !! i)) in Hids1, Hids2.
    rewrite !list_lookup_fmap in Hids1, Hids2.
    rewrite Hdoc1 in Hids1. rewrite Hdoc2 in Hids2.
    rewrite lookup_seq_lt in Hids1 by (by eapply lookup_lt_Some).
    rewrite lookup_seq_lt in Hids2 by done.
    simpl in Hids1, Hids2. injection Hids1 as ->. injection Hids2 as ->.
    by rewrite Hstem. }
  unfold embed_and_upsert, mbind, M_bind in Hrun.
  destruct (embed_documents _ _ _ _ _ _ _ _ _ w)
    as [w1 [e|[embedded fs1]]] eqn:Hembed; [discriminate|].
  destruct (upsert_to_qdrant uuid5_dns qdrant_refuses stored_vector embedded
              store w1)
    as [w2 [e|[store2 [e|]]]] eqn:Hupload; [discriminate | discriminate |].
  injection Hrun as _ _ <-.
  pose proof (embed_documents_keeps
                (fun doc => (doc_id doc, doc_text doc, doc_metadata doc))
                c srv cache documents2 fs ltac:(done) _ _ _ Hembed) as Hkeep.
  simpl in Hkeep.
  assert (Hlen : length embedded = length documents2)
    by (apply (f_equal length) in Hkeep; by rewrite !length_map in Hkeep).
  destruct (lookup_lt_is_Some_2 embedded i ltac:(lia)) as [doc2' Hdoc2'].
  destruct (map_lookup_same _ _ _ _ _ Hkeep Hdoc2') as (d & Hd & Hcore).
  rewrite Hdoc2 in Hd. injection Hd as <-. injection Hcore as Hid2 _ _.
  destruct (upsert_to_qdrant_holds uuid5_dns qdrant_refuses stored_vector
              embedded store store2 w1 w2 Hupload) as [Hheld _].
  destruct (Hheld doc2' ltac:(by eapply list_elem_of_lookup_2))
    as (doc' & v & Hin & _ & _ & Hstored).
  apply list_elem_of_lookup in Hin as [k Hk].
  destruct (map_lookup_same _ _ _ _ _ Hkeep Hk) as (source & Hsource & Hsame).
  injection Hsame as _ Htext Hmeta.
  eexists source, _. split; [by eapply list_elem_of_lookup_2|].
  split; [by rewrite Hid, Hid2, Hstored|]. by split.
Qed.

End SameStem.

Lemma same_stem_overwrites_witness :
  exists doc2 p,
    doc2 ∈ Examples.notes_documents
    /\ Examples.collection_after Examples.notes_run
         !! Examples.uuid5_stub (Ingest.doc_id Examples.first_smith_block)
       = Some p
    /\ Ingest.payload_text p = Ingest.doc_text doc2
    /\ Ingest.payload_metadata p = Ingest.doc_metadata doc2.
Proof.
  apply (same_stem_overwrites Examples.keep_text Examples.no_enrichment
           Examples.regex_only Examples.general Examples.md5_stub
           Examples.dump_stub Examples.load_stub Examples.uuid5_stub
           Examples.small_chunks
           (Examples.checks_dimension 3) Examples.unit_length
           0 (lit "smith.txt") (lit "docs/smith.txt") (inr Examples.smith) None
           (Examples.smith_documents None)
           0 (lit "smith.md") (lit "notes/smith.md") (inr Examples.notes) None
           Examples.notes_documents
           Examples.default_client (Examples.rejects_bad 3) None ∅
           (Examples.files_after Examples.notes_run)
           (Examples.collection_after Examples.first_run)
           (Examples.collection_after Examples.notes_run)
           Examples.startup Examples.notes_run.1
           ltac:(reflexivity) ltac:(reflexivity) ltac:(reflexivity)
           ltac:(reflexivity) 0%nat Examples.first_smith_block
           ltac:(reflexivity)).
  vm_compute. lia.
Defined.

(** ** Ingestion of a directory *)

Section IngestDirectory.

Import Cleaner Embedding Ingest Notions.

Context {E : Type}.
Variable clean_text : str -> str -> str.
Variable spacy : str -> option E.
Variable an : analyzers.
Variable auto_categorize : str -> str.
Variable md5_hexdigest : str -> str.
Variable pickle_dump : vector -> list Byte.byte.
Variable pickle_load : list Byte.byte -> option vector.
Variable uuid5_dns : str -> str.
Variable cfg : settings.
Variable qdrant_refuses :
  world -> gmap str (point E) -> list (point E)
  -> option (exn * gmap str (point E)).
Variable stored_vector : vector -> vector.

Hypothesis skipping : skip_errors cfg = true.

Local Abbreviation no_exception := (fun _ : exn => False).

Lemma process_document_skips (fuel : nat) (name full_path : str)
    (loaded : exn + str) (category : option str) (e : exn) :
  process_document clean_text spacy an auto_categorize cfg fuel name full_path
    loaded category <> Some (inl e).
Proof.
  unfold process_document. destruct loaded as [e'|content].
  - by rewrite skipping.
  - destruct (_ || _); [done|].
    by destruct (smart_chunk_text_enhanced _ _ _ _ _ _ _ _).
Qed.

Lemma process_files_skips (fuel : nat) (batch : list source_file)
    (category : option str) (e : exn) :
  process_files clean_text spacy an auto_categorize cfg fuel batch category
  <> Some (inl e).
Proof.
  induction batch as [|file rest IH]; cbn [process_files]; [done|].
  pose proof (process_document_skips fuel (file_name file) (file_path file)
                (file_loaded file) category) as Hdoc.
  destruct (process_document _ _ _ _ _ _ _ _ _ _) as [[e'|docs]|];
    [by destruct (Hdoc e') | | done].
  destruct (process_files _ _ _ _ _ _ _ _) as [[e'|more]|]; [done | done | done].
Qed.

Lemma or_continue_never_raises {A} (m : M A) :
  raises (or_continue cfg m) no_exception.
Proof.
  unfold or_continue. apply raises_try. intros e. rewrite skipping.
  apply raises_ret.
Qed.

(** The exception of an upload is part of its result: the upload
    itself raises nothing. *)
Lemma upsert_to_qdrant_never_raises (documents : list (document E))
    (store : gmap str (point E)) :
  raises (upsert_to_qdrant uuid5_dns qdrant_refuses stored_vector documents
            store)
    no_exception.
Proof.
  intros w w' e Hrun.
  destruct (build_points uuid5_dns documents) as [e'|points] eqn:Hpoints.
  - unfold upsert_to_qdrant in Hrun. by rewrite Hpoints in Hrun.
  - destruct (upsert_to_qdrant_outcome uuid5_dns qdrant_refuses stored_vector
                documents points store w Hpoints)
      as (batches & w1 & reached & failed & _ & Hrun1 & _).
    by rewrite Hrun1 in Hrun.
Qed.

Lemma ingest_batches_never_raises (fuel : nat) (c : client) (srv : remote)
    (cache : option cache_handle) (file_batches : list (list source_file))
    (category : option str) :
  forall (fs : gmap str (list Byte.byte)) (store : gmap str (point E)),
    raises
      (ingest_batches clean_text spacy an auto_categorize md5_hexdigest
         pickle_dump pickle_load uuid5_dns cfg qdrant_refuses stored_vector fuel c
         srv cache file_batches
         category fs store)
      no_exception.
Proof.
  induction file_batches as [|batch rest IH]; intros fs store;
    cbn [ingest_batches]; [apply raises_ret|].
  pose proof (process_files_skips fuel batch category) as Hfiles.
  destruct (process_files _ _ _ _ _ _ _ _) as [[e|all_documents]|];
    [by destruct (Hfiles e) | | apply raises_ret].
  destruct (is_empty all_documents); [apply IH|].
  apply raises_bind; [apply or_continue_never_raises|].
  intros [[embedded fs']|]; [|apply IH].
  apply raises_bind; [apply upsert_to_qdrant_never_raises|].
  intros [store' [e|]]; [rewrite skipping|]; apply IH.
Qed.

(** With [skip_errors] set, as it is by default, [ingest_directory]
    never raises, whatever the files, the endpoint and the cache do, as
    long as the batch size of the processing settings is not zero; with
    a zero batch size it raises the [ValueError] of [range] before it
    handles any file, [skip_errors] or not. *)
Theorem ingest_directory_skip_errors (fuel : nat) (c : client) (srv : remote)
    (cache : option cache_handle) (found : list source_file)
    (batch_size : Z) (category : option str)
    (fs : gmap str (list Byte.byte)) (store : gmap str (point E)) :
  (batch_size <> 0 ->
   raises
     (ingest_directory clean_text spacy an auto_categorize md5_hexdigest
        pickle_dump pickle_load uuid5_dns cfg qdrant_refuses stored_vector
        fuel c srv cache found batch_size category fs store)
     no_exception)
  /\ (forall w,
        ingest_directory clean_text spacy an auto_categorize md5_hexdigest
          pickle_dump pickle_load uuid5_dns cfg qdrant_refuses stored_vector
          fuel c srv cache found 0 category fs store w
        = (w, inl (OtherError (lit "range() arg 3 must not be zero")))).
Proof.
  split.
  - intros Hsize. unfold ingest_directory, Helpers.batch_iterator, range.
    destruct (Z.eqb_spec batch_size 0); [done|]. cbv zeta.
    destruct (_ =? 0); [apply raises_ret | apply ingest_batches_never_raises].
  - done.
Qed.

End IngestDirectory.

Lemma ingest_directory_skip_errors_witness :
  (32 <> 0 ->
   Notions.raises
     (Ingest.ingest_directory Examples.keep_text Examples.no_enrichment
        Examples.regex_only Examples.general Examples.md5_stub
        Examples.dump_stub Examples.load_stub Examples.uuid5_stub
        Examples.small_chunks (Examples.checks_dimension 3)
        Examples.unit_length 0 Examples.default_client Examples.unreachable
        None Examples.found_files 32 None ∅ ∅)
     (fun _ => False))
  /\ (forall w,
        Ingest.ingest_directory Examples.keep_text Examples.no_enrichment
          Examples.regex_only Examples.general Examples.md5_stub
          Examples.dump_stub Examples.load_stub Examples.uuid5_stub
          Examples.small_chunks (Examples.checks_dimension 3)
          Examples.unit_length 0 Examples.default_client Examples.unreachable
          None Examples.found_files 0 None ∅ ∅ w
        = (w, inl (Embedding.OtherError (lit "range() arg 3 must not be zero")))).
Proof.
  apply (ingest_directory_skip_errors Examples.keep_text Examples.no_enrichment
           Examples.regex_only Examples.general Examples.md5_stub
           Examples.dump_stub Examples.load_stub Examples.uuid5_stub
           Examples.small_chunks (Examples.checks_dimension 3)
           Examples.unit_length).
  reflexivity.
Defined.
